(** * CellClash: the authoritative simulation core of [server/server.js]

    A shallow embedding of the server of Cell Clash (the join, input and
    close handlers, [handlePlayerDeath] and the fixed-rate game loop)
    together with the shared constants of [shared/constants.js] and with
    the part of the client [client/game.js] that talks to the server (the
    handlers of its messages, the leaderboard, the camera and the input it
    sends).  The properties of the simulation core that the specification
    states come first; further properties of the handlers, of the objects
    and the Map over a run, of the messages and of the client against the
    server follow; the relocation of a pellet on a run in which one is
    eaten and the growth of a player within a life, which use them, close
    the file.

    Numbers.  A JavaScript number is modelled by [num]: the three special
    values NaN, +Infinity and -Infinity are kept apart, with the rules
    ECMAScript gives them, and a finite double is read as the real number
    it denotes.  Finite arithmetic is therefore exact: rounding, overflow
    and underflow of finite operands and the sign of zero are not
    modelled, and the literal 0.9 is 9/10.  A property that compares a
    finite number with the exact value of an expression holds of the
    doubles up to rounding only; where the rounding itself matters, a
    state is given with the doubles the server holds then (the players
    [veteran] and [glutton] below).  A string is the sequence of its code
    units, and [substring] counts code units.

    Objects.  Player objects are shared between the [players] Map and the
    closure variable [player] of the connection that created them, and the
    handlers and the loop mutate them in place.  The model keeps them in a
    heap; an object is allocated once per join, under the value that
    [nextPlayerId] has at that moment, and its [id] field is never assigned
    again, so that value serves as the object's address.  The Map is the
    list of its keys in insertion order.

    Outside.  [Math.random] is a sequence of reals given with the state.
    The database is seen through the requests sent to it, the console
    through the lines the handlers and the loop write, the sockets through
    the messages handed to them; an event of a run is the database
    connecting, a message, a close or a tick.  A message travels as JSON:
    a number that is not finite arrives as null.  Of the client, the canvas
    and the document are left out but for the lines of the leaderboard and
    the place and scale of the camera. *)

From Stdlib Require Import Reals Lra Lia List String.
From stdpp Require Import gmap strings list fin_maps sorting.
Import ListNotations.

Local Open Scope R_scope.

(** ** JavaScript numbers *)

Inductive num : Type :=
| NaN
| PInf
| NInf
| Fin (r : R).

Declare Scope num_scope.
Delimit Scope num_scope with num.
Bind Scope num_scope with num.

Definition isFinite (a : num) : bool :=
  match a with Fin _ => true | _ => false end.

Definition isNaN (a : num) : bool :=
  match a with NaN => true | _ => false end.

(** The infinity that carries the sign of [r]; NaN when [r] is zero. *)
Definition inf_of_sign (r : R) : num :=
  if Rlt_dec 0 r then PInf else if Rlt_dec r 0 then NInf else NaN.

Definition num_neg (a : num) : num :=
  match a with
  | NaN => NaN
  | PInf => NInf
  | NInf => PInf
  | Fin r => Fin (- r)
  end.

Definition num_add (a b : num) : num :=
  match a, b with
  | NaN, _ | _, NaN => NaN
  | PInf, NInf | NInf, PInf => NaN
  | PInf, _ | _, PInf => PInf
  | NInf, _ | _, NInf => NInf
  | Fin r, Fin s => Fin (r + s)
  end.

Definition num_sub (a b : num) : num := num_add a (num_neg b).

Definition num_mul (a b : num) : num :=
  match a, b with
  | NaN, _ | _, NaN => NaN
  | PInf, PInf | NInf, NInf => PInf
  | PInf, NInf | NInf, PInf => NInf
  | PInf, Fin r | Fin r, PInf => inf_of_sign r
  | NInf, Fin r | Fin r, NInf => inf_of_sign (- r)
  | Fin r, Fin s => Fin (r * s)
  end.

Definition num_div (a b : num) : num :=
  match a, b with
  | NaN, _ | _, NaN => NaN
  | Fin r, Fin s => if Req_dec_T s 0 then inf_of_sign r else Fin (r / s)
  | Fin _, _ => Fin 0
  | PInf, Fin s => if Rlt_dec s 0 then NInf else PInf
  | NInf, Fin s => if Rlt_dec s 0 then PInf else NInf
  | _, _ => NaN
  end.

(** [a < b]; false as soon as one side is NaN. *)
Definition num_ltb (a b : num) : bool :=
  match a, b with
  | NaN, _ | _, NaN => false
  | _, NInf | PInf, _ => false
  | NInf, _ | _, PInf => true
  | Fin r, Fin s => if Rlt_dec r s then true else false
  end.

Definition num_gtb (a b : num) : bool := num_ltb b a.

(** [a <= b]; false as soon as one side is NaN. *)
Definition num_leb (a b : num) : bool :=
  match a, b with
  | NaN, _ | _, NaN => false
  | NInf, _ | _, PInf => true
  | _, NInf | PInf, _ => false
  | Fin r, Fin s => if Rle_dec r s then true else false
  end.

Notation "a + b" := (num_add a b) : num_scope.
Notation "a - b" := (num_sub a b) : num_scope.
Notation "a * b" := (num_mul a b) : num_scope.
Notation "a / b" := (num_div a b) : num_scope.
Notation "a <? b" := (num_ltb a b) : num_scope.
Notation "a >? b" := (num_gtb a b) : num_scope.
Notation "a <=? b" := (num_leb a b) : num_scope.

Module Math.

(** [Math.max] of two arguments. *)
Definition max (a b : num) : num :=
  match a, b with
  | NaN, _ | _, NaN => NaN
  | _, _ => if num_ltb a b then b else a
  end.

(** [Math.sqrt]; of a finite number that is not negative, the real root:
    the double that [Math.sqrt] returns is the nearest one to it, so that
    its square need not be the argument again. *)
Definition sqrt (a : num) : num :=
  match a with
  | NaN | NInf => NaN
  | PInf => PInf
  | Fin r => if Rlt_dec r 0 then NaN else Fin (R_sqrt.sqrt r)
  end.

(** [Math.hypot] of two arguments: an infinite argument wins over NaN.
    Of two finite numbers it is the real length: that the doubles give
    Infinity when the length is above the largest double, and lose
    precision for the smallest ones, is not modelled. *)
Definition hypot (a b : num) : num :=
  match a, b with
  | PInf, _ | NInf, _ | _, PInf | _, NInf => PInf
  | NaN, _ | _, NaN => NaN
  | Fin r, Fin s => Fin (R_sqrt.sqrt (r * r + s * s))
  end.

Definition floor (a : num) : num :=
  match a with
  | Fin r => Fin (IZR (Zfloor r))
  | _ => a
  end.

End Math.

(** ** [shared/constants.js] *)

Module Constants.

Definition MAP_WIDTH : num := Fin 2000.
Definition MAP_HEIGHT : num := Fin 2000.
Definition INITIAL_RADIUS : num := Fin 10.
Definition INITIAL_SPEED : num := Fin 50.
Definition MIN_SPEED : num := Fin 2.
Definition PELLET_COUNT : nat := 100.
Definition PELLET_RADIUS : num := Fin 4.
Definition MAX_PLAYERS : nat := 50.
Definition TICK_RATE : nat := 30.
Definition INPUT_RATE : nat := 20.

Definition dist (x1 y1 x2 y2 : num) : num :=
  Math.hypot (x1 - x2) (y1 - y2).

End Constants.

(** ** Game state of [server/server.js] *)

(** The colour string [hsl(<hue>, 80%, 60%)], kept as its hue. *)
Inductive color : Type := hsl (hue : num).

Module Player.

Record t : Type := mk {
  id : nat;
  name : string;
  x : num;
  y : num;
  radius : num;
  dirX : num;
  dirY : num;
  color : color;
  score : num
}.

Definition set_pos (x' y' : num) (p : t) : t :=
  mk (id p) (name p) x' y' (radius p) (dirX p) (dirY p) (color p) (score p).

Definition set_dir (dx dy : num) (p : t) : t :=
  mk (id p) (name p) (x p) (y p) (radius p) dx dy (color p) (score p).

(** [radius = Math.sqrt(newArea); score = newArea]. *)
Definition set_area (newArea : num) (p : t) : t :=
  mk (id p) (name p) (x p) (y p) (Math.sqrt newArea) (dirX p) (dirY p)
     (color p) newArea.

(** The assignments of lines 292-297: the id, name and colour stay. *)
Definition respawn (sx sy : num) (p : t) : t :=
  mk (id p) (name p) sx sy Constants.INITIAL_RADIUS (Fin 0) (Fin 0) (color p)
     (Constants.INITIAL_RADIUS * Constants.INITIAL_RADIUS).

End Player.

Module Pellet.

Record t : Type := mk { x : num; y : num }.

End Pellet.

(** One entry of the [players] array of an [init] or [update] message. *)
Module Snapshot.

Record t : Type := mk {
  id : nat;
  name : string;
  x : num;
  y : num;
  radius : num;
  color : color;
  score : num
}.

End Snapshot.

(** Lines written to the console. *)
Inductive logline : Type :=
| LogMalformed
| LogJoined (name : string) (id : nat)
| LogDisconnected (name : string) (id : nat)
| LogEaten (name : string) (id : nat) (finalScore : num).

Record World : Type := mkWorld {
  (** keys of the Map [players], in insertion order; the value stored under
      a key is the object at that address of [heap] *)
  players : list nat;
  heap : gmap nat Player.t;
  (** the closure variable [player] of each connection: absent for null *)
  sockets : gmap nat nat;
  pellets : list Pellet.t;
  nextPlayerId : nat;
  (** whether [highscoreCollection] has been assigned *)
  highscoreCollection : bool;
  (** the [findOne] requests sent to the collection: name and final score *)
  ledger : list (string * num);
  console : list logline;
  (** [Math.random]: the values it returns and how many were drawn *)
  random_source : nat -> R;
  random_count : nat
}.

Definition set_players (l : list nat) (w : World) : World :=
  mkWorld l (heap w) (sockets w) (pellets w) (nextPlayerId w)
    (highscoreCollection w) (ledger w) (console w)
    (random_source w) (random_count w).

Definition set_heap (h : gmap nat Player.t) (w : World) : World :=
  mkWorld (players w) h (sockets w) (pellets w) (nextPlayerId w)
    (highscoreCollection w) (ledger w) (console w)
    (random_source w) (random_count w).

Definition set_sockets (s : gmap nat nat) (w : World) : World :=
  mkWorld (players w) (heap w) s (pellets w) (nextPlayerId w)
    (highscoreCollection w) (ledger w) (console w)
    (random_source w) (random_count w).

Definition set_pellets (l : list Pellet.t) (w : World) : World :=
  mkWorld (players w) (heap w) (sockets w) l (nextPlayerId w)
    (highscoreCollection w) (ledger w) (console w)
    (random_source w) (random_count w).

Definition set_nextPlayerId (n : nat) (w : World) : World :=
  mkWorld (players w) (heap w) (sockets w) (pellets w) n
    (highscoreCollection w) (ledger w) (console w)
    (random_source w) (random_count w).

Definition set_highscoreCollection (b : bool) (w : World) : World :=
  mkWorld (players w) (heap w) (sockets w) (pellets w) (nextPlayerId w)
    b (ledger w) (console w) (random_source w) (random_count w).

Definition send_ledger (r : string * num) (w : World) : World :=
  mkWorld (players w) (heap w) (sockets w) (pellets w) (nextPlayerId w)
    (highscoreCollection w) (ledger w ++ [r]) (console w)
    (random_source w) (random_count w).

Definition log (l : logline) (w : World) : World :=
  mkWorld (players w) (heap w) (sockets w) (pellets w) (nextPlayerId w)
    (highscoreCollection w) (ledger w) (console w ++ [l])
    (random_source w) (random_count w).

(** [Math.random()]. *)
Definition random (w : World) : num * World :=
  (Fin (random_source w (random_count w)),
   mkWorld (players w) (heap w) (sockets w) (pellets w) (nextPlayerId w)
     (highscoreCollection w) (ledger w) (console w)
     (random_source w) (S (random_count w))).

(** [players.set(k, obj)] for the object at address [k]: a key already in
    the Map keeps its place. *)
Definition Map_set (k : nat) (l : list nat) : list nat :=
  if bool_decide (k ∈ l) then l else l ++ [k].

(** [players.delete(k)]. *)
Definition Map_delete (k : nat) (l : list nat) : list nat :=
  filter (fun j => j ≠ k) l.

(** Assignment to fields of the object at address [k]. *)
Definition update (k : nat) (f : Player.t -> Player.t) (w : World) : World :=
  set_heap (alter f k (heap w)) w.

(** [initPellets]. *)
Definition initPellets (w : World) : World :=
  foldl (fun w (_ : nat) =>
           let '(rx, w1) := random w in
           let '(ry, w2) := random w1 in
           set_pellets
             (pellets w2 ++ [Pellet.mk (rx * Constants.MAP_WIDTH)
                                       (ry * Constants.MAP_HEIGHT)]) w2)
        (set_pellets [] w) (seq 0 Constants.PELLET_COUNT).

(** The state once the module has been loaded, for the values [rs] that
    [Math.random] is going to return. *)
Definition init_world (rs : nat -> R) : World :=
  initPellets (mkWorld [] ∅ ∅ [] 1 false [] [] rs 0).

Definition getRandomSpawn (w : World) : (num * num) * World :=
  let margin := Fin 50 in
  let '(rx, w1) := random w in
  let '(ry, w2) := random w1 in
  ((margin + rx * (Constants.MAP_WIDTH - Fin 2 * margin),
    margin + ry * (Constants.MAP_HEIGHT - Fin 2 * margin))%num, w2).

Definition getRandomColor (w : World) : color * World :=
  let '(r, w1) := random w in
  (hsl (Math.floor (r * Fin 360)), w1).

(** ** Inbound messages *)

(** A value of a field of a parsed message; arrays and objects are [JOther]. *)
Inductive jsval : Type :=
| JNull
| JBool (b : bool)
| JNum (n : num)
| JStr (s : string)
| JOther.

(** What [JSON.parse(data)] gives: it throws, or returns null, a primitive
    or an array (reading a field of these gives undefined), or an object. *)
Inductive payload : Type :=
| Malformed
| PNull
| PPlain
| PObject (fields : gmap string jsval).

Definition truthy (v : option jsval) : bool :=
  match v with
  | None | Some JNull => false
  | Some (JBool b) => b
  | Some (JNum (Fin r)) => if Req_dec_T r 0 then false else true
  | Some (JNum NaN) => false
  | Some (JNum _) => true
  | Some (JStr s) => negb (String.eqb s "")
  | Some JOther => true
  end.

(** [msg.name ? msg.name.substring(0, 15) : 'Player'];
    [None] when the call of [substring] throws a TypeError. *)
Definition nickname_of (v : option jsval) : option string :=
  if truthy v then
    match v with
    | Some (JStr s) => Some (String.substring 0 15 s)
    | _ => None
    end
  else Some "Player"%string.

Module InitMsg.

Record t : Type := mk {
  id : nat;
  players : list Snapshot.t;
  pellets : list Pellet.t
}.

End InitMsg.

Module UpdateMsg.

Record t : Type := mk {
  players : list Snapshot.t;
  pellets : list Pellet.t
}.

End UpdateMsg.

(** [Array.from(players.values())]. *)
Definition players_values (w : World) : list Player.t :=
  omap (fun k => heap w !! k) (players w).

(** The entry of the init message (lines 134-136). *)
Definition init_entry (p : Player.t) : Snapshot.t :=
  Snapshot.mk (Player.id p) (Player.name p) (Player.x p) (Player.y p)
    (Player.radius p) (Player.color p) (Player.score p).

(** The entry of the periodic update (lines 250-258). *)
Definition update_entry (p : Player.t) : Snapshot.t :=
  Snapshot.mk (Player.id p) (Player.name p) (Player.x p) (Player.y p)
    (Player.radius p) (Player.color p) (Math.floor (Player.score p)).

(** The [join] branch.  The init message is the object [initMsg] as the
    handler has built it when it returns; the high scores the database may
    add to it are left out.  When [highscoreCollection] is not set it is
    handed to [ws.send] there and then (line 151).  When it is set,
    [ws.send] is called from the callback of [toArray] (line 147), after
    the handler has returned: the entries of [players] are objects of their
    own and are sent as built, but [pellets] is the array of the state
    itself, whose pellets a tick moves in place, and is read when the
    message is sent.  That later reading is not part of this function. *)
Definition join (c : nat) (msg : gmap string jsval) (w : World)
  : option (World * InitMsg.t) :=
  match nickname_of (msg !! "name"%string) with
  | None => None
  | Some nickname =>
      let '((sx, sy), w1) := getRandomSpawn w in
      let k := nextPlayerId w1 in
      let w2 := set_nextPlayerId (S k) w1 in
      let '(col, w3) := getRandomColor w2 in
      let player :=
        Player.mk k nickname sx sy Constants.INITIAL_RADIUS (Fin 0) (Fin 0) col
          (Constants.INITIAL_RADIUS * Constants.INITIAL_RADIUS) in
      let w4 := set_sockets (<[c := k]> (sockets w3))
                  (set_heap (<[k := player]> (heap w3)) w3) in
      let w5 := set_players (Map_set (Player.id player) (players w4)) w4 in
      let w6 := log (LogJoined (Player.name player) (Player.id player)) w5 in
      let currentPlayers := init_entry <$> players_values w6 in
      Some (w6, InitMsg.mk (Player.id player) currentPlayers (pellets w6))
  end.

(** The [input] branch, for the object [k] held by the connection. *)
Definition input (k : nat) (msg : gmap string jsval) (w : World) : World :=
  match msg !! "dx"%string, msg !! "dy"%string with
  | Some (JNum dx), Some (JNum dy) =>
      let mag := Math.hypot dx dy in
      if (mag >? Fin 0)%num
      then update k (Player.set_dir (dx / mag) (dy / mag)) w
      else update k (Player.set_dir (Fin 0) (Fin 0)) w
  | _, _ => w
  end.

(** [ws.on('message')] of connection [c]: the new state and the message
    sent back, or [None] when an uncaught TypeError ends the process. *)
Definition onMessage (c : nat) (data : payload) (w : World)
  : option (World * option InitMsg.t) :=
  match data with
  | Malformed => Some (log LogMalformed w, None)
  | PNull => None
  | PPlain => Some (w, None)
  | PObject msg =>
      match msg !! "type"%string with
      | Some (JStr ty) =>
          if String.eqb ty "join" then
            match join c msg w with
            | Some (w', m) => Some (w', Some m)
            | None => None
            end
          else if String.eqb ty "input" then
            match sockets w !! c with
            | Some k => Some (input k msg w, None)
            | None => Some (w, None)
            end
          else Some (w, None)
      | _ => Some (w, None)
      end
  end.

(** [ws.on('close')] of connection [c]. *)
Definition onClose (c : nat) (w : World) : World :=
  match sockets w !! c with
  | Some k =>
      let w1 :=
        match heap w !! k with
        | Some player =>
            set_players (Map_delete (Player.id player) (players w))
              (log (LogDisconnected (Player.name player) (Player.id player)) w)
        | None => w
        end in
      set_sockets (delete c (sockets w1)) w1
  | None => w
  end.

(** ** The game loop *)

(** Body of the first [players.forEach] (lines 185-194). *)
Definition movePlayer (player : Player.t) : Player.t :=
  let speed :=
    Math.max Constants.MIN_SPEED
      (Constants.INITIAL_SPEED / Player.radius player) in
  let x := (Player.x player + Player.dirX player * speed)%num in
  let y := (Player.y player + Player.dirY player * speed)%num in
  let x := if (x <? Player.radius player)%num then Player.radius player else x in
  let y := if (y <? Player.radius player)%num then Player.radius player else y in
  let x := if (x >? Constants.MAP_WIDTH - Player.radius player)%num
           then (Constants.MAP_WIDTH - Player.radius player)%num else x in
  let y := if (y >? Constants.MAP_HEIGHT - Player.radius player)%num
           then (Constants.MAP_HEIGHT - Player.radius player)%num else y in
  Player.set_pos x y player.

Definition movement (w : World) : World :=
  foldl (fun w k => update k movePlayer w) w (players w).

(** The player's side of eating a pellet (lines 204-208). *)
Definition eatPellet (player : Player.t) : Player.t :=
  let oldArea := (Player.radius player * Player.radius player)%num in
  let pelletArea := (Constants.PELLET_RADIUS * Constants.PELLET_RADIUS)%num in
  let newArea := (oldArea + pelletArea)%num in
  Player.set_area newArea player.

(** Body of the [for] loop over the pellets, for the player at [k]. *)
Definition pelletStep (k : nat) (w : World) (i : nat) : World :=
  match heap w !! k, pellets w !! i with
  | Some player, Some q =>
      if (Constants.dist (Player.x player) (Player.y player)
            (Pellet.x q) (Pellet.y q) <? Player.radius player)%num
      then
        let w1 := update k eatPellet w in
        let '(rx, w2) := random w1 in
        let '(ry, w3) := random w2 in
        set_pellets
          (<[i := Pellet.mk (rx * Constants.MAP_WIDTH)
                            (ry * Constants.MAP_HEIGHT)]> (pellets w3)) w3
      else w
  | _, _ => w
  end.

Definition pelletCollisions (w : World) : World :=
  foldl (fun w k => foldl (pelletStep k) w (seq 0 (length (pellets w))))
        w (players w).

(** [handlePlayerDeath], for the object at address [k]. *)
Definition handlePlayerDeath (k : nat) (w : World) : World :=
  match heap w !! k with
  | Some player =>
      let finalScore := Math.floor (Player.score player) in
      let w1 := log (LogEaten (Player.name player) (Player.id player)
                       finalScore) w in
      let w2 := if highscoreCollection w1
                then send_ledger (Player.name player, finalScore) w1
                else w1 in
      let '((sx, sy), w3) := getRandomSpawn w2 in
      let w4 := update k (Player.respawn sx sy) w3 in
      set_players (Map_set (Player.id player) (players w4)) w4
  | None => w
  end.

(** The eater's side of an elimination (lines 232-236). *)
Definition eatPlayer (playerB playerA : Player.t) : Player.t :=
  let areaA := (Player.radius playerA * Player.radius playerA)%num in
  let areaB := (Player.radius playerB * Player.radius playerB)%num in
  let newAreaA := (areaA + areaB)%num in
  Player.set_area newAreaA playerA.

(** Body of the inner [players.forEach] of the player-vs-player pass, on
    the state and the local array [eatenPlayers]. *)
Definition collideStep (a : nat) (st : World * list nat) (b : nat)
  : World * list nat :=
  let '(w, eatenPlayers) := st in
  if bool_decide (a = b) then st
  else
    match heap w !! a, heap w !! b with
    | Some playerA, Some playerB =>
        if (Player.radius playerA <? Player.radius playerB)%num then st
        else
          let dist := Constants.dist (Player.x playerA) (Player.y playerA)
                        (Player.x playerB) (Player.y playerB) in
          if (dist <? Player.radius playerA * Fin (9 / 10))%num then
            if bool_decide (Player.id playerB ∈ eatenPlayers) then st
            else
              let eatenPlayers := eatenPlayers ++ [Player.id playerB] in
              let w1 := update a (eatPlayer playerB) w in
              (handlePlayerDeath b w1, eatenPlayers)
          else st
    | _, _ => st
    end.

Definition playerCollisions (w : World) : World * list nat :=
  foldl (fun st a => foldl (collideStep a) st (players st.1))
        (w, []) (players w).

(** [eatenPlayers.forEach(id => players.delete(id))]. *)
Definition removeEaten (eatenPlayers : list nat) (w : World) : World :=
  foldl (fun w id => set_players (Map_delete id (players w)) w) w eatenPlayers.

Definition stateUpdate (w : World) : UpdateMsg.t :=
  UpdateMsg.mk (update_entry <$> players_values w) (pellets w).

(** One run of the [setInterval] callback: the new state and the message
    broadcast to the open connections. *)
Definition tick (w : World) : World * UpdateMsg.t :=
  let w1 := movement w in
  let w2 := pelletCollisions w1 in
  let '(w3, eatenPlayers) := playerCollisions w2 in
  let w4 := removeEaten eatenPlayers w3 in
  (w4, stateUpdate w4).

(** The ids pushed to [eatenPlayers] by the tick that starts in [w]. *)
Definition eatenInTick (w : World) : list nat :=
  (playerCollisions (pelletCollisions (movement w))).2.

(** ** Runs of the server *)

Inductive event : Type :=
| DbConnected
| Message (c : nat) (data : payload)
| Close (c : nat)
| Tick.

Definition step (e : event) (w : World) : option World :=
  match e with
  | DbConnected => Some (set_highscoreCollection true w)
  | Message c data => fst <$> onMessage c data w
  | Close c => Some (onClose c w)
  | Tick => Some (tick w).1
  end.

Fixpoint run (es : list event) (w : World) : option World :=
  match es with
  | [] => Some w
  | e :: es => match step e w with Some w' => run es w' | None => None end
  end.

(** States the server can be in: [rs] is what [Math.random] returns. *)
Definition reachable (rs : nat -> R) (w : World) : Prop :=
  exists es, run es (init_world rs) = Some w.

(** ** Well-formed states *)

(** Every object sits at the address its [id] field names. *)
Definition ids_ok (w : World) : Prop :=
  forall k p, heap w !! k = Some p -> Player.id p = k.

(** The shape every state of a run has: the keys of the Map are distinct
    and name allocated objects, and [nextPlayerId] is above all of them. *)
Record wf (w : World) : Prop := mk_wf {
  wf_ids : ids_ok w;
  wf_live : forall k, k ∈ players w -> is_Some (heap w !! k);
  wf_nodup : NoDup (players w);
  wf_fresh : forall k : nat, is_Some (heap w !! k) -> (k < nextPlayerId w)%nat
}.

(** A NaN coordinate. *)
Definition lost (p : Player.t) : Prop :=
  Player.x p = NaN \/ Player.y p = NaN.

(** The pellet lies on the map. *)
Definition on_map (q : Pellet.t) : Prop :=
  exists a b, Pellet.x q = Fin a /\ Pellet.y q = Fin b /\
              0 <= a < 2000 /\ 0 <= b < 2000.

(** The pellet that lines 210-211 put in the place of an eaten one, and
    line 78 in the pool, when [Math.random], whose values are [rs], has been
    called [n] times before. *)
Definition relocated (rs : nat -> R) (n : nat) : Pellet.t :=
  Pellet.mk (Fin (rs n) * Constants.MAP_WIDTH)
            (Fin (rs (S n)) * Constants.MAP_HEIGHT).

(** The pool [ps] after the pellets at the indices [ixs] have been eaten,
    in that order, [Math.random] having been called [n] times before. *)
Fixpoint relocations (rs : nat -> R) (n : nat) (ixs : list nat)
    (ps : list Pellet.t) : list Pellet.t :=
  match ixs with
  | [] => ps
  | i :: ixs => relocations rs (S (S n)) ixs (<[i := relocated rs n]> ps)
  end.

(** [w'] differs from [w] in the fields of player objects at most. *)
Definition heap_only (w w' : World) : Prop :=
  players w' = players w /\ pellets w' = pellets w /\
  sockets w' = sockets w /\ nextPlayerId w' = nextPlayerId w /\
  highscoreCollection w' = highscoreCollection w /\ ledger w' = ledger w /\
  console w' = console w /\ random_source w' = random_source w /\
  random_count w' = random_count w.

(** What the pellet pass leaves alone. *)
Definition pellet_frame (w w' : World) : Prop :=
  players w' = players w /\ sockets w' = sockets w /\
  nextPlayerId w' = nextPlayerId w /\
  highscoreCollection w' = highscoreCollection w /\ ledger w' = ledger w /\
  console w' = console w /\ random_source w' = random_source w /\
  length (pellets w') = length (pellets w).

(** What the player-vs-player pass leaves alone. *)
Definition collide_frame (w w' : World) : Prop :=
  sockets w' = sockets w /\ nextPlayerId w' = nextPlayerId w /\
  highscoreCollection w' = highscoreCollection w /\
  random_source w' = random_source w /\ pellets w' = pellets w.

(** A death as [handlePlayerDeath] reports it: name, id, floored score. *)
Definition death : Type := string * nat * num.

Definition death_line (d : death) : logline :=
  LogEaten d.1.1 d.1.2 d.2.

Definition death_request (d : death) : string * num := (d.1.1, d.2).

(** The deaths of one player-vs-player pass: one console line and, when the
    collection is there, one request per id pushed, and no id twice. *)
Definition deaths_of (w : World) (st : World * list nat) (ds : list death)
  : Prop :=
  console st.1 = console w ++ (death_line <$> ds) /\
  ledger st.1 =
    ledger w ++
      (if highscoreCollection w then death_request <$> ds else []) /\
  (fun d : death => d.1.2) <$> ds = st.2.

(** ** Growth within a life *)






(** ** What a client may declare *)

(** Fields a message may carry to declare a position, a size or a score. *)
Definition client_fields : list string :=
  ["x"; "y"; "radius"; "score"]%string.

(** Two payloads that differ in those fields at most. *)
Definition same_but_client_fields (d1 d2 : payload) : Prop :=
  match d1, d2 with
  | PObject m1, PObject m2 =>
      forall f : string, f ∉ client_fields -> m1 !! f = m2 !! f
  | _, _ => d1 = d2
  end.

Inductive same_intent : event -> event -> Prop :=
| same_message (c : nat) (d1 d2 : payload) :
    same_but_client_fields d1 d2 -> same_intent (Message c d1) (Message c d2)
| same_event (e : event) : same_intent e e.

Definition is_infinite (a : num) : bool :=
  match a with PInf | NInf => true | _ => false end.

(** ** Concrete runs and states *)

(** A [Math.random] that returns 0 every time. *)
Definition zeros : nat -> R := fun _ => 0.

(** Where [initPellets] puts every pellet then. *)
Definition corner : Pellet.t := Pellet.mk (Fin (0 * 2000)) (Fin (0 * 2000)).

(** The join [{type: 'join', name: 'Ann'}] once parsed. *)
Definition join_Ann : gmap string jsval :=
  <["type"%string := JStr "join"]> (<["name"%string := JStr "Ann"]> ∅).

(** The object such a join creates then, under the id [k]. *)
Definition spawned (k : nat) : Player.t :=
  Player.mk k "Ann"
    (Fin (50 + 0 * (2000 + - (2 * 50)))) (Fin (50 + 0 * (2000 + - (2 * 50))))
    (Fin 10) (Fin 0) (Fin 0) (hsl (Fin (IZR (Zfloor (0 * 360)))))
    (Fin (10 * 10)).

(** The input [{type: 'input', dx: 1e999, dy: 0}]: [1e999] parses to
    +Infinity. *)
Definition infinite_input : gmap string jsval :=
  <["type"%string := JStr "input"]>
    (<["dx"%string := JNum PInf]> (<["dy"%string := JNum (Fin 0)]> ∅)).

(** The input [{type: 'input', dx: 0, dy: 1}]. *)
Definition south_input : gmap string jsval :=
  <["type"%string := JStr "input"]>
    (<["dx"%string := JNum (Fin 0)]> (<["dy"%string := JNum (Fin 1)]> ∅)).

(** The input [{type: 'input', dx: 3, dy: 4}]. *)
Definition plain_input : gmap string jsval :=
  <["type"%string := JStr "input"]>
    (<["dx"%string := JNum (Fin 3)]> (<["dy"%string := JNum (Fin 4)]> ∅)).

(** The same input with a position, a radius and a score declared. *)
Definition cheating_input : gmap string jsval :=
  <["x"%string := JNum (Fin 5)]>
    (<["y"%string := JNum (Fin 5)]>
       (<["radius"%string := JNum (Fin 500)]>
          (<["score"%string := JNum (Fin 250000)]> plain_input))).

(** The connections 1 to [n] join, in that order. *)
Definition joins (n : nat) : list event :=
  (fun c => Message c (PObject join_Ann)) <$> seq 1 n.

(** One player joins and sends the infinite input. *)
Definition drifting : list event :=
  joins 1 ++ [Message 1 (PObject infinite_input)].

(** Then a tick runs and the player sends the input that points south. *)
Definition sinking : list event :=
  drifting ++ [Tick; Message 1 (PObject south_input)].

(** The player of [drifting] at the end of that run, and the player of
    [sinking] at the end of that one. *)
Definition drifter : Player.t := Player.set_dir NaN (Fin 0) (spawned 1).

Definition sinker : Player.t :=
  Player.set_dir (Fin (0 / sqrt (0 * 0 + 1 * 1)))
                 (Fin (1 / sqrt (0 * 0 + 1 * 1))) (movePlayer drifter).

(** The state after the connections 1 to [n] have joined and nothing else
    has happened. *)
Record nursery (n : nat) (w : World) : Prop := mk_nursery {
  nursery_reachable : reachable zeros w;
  nursery_players : players w = seq 1 n;
  nursery_heap :
    forall k : nat,
      heap w !! k =
        if bool_decide (1 <= k <= n)%nat then Some (spawned k) else None;
  nursery_sockets :
    forall c : nat, (1 <= c <= n)%nat -> sockets w !! c = Some c;
  nursery_pellets : Forall (fun q => q = corner) (pellets w);
  nursery_random : random_source w = zeros;
  nursery_next : nextPlayerId w = S n
}.

(** *** States given as such *)

(** A state with one player object, held by connection 1, every pellet in
    the corner of the map and nothing logged. *)
Definition alone (p : Player.t) : World :=
  mkWorld [1%nat] {[1%nat := p]} {[1%nat := 1%nat]}
    (replicate Constants.PELLET_COUNT (Pellet.mk (Fin 0) (Fin 0)))
    2 false [] [] zeros 0.

(** A player wider than the map. *)
Definition giant : Player.t :=
  Player.mk 1 "Ann" (Fin 1000) (Fin 1000) (Fin 1500) (Fin 0) (Fin 0)
    (hsl (Fin 0)) (Fin 2250000).

(** A player whose score is the double below 164, which is what
    [radius * radius + 16] gives for the fourth pellet of a life when the
    square root is rounded to a double. *)
Definition veteran : Player.t :=
  Player.mk 1 "Bob" (Fin 1000) (Fin 1000) (Fin (sqrt (164 - / 2 ^ 45)))
    (Fin 0) (Fin 0) (hsl (Fin 0)) (Fin (164 - / 2 ^ 45)).



(** *** A run in which a pellet is eaten *)

(** [Math.random] returns 1/2 for the first pellet of the pool and for the
    spawn of the first join, and 0 otherwise. *)
Definition lucky (n : nat) : R :=
  if (n <? 2)%nat || ((200 <=? n)%nat && (n <? 202)%nat) then 1 / 2 else 0.

(** The object the first join creates then: at the centre of the map,
    where the first pellet of the pool is. *)
Definition centred : Player.t :=
  Player.mk 1 "Ann"
    (Fin (50 + 1 / 2 * (2000 + - (2 * 50))))
    (Fin (50 + 1 / 2 * (2000 + - (2 * 50))))
    (Fin 10) (Fin 0) (Fin 0) (hsl (Fin (IZR (Zfloor (0 * 360)))))
    (Fin (10 * 10)).

(** ** More of the server *)

(** A player object as every run keeps it: a finite radius, not below the
    initial one, and a score that is the square of the radius. *)
Definition healthy (p : Player.t) : Prop :=
  exists r, 10 <= r /\ Player.radius p = Fin r /\ Player.score p = Fin (r * r).

(** A position at which [getRandomSpawn] can put a player. *)
Definition spawn_area (x y : num) : Prop :=
  exists a b, x = Fin a /\ y = Fin b /\ 50 <= a < 1950 /\ 50 <= b < 1950.


(** Every allocated player object satisfies [P]. *)
Definition heap_all (P : Player.t -> Prop) (w : World) : Prop :=
  forall k p, heap w !! k = Some p -> P p.

(** [Math.random] as specified: a number from 0 up to but not including 1. *)
Definition random_ok (rs : nat -> R) : Prop := forall n, 0 <= rs n < 1.

(** Every object of [w0] is still allocated in [w], and stands to what it
    was in the relation [T] gives for its address. *)
Definition track (T : nat -> Player.t -> Player.t -> Prop) (w0 w : World)
  : Prop :=
  forall k p, heap w0 !! k = Some p -> exists q, heap w !! k = Some q /\ T k p q.

(** The join [{type: 'join', name: 42}] once parsed. *)
Definition join_42 : gmap string jsval :=
  <["type"%string := JStr "join"]> (<["name"%string := JNum (Fin 42)]> ∅).

(** ** [client/game.js] *)

(** What [JSON.stringify] followed by [JSON.parse] makes of a number: the
    number itself when it is finite, null for NaN and the infinities. *)
Definition JSON_value (a : num) : jsval :=
  if isFinite a then JNum a else JNull.

(** A number field of a message of the server, as the client reads it. *)
Inductive wire : Type :=
| WNull
| WNum (r : R).

Definition JSON_number (a : num) : wire :=
  match a with
  | Fin r => WNum r
  | _ => WNull
  end.

(** [ToNumber]: in arithmetic null counts as 0. *)
Definition ToNumber (v : wire) : num :=
  match v with
  | WNull => Fin 0
  | WNum r => Fin r
  end.

(** An entry of the client's [players] object. *)
Module Cell.

Record t : Type := mk {
  id : nat;
  name : string;
  x : wire;
  y : wire;
  radius : wire;
  color : color;
  score : wire
}.

End Cell.

(** An entry of the [players] array of a message, once parsed. *)
Definition receive (e : Snapshot.t) : Cell.t :=
  Cell.mk (Snapshot.id e) (Snapshot.name e)
    (JSON_number (Snapshot.x e)) (JSON_number (Snapshot.y e))
    (JSON_number (Snapshot.radius e)) (Snapshot.color e)
    (JSON_number (Snapshot.score e)).


(** A line of the leaderboard: the name and the score shown, and whether
    the line is set in bold. *)
Module Row.

Record t : Type := mk {
  name : string;
  score : num;
  bold : bool
}.

End Row.

Module Client.

Record t : Type := mk {
  (** [playerId]: absent for null *)
  playerId : option nat;
  players : gmap nat Cell.t;
  pellets : list (wire * wire);
  (** the items of [leaderboardUI] *)
  leaderboard : list Row.t
}.

End Client.

(** The client before the first message. *)
Definition new_client : Client.t := Client.mk None ∅ [] [].


(** Body of the first loop of the case [update] (lines 84-95). *)
Definition updatePlayer (m : gmap nat Cell.t) (p : Cell.t) : gmap nat Cell.t :=
  let m1 :=
    match m !! Cell.id p with
    | None => <[Cell.id p := p]> m
    | Some _ =>
        alter (fun q => Cell.mk (Cell.id q) (Cell.name q) (Cell.x p) (Cell.y p)
                          (Cell.radius p) (Cell.color q) (Cell.score q))
              (Cell.id p) m
    end in
  alter (fun q => Cell.mk (Cell.id q) (Cell.name p) (Cell.x q) (Cell.y q)
                    (Cell.radius q) (Cell.color p) (Cell.score p))
        (Cell.id p) m1.

(** [Object.values] of an object whose keys are ids: in ascending order of
    the keys. *)
Definition Object_values (m : gmap nat Cell.t) : list Cell.t :=
  omap (fun k => m !! k) (merge_sort le (elements (dom m))).

(** [Array.prototype.sort] with the comparator [cmp]: an element moves
    behind another only when [cmp] is above 0 for the two, so elements that
    compare equal keep their order. *)
Fixpoint Array_insert {A : Type} (cmp : A -> A -> num) (a : A) (l : list A)
  : list A :=
  match l with
  | [] => [a]
  | b :: l' =>
      if (cmp a b >? Fin 0)%num then b :: Array_insert cmp a l' else a :: l
  end.

Definition Array_sort {A : Type} (cmp : A -> A -> num) (l : list A) : list A :=
  foldr (Array_insert cmp) [] l.

(** The comparator of [updateLeaderboard]: [b.score - a.score]. *)
Definition by_score (a b : Cell.t) : num :=
  (ToNumber (Cell.score b) - ToNumber (Cell.score a))%num.

(** [updateLeaderboard]: the items it leaves in [leaderboardUI]. *)
Definition updateLeaderboard (cl : Client.t) : Client.t :=
  let sorted := Array_sort by_score (Object_values (Client.players cl)) in
  let items :=
    (fun p => Row.mk (Cell.name p) (Math.floor (ToNumber (Cell.score p)))
                (bool_decide (Client.playerId cl = Some (Cell.id p))))
      <$> take (Nat.min (length sorted) 10) sorted in
  Client.mk (Client.playerId cl) (Client.players cl) (Client.pellets cl) items.

(** The case [update] of [socket.onmessage]. *)
Definition onUpdate (ps : list Cell.t) (qs : list (wire * wire))
    (cl : Client.t) : Client.t :=
  let m := foldl updatePlayer (Client.players cl) ps in
  let currentIDs := Cell.id <$> ps in
  let m := filter (fun kv => kv.1 ∈ currentIDs) m in
  updateLeaderboard
    (Client.mk (Client.playerId cl) m qs (Client.leaderboard cl)).




(** [sendDirection], for the mouse position and the size of the canvas:
    the message handed to [socket.send], as the server parses it; nothing
    is sent unless the socket is open. *)
Definition sendDirection (open : bool) (mouseX mouseY width height : num)
  : option (gmap string jsval) :=
  if open then
    let dx := (mouseX - width / Fin 2)%num in
    let dy := (mouseY - height / Fin 2)%num in
    let dist := Math.hypot dx dy in
    let input :=
      if (dist >? Fin 0)%num then ((dx / dist)%num, (dy / dist)%num)
      else (Fin 0, Fin 0) in
    Some (<["type"%string := JStr "input"]>
            (<["dx"%string := JSON_value input.1]>
               (<["dy"%string := JSON_value input.2]> ∅)))
  else None.

(** The entries of a client all sit under their own id. *)
Definition cells_ok (cl : Client.t) : Prop :=
  forall k q, Client.players cl !! k = Some q -> Cell.id q = k.

(** ** Facts about numbers *)

Lemma ltb_Fin (r s : R) : (Fin r <? Fin s)%num = true <-> r < s.
Proof.
  unfold num_ltb. destruct (Rlt_dec r s); split; intros; try done.
Qed.

Lemma ltb_Fin_true (r s : R) : r < s -> (Fin r <? Fin s)%num = true.
Proof. apply ltb_Fin. Qed.

Lemma ltb_Fin_false (r s : R) : s <= r -> (Fin r <? Fin s)%num = false.
Proof.
  intros H. unfold num_ltb. destruct (Rlt_dec r s); [lra | done].
Qed.

Lemma ltb_NaN_l (a : num) : (NaN <? a)%num = false.
Proof. by destruct a. Qed.

Lemma ltb_NaN_r (a : num) : (a <? NaN)%num = false.
Proof. by destruct a. Qed.

Lemma ltb_PInf_l (a : num) : (PInf <? a)%num = false.
Proof. by destruct a. Qed.

Lemma sub_NaN_l (a : num) : (NaN - a)%num = NaN.
Proof. by destruct a. Qed.

Lemma sub_NaN_r (a : num) : (a - NaN)%num = NaN.
Proof. by destruct a. Qed.

Lemma add_NaN_r (a : num) : (a + NaN)%num = NaN.
Proof. by destruct a. Qed.

Lemma mul_NaN_r (a : num) : (a * NaN)%num = NaN.
Proof. by destruct a. Qed.

Lemma hypot_NaN_l (b : num) : Math.hypot NaN b = NaN \/ Math.hypot NaN b = PInf.
Proof. destruct b; auto. Qed.

Lemma hypot_NaN_r (a : num) : Math.hypot a NaN = NaN \/ Math.hypot a NaN = PInf.
Proof. destruct a; auto. Qed.

(** A distance from or to a point with a NaN coordinate is below nothing. *)
Lemma dist_NaN_not_lt (x1 y1 x2 y2 r : num) :
  x1 = NaN \/ y1 = NaN \/ x2 = NaN \/ y2 = NaN ->
  (Constants.dist x1 y1 x2 y2 <? r)%num = false.
Proof.
  unfold Constants.dist. intros [-> | [-> | [-> | ->]]].
  - rewrite sub_NaN_l.
    destruct (hypot_NaN_l (y1 - y2)%num) as [-> | ->];
      auto using ltb_NaN_l, ltb_PInf_l.
  - rewrite sub_NaN_l.
    destruct (hypot_NaN_r (x1 - x2)%num) as [-> | ->];
      auto using ltb_NaN_l, ltb_PInf_l.
  - rewrite sub_NaN_r.
    destruct (hypot_NaN_l (y1 - y2)%num) as [-> | ->];
      auto using ltb_NaN_l, ltb_PInf_l.
  - rewrite sub_NaN_r.
    destruct (hypot_NaN_r (x1 - x2)%num) as [-> | ->];
      auto using ltb_NaN_l, ltb_PInf_l.
Qed.

Lemma div_Fin (r s : R) : s <> 0 -> (Fin r / Fin s)%num = Fin (r / s).
Proof.
  intros H. unfold num_div. by destruct (Req_dec_T s 0).
Qed.

Lemma sqrt_Fin (r : R) : 0 <= r -> Math.sqrt (Fin r) = Fin (sqrt r).
Proof.
  intros H. unfold Math.sqrt. destruct (Rlt_dec r 0); [lra | done].
Qed.

Lemma max_Fin (r s : R) : Math.max (Fin r) (Fin s) = Fin (Rmax r s).
Proof.
  unfold Math.max, num_ltb, Rmax.
  destruct (Rlt_dec r s), (Rle_dec r s); try done; try lra.
  f_equal. lra.
Qed.

Lemma lt_sqrt (a b : R) : 0 <= a -> a * a < b -> a < sqrt b.
Proof.
  intros Ha Hab.
  rewrite <- (sqrt_square a) at 1 by done.
  apply sqrt_lt_1; nra.
Qed.

Lemma le_sqrt (a b : R) : 0 <= b -> b * b <= a -> b <= sqrt a.
Proof.
  intros Hb Hab.
  rewrite <- (sqrt_square b) at 1 by done.
  apply sqrt_le_1; nra.
Qed.

(** ** Loops and frames *)

Lemma foldl_invariant {A B : Type} (P : A -> Prop) (f : A -> B -> A)
    (l : list B) (a : A) :
  P a -> (forall a x, x ∈ l -> P a -> P (f a x)) -> P (foldl f a l).
Proof.
  revert a. induction l as [|x l IH]; intros a Ha Hf; simpl; [done|].
  apply IH.
  - apply Hf; [left | done].
  - intros a' y Hy. apply Hf. by right.
Qed.

Lemma elem_of_Map_delete (k j : nat) (l : list nat) :
  j ∈ Map_delete k l <-> j <> k /\ j ∈ l.
Proof. unfold Map_delete. by rewrite list_elem_of_filter. Qed.

Lemma Map_set_elem (k : nat) (l : list nat) : k ∈ l -> Map_set k l = l.
Proof.
  intros H. unfold Map_set. by rewrite bool_decide_eq_true_2.
Qed.

Lemma Map_set_fresh (k : nat) (l : list nat) : k ∉ l -> Map_set k l = l ++ [k].
Proof.
  intros H. unfold Map_set. by rewrite bool_decide_eq_false_2.
Qed.

Lemma players_removeEaten (eaten : list nat) (w : World) (k : nat) :
  k ∈ players (removeEaten eaten w) <-> (k ∉ eaten) /\ k ∈ players w.
Proof.
  unfold removeEaten. revert w. induction eaten as [|e eaten IH]; intros w; simpl.
  - split; [intros H; split; [apply not_elem_of_nil | done] | by intros [_ H]].
  - rewrite IH. simpl. rewrite elem_of_Map_delete, not_elem_of_cons. tauto.
Qed.

Lemma heap_removeEaten (eaten : list nat) (w : World) :
  heap (removeEaten eaten w) = heap w.
Proof.
  unfold removeEaten. revert w. induction eaten as [|e eaten IH]; intros w; simpl;
    [done | by rewrite IH].
Qed.

Lemma pellets_removeEaten (eaten : list nat) (w : World) :
  pellets (removeEaten eaten w) = pellets w.
Proof.
  unfold removeEaten. revert w. induction eaten as [|e eaten IH]; intros w; simpl;
    [done | by rewrite IH].
Qed.

(** *** Movement *)

Lemma movement_frame (w : World) : heap_only w (movement w).
Proof.
  unfold movement. generalize (players w). intros l.
  apply (foldl_invariant (heap_only w)); [done|].
  intros a x _ H. exact H.
Qed.

Lemma movement_lookup_aux (l : list nat) (w : World) (k : nat) :
  NoDup l ->
  heap (foldl (fun w k => update k movePlayer w) w l) !! k =
    if bool_decide (k ∈ l) then movePlayer <$> heap w !! k else heap w !! k.
Proof.
  revert w. induction l as [|j l IH]; intros w Hnd; simpl; [done|].
  apply NoDup_cons in Hnd as [Hj Hnd].
  rewrite IH by done. simpl.
  destruct (decide (k = j)) as [->|Hne].
  - rewrite lookup_alter_eq.
    rewrite (bool_decide_eq_false_2 (j ∈ l)) by done.
    rewrite bool_decide_eq_true_2 by left. done.
  - rewrite lookup_alter_ne by done.
    destruct (decide (k ∈ l)) as [Hin|Hin].
    + rewrite !bool_decide_eq_true_2; [done | by right | done].
    + rewrite !bool_decide_eq_false_2; [done | | done].
      rewrite not_elem_of_cons. done.
Qed.

Lemma movement_lookup (w : World) (k : nat) :
  NoDup (players w) ->
  heap (movement w) !! k =
    if bool_decide (k ∈ players w) then movePlayer <$> heap w !! k
    else heap w !! k.
Proof. apply movement_lookup_aux. Qed.

Lemma ids_ok_update (k : nat) (f : Player.t -> Player.t) (w : World) :
  (forall p, Player.id (f p) = Player.id p) -> ids_ok w -> ids_ok (update k f w).
Proof.
  intros Hf Hw j p. unfold update. simpl.
  destruct (decide (k = j)) as [->|Hne].
  - rewrite lookup_alter_eq. destruct (heap w !! j) as [q|] eqn:E; [|done].
    simpl. intros [= <-]. rewrite Hf. by apply Hw.
  - rewrite lookup_alter_ne by done. apply Hw.
Qed.

Lemma is_Some_update (k j : nat) (f : Player.t -> Player.t) (w : World) :
  is_Some (heap (update k f w) !! j) <-> is_Some (heap w !! j).
Proof. unfold update. simpl. apply lookup_alter_is_Some. Qed.

Lemma wf_update (k : nat) (f : Player.t -> Player.t) (w : World) :
  (forall p, Player.id (f p) = Player.id p) -> wf w -> wf (update k f w).
Proof.
  intros Hf [H1 H2 H3 H4]. split.
  - by apply ids_ok_update.
  - intros j Hj. apply is_Some_update. by apply H2.
  - done.
  - intros j Hj. apply is_Some_update in Hj. by apply H4.
Qed.

Lemma wf_movement (w : World) : wf w -> wf (movement w).
Proof.
  intros Hw. unfold movement. generalize (players w) at 1. intros l.
  apply (foldl_invariant wf); [done|].
  intros a x _ Ha. by apply wf_update.
Qed.

(** *** Pellet pass *)

Lemma pelletCollisions_invariant (P : World -> Prop) (w : World) :
  (forall k w i, P w -> P (pelletStep k w i)) -> P w -> P (pelletCollisions w).
Proof.
  intros Hstep Hw. unfold pelletCollisions.
  apply (foldl_invariant P); [done|].
  intros a k _ Ha.
  apply (foldl_invariant P); [done|].
  intros a' i _ Ha'. by apply Hstep.
Qed.

Lemma pelletStep_frame (w0 : World) (k : nat) (w : World) (i : nat) :
  pellet_frame w0 w -> pellet_frame w0 (pelletStep k w i).
Proof.
  intros H. unfold pelletStep.
  destruct (heap w !! k) as [p|]; [|done].
  destruct (pellets w !! i) as [q|]; [|done].
  destruct (_ <? _)%num; [|done].
  unfold pellet_frame in *. simpl. rewrite length_insert. done.
Qed.

Lemma pelletCollisions_frame (w : World) : pellet_frame w (pelletCollisions w).
Proof.
  apply (pelletCollisions_invariant (pellet_frame w)); [|done].
  intros. by apply pelletStep_frame.
Qed.

Lemma wf_set_pellets (l : list Pellet.t) (w : World) :
  wf w -> wf (set_pellets l w).
Proof. intros [H1 H2 H3 H4]. by split. Qed.

Lemma wf_random (w : World) : wf w -> wf (random w).2.
Proof. intros [H1 H2 H3 H4]. by split. Qed.

Lemma wf_pelletStep (k : nat) (w : World) (i : nat) :
  wf w -> wf (pelletStep k w i).
Proof.
  intros H. unfold pelletStep.
  destruct (heap w !! k) as [p|]; [|done].
  destruct (pellets w !! i) as [q|]; [|done].
  destruct (_ <? _)%num; [|done].
  apply wf_set_pellets.
  apply (wf_random (random (update k eatPellet w)).2).
  apply (wf_random (update k eatPellet w)).
  by apply wf_update.
Qed.

Lemma wf_pelletCollisions (w : World) : wf w -> wf (pelletCollisions w).
Proof.
  apply (pelletCollisions_invariant wf). intros. by apply wf_pelletStep.
Qed.

(** A player with a NaN coordinate eats no pellet. *)
Lemma pelletStep_lost (k : nat) (p : Player.t) (j : nat) (w : World) (i : nat) :
  lost p -> heap w !! k = Some p -> heap (pelletStep j w i) !! k = Some p.
Proof.
  intros Hp Hk. unfold pelletStep.
  destruct (heap w !! j) as [pj|] eqn:Ej; [|done].
  destruct (pellets w !! i) as [q|]; [|done].
  destruct (decide (j = k)) as [->|Hne].
  - assert (pj = p) as -> by congruence.
    rewrite dist_NaN_not_lt; [done|].
    destruct Hp as [Hp|Hp]; auto.
  - destruct (_ <? _)%num; [|done].
    simpl. by rewrite lookup_alter_ne.
Qed.

Lemma pelletCollisions_lost (k : nat) (p : Player.t) (w : World) :
  lost p -> heap w !! k = Some p -> heap (pelletCollisions w) !! k = Some p.
Proof.
  intros Hp.
  apply (pelletCollisions_invariant (fun w => heap w !! k = Some p)).
  intros. by apply pelletStep_lost.
Qed.

Lemma on_map_random (r s : R) :
  0 <= r < 1 -> 0 <= s < 1 ->
  on_map (Pellet.mk (Fin r * Constants.MAP_WIDTH) (Fin s * Constants.MAP_HEIGHT)).
Proof.
  intros Hr Hs. exists (r * 2000), (s * 2000). simpl. repeat split; lra.
Qed.

Lemma pelletStep_on_map (k : nat) (w : World) (i : nat) :
  (forall n, 0 <= random_source w n < 1) ->
  Forall on_map (pellets w) -> Forall on_map (pellets (pelletStep k w i)).
Proof.
  intros Hrs H. unfold pelletStep.
  destruct (heap w !! k) as [p|]; [|done].
  destruct (pellets w !! i) as [q|]; [|done].
  destruct (_ <? _)%num; [|done].
  simpl. apply Forall_insert; [done|].
  apply on_map_random; apply Hrs.
Qed.

Lemma pelletCollisions_on_map (w : World) :
  (forall n, 0 <= random_source w n < 1) ->
  Forall on_map (pellets w) -> Forall on_map (pellets (pelletCollisions w)).
Proof.
  intros Hrs H.
  assert (random_source (pelletCollisions w) = random_source w /\
          Forall on_map (pellets (pelletCollisions w))) as [_ ?]; [|done].
  apply (pelletCollisions_invariant
           (fun w' => random_source w' = random_source w /\
                      Forall on_map (pellets w'))); [|done].
  intros k w' i [E Hw']. split.
  - rewrite <- E. apply (pelletStep_frame w'). done.
  - apply pelletStep_on_map; [|done]. by rewrite E.
Qed.

(** *** Player-vs-player pass *)

Lemma playerCollisions_invariant0 (P : World * list nat -> Prop) (w : World) :
  (forall a st b, P st -> P (collideStep a st b)) ->
  P (w, []) -> P (playerCollisions w).
Proof.
  intros Hstep Hw. unfold playerCollisions.
  apply (foldl_invariant P); [done|].
  intros st a _ Hst.
  apply (foldl_invariant P); [done|].
  intros st' b _ Hst'. by apply Hstep.
Qed.

Lemma playerCollisions_invariant (P : World * list nat -> Prop) (w : World) :
  (forall a st b,
      a ∈ players w -> b ∈ players w -> players st.1 = players w -> P st ->
      P (collideStep a st b) /\ players (collideStep a st b).1 = players w) ->
  P (w, []) ->
  P (playerCollisions w) /\ players (playerCollisions w).1 = players w.
Proof.
  intros Hstep Hw. unfold playerCollisions.
  apply (foldl_invariant (fun st => P st /\ players st.1 = players w)); [done|].
  intros st a Ha [Hst Epl]. rewrite Epl.
  apply (foldl_invariant (fun st => P st /\ players st.1 = players w)); [done|].
  intros st' b Hb [Hst' Epl']. by apply Hstep.
Qed.

Lemma handlePlayerDeath_spec (b : nat) (w : World) (B : Player.t) :
  heap w !! b = Some B ->
  let w' := handlePlayerDeath b w in
  let d : death := (Player.name B, Player.id B, Math.floor (Player.score B)) in
  heap w' =
    alter (Player.respawn (getRandomSpawn w).1.1 (getRandomSpawn w).1.2) b
          (heap w) /\
  players w' = Map_set (Player.id B) (players w) /\
  console w' = console w ++ [death_line d] /\
  ledger w' =
    ledger w ++ (if highscoreCollection w then [death_request d] else []) /\
  random_count w' = S (S (random_count w)) /\
  collide_frame w w'.
Proof.
  intros HB. unfold handlePlayerDeath. rewrite HB.
  cbv zeta. unfold collide_frame.
  destruct (highscoreCollection w) eqn:E; simpl; rewrite ?E; simpl;
    rewrite ?app_nil_r; done.
Qed.

(** The inner callback returns at once, or [playerA] eats [playerB]. *)
Lemma collideStep_cases (a : nat) (st : World * list nat) (b : nat) :
  collideStep a st b = st \/
  exists A B,
    a <> b /\ heap st.1 !! a = Some A /\ heap st.1 !! b = Some B /\
    (Player.radius A <? Player.radius B)%num = false /\
    (Constants.dist (Player.x A) (Player.y A) (Player.x B) (Player.y B)
       <? Player.radius A * Fin (9 / 10))%num = true /\
    (Player.id B ∉ st.2) /\
    collideStep a st b =
      (handlePlayerDeath b (update a (eatPlayer B) st.1),
       st.2 ++ [Player.id B]).
Proof.
  destruct st as [w eaten]. unfold collideStep.
  destruct (bool_decide (a = b)) eqn:Eab; [by left|].
  apply bool_decide_eq_false in Eab.
  destruct (heap w !! a) as [A|] eqn:EA; [|by left].
  destruct (heap w !! b) as [B|] eqn:EB; [|left; by destruct (heap w !! a)].
  destruct (Player.radius A <? Player.radius B)%num eqn:Er; [by left|].
  destruct (Constants.dist (Player.x A) (Player.y A) (Player.x B) (Player.y B)
              <? Player.radius A * Fin (9 / 10))%num eqn:Ed; [|by left].
  destruct (bool_decide (Player.id B ∈ eaten)) eqn:Ee; [by left|].
  apply bool_decide_eq_false in Ee.
  right. exists A, B. simpl. done.
Qed.

Lemma lookup_after_eat (a b k : nat) (B : Player.t) (w : World) :
  k <> a -> k <> b ->
  heap (handlePlayerDeath b (update a (eatPlayer B) w)) !! k = heap w !! k.
Proof.
  intros Ha Hb.
  destruct (heap (update a (eatPlayer B) w) !! b) as [B'|] eqn:E.
  - destruct (handlePlayerDeath_spec b _ B' E) as (-> & _).
    rewrite lookup_alter_ne by done. simpl. by rewrite lookup_alter_ne.
  - unfold handlePlayerDeath. rewrite E. simpl. by rewrite lookup_alter_ne.
Qed.

Lemma ids_ok_handlePlayerDeath (b : nat) (w : World) :
  ids_ok w -> ids_ok (handlePlayerDeath b w).
Proof.
  intros Hw. destruct (heap w !! b) as [B|] eqn:E.
  - destruct (handlePlayerDeath_spec b _ B E) as (Hh & _).
    intros k p. rewrite Hh.
    destruct (decide (b = k)) as [->|Hne].
    + rewrite lookup_alter_eq, E. simpl. intros [= <-]. simpl. by apply Hw.
    + rewrite lookup_alter_ne by done. apply Hw.
  - unfold handlePlayerDeath. by rewrite E.
Qed.

Lemma ids_ok_collideStep (a : nat) (st : World * list nat) (b : nat) :
  ids_ok st.1 -> ids_ok (collideStep a st b).1.
Proof.
  intros H. destruct (collideStep_cases a st b) as [->|(A & B & _ & _ & _ & _ & _ & _ & ->)];
    [done|].
  simpl. apply ids_ok_handlePlayerDeath. by apply ids_ok_update.
Qed.

Lemma wf_collideStep (a : nat) (st : World * list nat) (b : nat) :
  b ∈ players st.1 -> wf st.1 ->
  wf (collideStep a st b).1 /\ players (collideStep a st b).1 = players st.1.
Proof.
  intros Hb Hw.
  destruct (collideStep_cases a st b)
    as [->|(A & B & Hab & HA & HB & _ & _ & _ & ->)]; [done|].
  simpl.
  assert (heap (update a (eatPlayer B) st.1) !! b = Some B) as HB'.
  { simpl. by rewrite lookup_alter_ne. }
  destruct (handlePlayerDeath_spec b _ B HB') as (Hh & Hp & _ & _ & _ & Hf).
  assert (Player.id B = b) as Hid by (by apply (wf_ids _ Hw)).
  rewrite Hid in Hp. simpl in Hp. rewrite Map_set_elem in Hp by done.
  split; [|done].
  destruct Hf as (_ & Hn & _).
  destruct Hw as [H1 H2 H3 H4]. split.
  - apply ids_ok_handlePlayerDeath. by apply ids_ok_update.
  - intros k Hk. rewrite Hp in Hk. rewrite Hh. simpl.
    rewrite !lookup_alter_is_Some. by apply H2.
  - by rewrite Hp.
  - intros k. rewrite Hh, Hn. simpl. rewrite !lookup_alter_is_Some. apply H4.
Qed.

Lemma wf_playerCollisions (w : World) :
  wf w ->
  wf (playerCollisions w).1 /\ players (playerCollisions w).1 = players w.
Proof.
  intros Hw.
  apply (playerCollisions_invariant (fun st => wf st.1)); [|done].
  intros a st b _ Hb Epl Hst.
  destruct (wf_collideStep a st b) as [? E]; [by rewrite Epl | done |].
  split; [done | by rewrite E].
Qed.

Lemma collideStep_frame (w0 : World) (a : nat) (st : World * list nat) (b : nat) :
  collide_frame w0 st.1 -> collide_frame w0 (collideStep a st b).1.
Proof.
  intros H.
  destruct (collideStep_cases a st b)
    as [->|(A & B & Hab & HA & HB & _ & _ & _ & ->)]; [done|].
  simpl.
  assert (heap (update a (eatPlayer B) st.1) !! b = Some B) as HB'.
  { simpl. by rewrite lookup_alter_ne. }
  destruct (handlePlayerDeath_spec b _ B HB') as (_ & _ & _ & _ & _ & Hf).
  unfold collide_frame in *. simpl in Hf.
  destruct Hf as (-> & -> & -> & -> & ->). done.
Qed.

Lemma playerCollisions_frame (w : World) :
  collide_frame w (playerCollisions w).1.
Proof.
  apply (playerCollisions_invariant0 (fun st => collide_frame w st.1)).
  - intros. by apply collideStep_frame.
  - done.
Qed.

Lemma removeEaten_frame (eaten : list nat) (w : World) :
  console (removeEaten eaten w) = console w /\
  ledger (removeEaten eaten w) = ledger w /\
  highscoreCollection (removeEaten eaten w) = highscoreCollection w /\
  sockets (removeEaten eaten w) = sockets w /\
  nextPlayerId (removeEaten eaten w) = nextPlayerId w /\
  random_source (removeEaten eaten w) = random_source w.
Proof.
  unfold removeEaten.
  apply (foldl_invariant (fun w' =>
    console w' = console w /\ ledger w' = ledger w /\
    highscoreCollection w' = highscoreCollection w /\
    sockets w' = sockets w /\ nextPlayerId w' = nextPlayerId w /\
    random_source w' = random_source w)); [done|].
  intros a x _ H. exact H.
Qed.

Lemma collideStep_deaths (w : World) (a : nat) (st : World * list nat) (b : nat) :
  highscoreCollection st.1 = highscoreCollection w ->
  NoDup st.2 /\ (exists ds, deaths_of w st ds) ->
  NoDup (collideStep a st b).2 /\
  (exists ds, deaths_of w (collideStep a st b) ds).
Proof.
  intros Hhs [Hnd [ds (Hc & Hl & He)]].
  destruct (collideStep_cases a st b)
    as [->|(A & B & Hab & HA & HB & _ & _ & Hfresh & ->)];
    [split; [done|]; by exists ds|].
  assert (heap (update a (eatPlayer B) st.1) !! b = Some B) as HB'.
  { simpl. by rewrite lookup_alter_ne. }
  destruct (handlePlayerDeath_spec b _ B HB') as (_ & _ & Hc' & Hl' & _).
  simpl in Hc', Hl'. split; simpl.
  - apply NoDup_app. split; [done|]. split.
    + intros x Hx Hx'. apply list_elem_of_singleton in Hx' as ->. done.
    + apply NoDup_singleton.
  - exists (ds ++ [(Player.name B, Player.id B, Math.floor (Player.score B))]).
    unfold deaths_of. simpl. rewrite Hc', Hl', Hc, Hl, Hhs, !fmap_app, He.
    rewrite <- !app_assoc. split; [done|]. split; [|done].
    by destruct (highscoreCollection w).
Qed.

Lemma playerCollisions_deaths (w : World) :
  NoDup (playerCollisions w).2 /\
  exists ds, deaths_of w (playerCollisions w) ds.
Proof.
  assert (highscoreCollection (playerCollisions w).1 = highscoreCollection w /\
          NoDup (playerCollisions w).2 /\
          exists ds, deaths_of w (playerCollisions w) ds) as [_ ?]; [|done].
  apply (playerCollisions_invariant0 (fun st =>
    highscoreCollection st.1 = highscoreCollection w /\
    NoDup st.2 /\ exists ds, deaths_of w st ds)).
  - intros a st b [Hhs H]. split.
    + rewrite <- Hhs.
      apply (collideStep_frame st.1 a st b). done.
    + by apply collideStep_deaths.
  - split; [done|]. split; [apply NoDup_nil_2|].
    exists []. unfold deaths_of. simpl. rewrite app_nil_r.
    by destruct (highscoreCollection w); rewrite app_nil_r.
Qed.

Lemma before_collisions_frame (w : World) :
  let w2 := pelletCollisions (movement w) in
  console w2 = console w /\ ledger w2 = ledger w /\
  highscoreCollection w2 = highscoreCollection w /\
  players w2 = players w /\ length (pellets w2) = length (pellets w) /\
  random_source w2 = random_source w /\ sockets w2 = sockets w /\
  nextPlayerId w2 = nextPlayerId w.
Proof.
  destruct (movement_frame w) as (E1 & E2 & E3 & E4 & E5 & E6 & E7 & E8 & E9).
  destruct (pelletCollisions_frame (movement w))
    as (F1 & F2 & F3 & F4 & F5 & F6 & F7 & F8).
  simpl. rewrite F1, F2, F3, F4, F5, F6, F7, F8, <- E2. done.
Qed.

Lemma tick_sockets (w : World) : sockets (tick w).1 = sockets w.
Proof.
  destruct (before_collisions_frame w) as (_ & _ & _ & _ & _ & _ & Es & _).
  pose proof (playerCollisions_frame (pelletCollisions (movement w)))
    as (Es3 & _).
  unfold tick.
  destruct (playerCollisions (pelletCollisions (movement w))) as [w3 eaten].
  destruct (removeEaten_frame eaten w3) as (_ & _ & _ & Es4 & _).
  simpl in *. by rewrite Es4, Es3, Es.
Qed.

(** C1, as the code has it: an id pushed to [eatenPlayers] is not a key of
    the Map once the tick is over.  [handlePlayerDeath] has reset the
    object and set its key again by then, and the loop over [eatenPlayers]
    that follows deletes that key. *)
Theorem eaten_player_deleted_from_Map (w : World) (k : nat) :
  k ∈ eatenInTick w -> k ∉ players (tick w).1.
Proof.
  unfold eatenInTick, tick.
  destruct (playerCollisions (pelletCollisions (movement w))) as [w3 eaten].
  simpl. intros Hk. rewrite players_removeEaten. tauto.
Qed.

(** *** Players with a NaN coordinate *)

Lemma movePlayer_lost (p : Player.t) :
  Player.x p = NaN \/ Player.y p = NaN \/ Player.radius p = NaN ->
  lost (movePlayer p).
Proof.
  intros H. unfold lost, movePlayer. cbv zeta. simpl.
  destruct H as [H | [H | H]]; rewrite H.
  - left. simpl. rewrite ?ltb_NaN_l. unfold num_gtb. by rewrite ?ltb_NaN_r.
  - right. simpl. rewrite ?ltb_NaN_l. unfold num_gtb. by rewrite ?ltb_NaN_r.
  - left. simpl. rewrite ?mul_NaN_r, ?add_NaN_r. simpl.
    unfold num_gtb. by rewrite ?ltb_NaN_r.
Qed.

Lemma collideStep_lost (k : nat) (p : Player.t) (a : nat)
    (st : World * list nat) (b : nat) :
  lost p ->
  ids_ok st.1 /\ heap st.1 !! k = Some p /\ k ∉ st.2 ->
  ids_ok (collideStep a st b).1 /\ heap (collideStep a st b).1 !! k = Some p /\
  k ∉ (collideStep a st b).2.
Proof.
  intros Hp (Hids & Hk & Hnot).
  split; [by apply ids_ok_collideStep|].
  destruct (collideStep_cases a st b)
    as [->|(A & B & Hab & HA & HB & _ & Hd & _ & E)]; [done|].
  assert (k <> a) as Hka.
  { intros ->. assert (A = p) as -> by congruence.
    rewrite dist_NaN_not_lt in Hd; [done|]. destruct Hp; auto. }
  assert (k <> b) as Hkb.
  { intros ->. assert (B = p) as -> by congruence.
    rewrite dist_NaN_not_lt in Hd; [done|]. destruct Hp; auto. }
  rewrite E. simpl. split.
  - by rewrite lookup_after_eat.
  - rewrite not_elem_of_app, list_elem_of_singleton. split; [done|].
    rewrite (Hids b B HB). done.
Qed.

Lemma playerCollisions_lost (k : nat) (p : Player.t) (w : World) :
  lost p -> ids_ok w -> heap w !! k = Some p ->
  heap (playerCollisions w).1 !! k = Some p /\ k ∉ (playerCollisions w).2.
Proof.
  intros Hp Hids Hk.
  assert (ids_ok (playerCollisions w).1 /\
          heap (playerCollisions w).1 !! k = Some p /\
          k ∉ (playerCollisions w).2) as (_ & ? & ?); [|done].
  apply (playerCollisions_invariant0 (fun st =>
    ids_ok st.1 /\ heap st.1 !! k = Some p /\ k ∉ st.2)).
  - intros. by apply collideStep_lost.
  - split; [done|]. split; [done|]. apply not_elem_of_nil.
Qed.

Lemma tick_lost (w : World) (k : nat) (p : Player.t) :
  wf w -> k ∈ players w -> heap w !! k = Some p -> lost (movePlayer p) ->
  lost (movePlayer p) /\
  heap (movement w) !! k = Some (movePlayer p) /\
  heap (tick w).1 !! k = Some (movePlayer p) /\
  (k ∉ eatenInTick w) /\
  k ∈ players (tick w).1.
Proof.
  intros Hw Hk Hp Hlost.
  assert (heap (movement w) !! k = Some (movePlayer p)) as Hm.
  { rewrite movement_lookup by apply (wf_nodup _ Hw).
    rewrite bool_decide_eq_true_2 by done. by rewrite Hp. }
  pose proof (pelletCollisions_lost k _ _ Hlost Hm) as Hpl.
  pose proof (wf_pelletCollisions _ (wf_movement _ Hw)) as Hw2.
  destruct (playerCollisions_lost k _ _ Hlost (wf_ids _ Hw2) Hpl) as [Hc Hne].
  destruct (wf_playerCollisions _ Hw2) as [_ Epl].
  destruct (before_collisions_frame w) as (_ & _ & _ & Epl2 & _).
  simpl in Epl2.
  unfold eatenInTick, tick.
  destruct (playerCollisions (pelletCollisions (movement w))) as [w3 eaten].
  simpl in *.
  split; [done|]. split; [done|]. split; [by rewrite heap_removeEaten|].
  split; [done|].
  rewrite players_removeEaten. split; [done|]. by rewrite Epl, Epl2.
Qed.

(** C3, as the code has it.  No entity is skipped: the movement pass
    rewrites the coordinates of every key of the Map, whatever they hold.  An
    entity whose x, y or radius is NaN when the tick starts has a NaN
    coordinate from then on; every distance test that involves it is false,
    so it eats no pellet, eats nobody and is not eaten, and it is still in
    the Map when the tick ends. *)
Theorem NaN_player_moved_but_out_of_collisions
    (w : World) (k : nat) (p : Player.t) :
  wf w -> k ∈ players w -> heap w !! k = Some p ->
  Player.x p = NaN \/ Player.y p = NaN \/ Player.radius p = NaN ->
  lost (movePlayer p) /\
  heap (movement w) !! k = Some (movePlayer p) /\
  heap (tick w).1 !! k = Some (movePlayer p) /\
  (k ∉ eatenInTick w) /\
  k ∈ players (tick w).1.
Proof.
  intros Hw Hk Hp Hnan. apply tick_lost; try done. by apply movePlayer_lost.
Qed.

(** *** Movement keeps a player on the map *)

Lemma clamp_bounds (x : num) (r W : R) :
  isNaN x = false -> r <= W - r ->
  exists a,
    (let x := if (x <? Fin r)%num then Fin r else x in
     if (x >? Fin W - Fin r)%num then (Fin W - Fin r)%num else x) = Fin a /\
    r <= a <= W - r.
Proof.
  intros Hx Hr. cbv zeta. unfold num_gtb.
  destruct x as [| | |a]; simpl in Hx |- *; try done.
  - exists (W + - r). split; [done | lra].
  - destruct (Rlt_dec (W + - r) r); [lra|]. exists r. split; [done | lra].
  - destruct (Rlt_dec a r).
    + destruct (Rlt_dec (W + - r) r); [lra|]. exists r. split; [done | lra].
    + destruct (Rlt_dec (W + - r) a).
      * exists (W + - r). split; [done | lra].
      * exists a. split; [done | lra].
Qed.

Lemma speed_finite (r : R) :
  r <> 0 ->
  Math.max Constants.MIN_SPEED (Constants.INITIAL_SPEED / Fin r) =
    Fin (Rmax 2 (50 / r)).
Proof.
  intros Hr. unfold Constants.MIN_SPEED, Constants.INITIAL_SPEED.
  by rewrite div_Fin, max_Fin.
Qed.

Lemma step_not_NaN (x : num) (d s : R) :
  isNaN x = false -> isNaN (x + Fin d * Fin s)%num = false.
Proof. by destruct x. Qed.

Lemma movePlayer_bounds (p : Player.t) (r : R) :
  Player.radius p = Fin r -> 0 < r -> 2 * r <= 2000 ->
  isNaN (Player.x p) = false -> isNaN (Player.y p) = false ->
  isFinite (Player.dirX p) = true -> isFinite (Player.dirY p) = true ->
  exists a b,
    movePlayer p = Player.set_pos (Fin a) (Fin b) p /\
    r <= a <= 2000 - r /\ r <= b <= 2000 - r.
Proof.
  intros Hr Hpos Hhalf Hx Hy Hdx Hdy.
  unfold movePlayer. cbv zeta. rewrite Hr, speed_finite by lra.
  destruct (Player.dirX p) as [| | |dx]; try done.
  destruct (Player.dirY p) as [| | |dy]; try done.
  destruct (clamp_bounds (Player.x p + Fin dx * Fin (Rmax 2 (50 / r)))%num
              r 2000) as (a & Ea & Ha); [by apply step_not_NaN | lra |].
  destruct (clamp_bounds (Player.y p + Fin dy * Fin (Rmax 2 (50 / r)))%num
              r 2000) as (b & Eb & Hb); [by apply step_not_NaN | lra |].
  cbv zeta in Ea, Eb. unfold Constants.MAP_WIDTH, Constants.MAP_HEIGHT.
  exists a, b. rewrite Ea, Eb. done.
Qed.

(** C5, as the code has it: for a player of the Map whose coordinates are
    numbers (not NaN), whose heading is finite and whose radius is finite
    with 0 < radius and 2 * radius <= 2000 (the map's width and height), the
    movement pass leaves a position with radius <= x <= MAP_WIDTH - radius
    and radius <= y <= MAP_HEIGHT - radius. *)
Theorem position_within_bounds_after_movement
    (w : World) (k : nat) (p : Player.t) (r : R) :
  wf w -> k ∈ players w -> heap w !! k = Some p ->
  Player.radius p = Fin r -> 0 < r -> 2 * r <= 2000 ->
  isNaN (Player.x p) = false -> isNaN (Player.y p) = false ->
  isFinite (Player.dirX p) = true -> isFinite (Player.dirY p) = true ->
  exists p',
    heap (movement w) !! k = Some p' /\ p' = movePlayer p /\
    (Player.radius p' <=? Player.x p')%num = true /\
    (Player.x p' <=? Constants.MAP_WIDTH - Player.radius p')%num = true /\
    (Player.radius p' <=? Player.y p')%num = true /\
    (Player.y p' <=? Constants.MAP_HEIGHT - Player.radius p')%num = true.
Proof.
  intros Hw Hk Hp Hr Hpos Hhalf Hx Hy Hdx Hdy.
  exists (movePlayer p). split.
  { rewrite movement_lookup by apply (wf_nodup _ Hw).
    rewrite bool_decide_eq_true_2 by done. by rewrite Hp. }
  split; [done|].
  destruct (movePlayer_bounds p r) as (a & b & -> & Ha & Hb); try done.
  simpl. rewrite Hr. simpl.
  destruct (Rle_dec r a), (Rle_dec a (2000 + - r)),
    (Rle_dec r b), (Rle_dec b (2000 + - r)); try lra; done.
Qed.

(** *** The pellet pool *)

Lemma initPellets_aux (l : list nat) (w : World) :
  let w' :=
    foldl (fun w (_ : nat) =>
             let '(rx, w1) := random w in
             let '(ry, w2) := random w1 in
             set_pellets
               (pellets w2 ++ [Pellet.mk (rx * Constants.MAP_WIDTH)
                                         (ry * Constants.MAP_HEIGHT)]) w2)
          w l in
  length (pellets w') = (length (pellets w) + length l)%nat /\
  random_source w' = random_source w /\
  ((forall n, 0 <= random_source w n < 1) ->
   Forall on_map (pellets w) -> Forall on_map (pellets w')).
Proof.
  revert w. induction l as [|i l IH]; intros w; simpl.
  - split; [lia | done].
  - match goal with |- context [foldl _ ?w0 l] =>
      destruct (IH w0) as (IH1 & IH2 & IH3) end.
    simpl in IH1, IH2, IH3.
    rewrite IH1, IH2, length_app. simpl. split; [lia|]. split; [done|].
    intros Hrs Hf. apply IH3; [done|].
    apply Forall_app. split; [done|].
    apply Forall_singleton. apply on_map_random; apply Hrs.
Qed.

Lemma init_world_pellets (rs : nat -> R) :
  length (pellets (init_world rs)) = Constants.PELLET_COUNT /\
  random_source (init_world rs) = rs /\
  ((forall n, 0 <= rs n < 1) -> Forall on_map (pellets (init_world rs))).
Proof.
  unfold init_world, initPellets.
  match goal with |- context [foldl _ ?w0 ?l] =>
    destruct (initPellets_aux l w0) as (H1 & H2 & H3) end.
  cbv zeta in H1, H2, H3. rewrite H1, H2. simpl. split; [done|].
  split; [done|]. intros Hrs. by apply H3.
Qed.

Lemma tick_pellets (w : World) :
  length (pellets (tick w).1) = length (pellets w) /\
  random_source (tick w).1 = random_source w /\
  ((forall n, 0 <= random_source w n < 1) ->
   Forall on_map (pellets w) -> Forall on_map (pellets (tick w).1)).
Proof.
  destruct (before_collisions_frame w) as (_ & _ & _ & _ & El & Er & _).
  destruct (movement_frame w) as (_ & Ep & _ & _ & _ & _ & _ & Erm & _).
  pose proof (playerCollisions_frame (pelletCollisions (movement w)))
    as (_ & _ & _ & Er3 & Ep3).
  pose proof (pelletCollisions_on_map (movement w)) as Hon.
  unfold tick.
  destruct (playerCollisions (pelletCollisions (movement w))) as [w3 eaten].
  destruct (removeEaten_frame eaten w3) as (_ & _ & _ & _ & _ & Er4).
  simpl in *. rewrite pellets_removeEaten, Ep3, Er4, Er3.
  split; [done|]. split; [done|].
  intros Hrs Hf. apply Hon; by rewrite ?Erm, ?Ep.
Qed.

Lemma join_pellets (c : nat) (msg : gmap string jsval) (w w' : World)
    (m : InitMsg.t) :
  join c msg w = Some (w', m) ->
  pellets w' = pellets w /\ random_source w' = random_source w.
Proof.
  unfold join. destruct (nickname_of _) as [nick|]; [|done].
  simpl. by intros [= <- <-].
Qed.

Lemma input_frame (k : nat) (msg : gmap string jsval) (w : World) :
  heap_only w (input k msg w).
Proof.
  unfold input.
  destruct (msg !! "dx"%string) as [[| |dx| |]|]; try done.
  destruct (msg !! "dy"%string) as [[| |dy| |]|]; try done.
  by destruct (_ >? _)%num.
Qed.

Lemma onClose_pellets (c : nat) (w : World) :
  pellets (onClose c w) = pellets w /\
  random_source (onClose c w) = random_source w.
Proof.
  unfold onClose. destruct (sockets w !! c) as [k|]; [|done].
  by destruct (heap w !! k).
Qed.

Lemma step_pellets (e : event) (w w' : World) :
  step e w = Some w' ->
  length (pellets w') = length (pellets w) /\
  random_source w' = random_source w /\
  ((forall n, 0 <= random_source w n < 1) ->
   Forall on_map (pellets w) -> Forall on_map (pellets w')).
Proof.
  destruct e as [|c data|c|]; simpl.
  - by intros [= <-].
  - destruct data as [| | |msg]; simpl; try by intros [= <-].
    destruct (msg !! "type"%string) as [[| | |ty|]|]; simpl;
      try by intros [= <-].
    destruct (String.eqb ty "join").
    + destruct (join c msg w) as [[w1 m]|] eqn:E; simpl; [|done].
      intros [= <-]. apply join_pellets in E as [-> ->]. done.
    + destruct (String.eqb ty "input"); simpl; [|by intros [= <-]].
      destruct (sockets w !! c) as [k|]; simpl; [|by intros [= <-]].
      intros [= <-].
      destruct (input_frame k msg w) as (_ & -> & _ & _ & _ & _ & _ & -> & _).
      done.
  - intros [= <-]. destruct (onClose_pellets c w) as [-> ->]. done.
  - intros [= <-]. apply tick_pellets.
Qed.

Lemma reachable_pellets (rs : nat -> R) (w : World) :
  reachable rs w ->
  length (pellets w) = Constants.PELLET_COUNT /\
  random_source w = rs /\
  ((forall n, 0 <= rs n < 1) -> Forall on_map (pellets w)).
Proof.
  intros [es Hes]. revert Hes.
  generalize (init_world_pellets rs). generalize (init_world rs).
  induction es as [|e es IH]; intros w0 H0; simpl.
  - by intros [= <-].
  - destruct (step e w0) as [w1|] eqn:E; [|done].
    apply IH. destruct H0 as (H1 & H2 & H3).
    destruct (step_pellets _ _ _ E) as (S1 & S2 & S3).
    rewrite S1, S2. split; [done|]. split; [done|].
    intros Hrs. apply S3; [by rewrite H2 | by apply H3].
Qed.

Lemma relocations_app (rs : nat -> R) (n : nat) (ixs : list nat) (i : nat)
    (ps : list Pellet.t) :
  relocations rs n (ixs ++ [i]) ps =
    <[i := relocated rs (n + 2 * length ixs)]> (relocations rs n ixs ps).
Proof.
  revert n ps. induction ixs as [|j ixs IH]; intros n ps; simpl.
  - by rewrite Nat.add_0_r.
  - rewrite IH. do 2 f_equal. lia.
Qed.

Lemma length_relocations (rs : nat -> R) (n : nat) (ixs : list nat)
    (ps : list Pellet.t) :
  length (relocations rs n ixs ps) = length ps.
Proof.
  revert n ps. induction ixs as [|j ixs IH]; intros n ps; simpl; [done|].
  by rewrite IH, length_insert.
Qed.

Lemma pelletStep_eats (k : nat) (w : World) (i : nat) (player : Player.t)
    (q : Pellet.t) :
  heap w !! k = Some player -> pellets w !! i = Some q ->
  (Constants.dist (Player.x player) (Player.y player)
     (Pellet.x q) (Pellet.y q) <? Player.radius player)%num = true ->
  pellets (pelletStep k w i) =
    <[i := relocated (random_source w) (random_count w)]> (pellets w) /\
  random_count (pelletStep k w i) = S (S (random_count w)) /\
  heap (pelletStep k w i) = <[k := eatPellet player]> (heap w) /\
  players (pelletStep k w i) = players w /\
  random_source (pelletStep k w i) = random_source w.
Proof.
  intros Hp Hq Hd. unfold pelletStep. rewrite Hp, Hq, Hd. simpl.
  repeat split; try done.
  apply map_eq. intros j. destruct (decide (j = k)) as [->|Hne].
  - by rewrite lookup_alter_eq, lookup_insert_eq, Hp.
  - by rewrite lookup_alter_ne, lookup_insert_ne.
Qed.

Lemma pelletStep_misses (k : nat) (w : World) (i : nat) (player : Player.t)
    (q : Pellet.t) :
  heap w !! k = Some player -> pellets w !! i = Some q ->
  (Constants.dist (Player.x player) (Player.y player)
     (Pellet.x q) (Pellet.y q) <? Player.radius player)%num = false ->
  pelletStep k w i = w.
Proof. intros Hp Hq Hd. unfold pelletStep. by rewrite Hp, Hq, Hd. Qed.

Lemma pelletStep_cases (k : nat) (w : World) (i : nat) :
  pelletStep k w i = w \/
  (i < length (pellets w))%nat /\
  pellets (pelletStep k w i) =
    <[i := relocated (random_source w) (random_count w)]> (pellets w) /\
  random_count (pelletStep k w i) = S (S (random_count w)) /\
  random_source (pelletStep k w i) = random_source w.
Proof.
  destruct (heap w !! k) as [player|] eqn:Hp;
    [|left; unfold pelletStep; by rewrite Hp].
  destruct (pellets w !! i) as [q|] eqn:Hq;
    [|left; unfold pelletStep; by rewrite Hp, Hq].
  destruct (Constants.dist (Player.x player) (Player.y player)
              (Pellet.x q) (Pellet.y q) <? Player.radius player)%num eqn:Hd.
  - right. destruct (pelletStep_eats k w i player q Hp Hq Hd)
      as (H1 & H2 & _ & _ & H3).
    split; [by apply lookup_lt_Some in Hq | done].
  - left. by apply (pelletStep_misses k w i player q).
Qed.

Lemma pelletCollisions_relocations (w : World) :
  exists ixs,
    pellets (pelletCollisions w) =
      relocations (random_source w) (random_count w) ixs (pellets w) /\
    random_count (pelletCollisions w) = (random_count w + 2 * length ixs)%nat /\
    Forall (fun i => (i < length (pellets w))%nat) ixs.
Proof.
  pose (P := fun w' : World =>
    random_source w' = random_source w /\
    exists ixs,
      pellets w' =
        relocations (random_source w) (random_count w) ixs (pellets w) /\
      random_count w' = (random_count w + 2 * length ixs)%nat /\
      Forall (fun i => (i < length (pellets w))%nat) ixs).
  enough (P (pelletCollisions w)) as [_ H]; [done|].
  apply pelletCollisions_invariant; unfold P.
  - intros k w' i (Hrs & ixs & Hp & Hc & Hf).
    destruct (pelletStep_cases k w' i) as [-> | (Hi & E1 & E2 & E3)];
      [split; [done|]; by exists ixs|].
    split; [by rewrite E3|]. exists (ixs ++ [i]).
    rewrite E1, E2, relocations_app, Hrs, Hp, Hc, length_app.
    split; [done|]. split; [simpl; lia|].
    apply Forall_app. split; [done|]. apply Forall_singleton.
    by rewrite Hp, length_relocations in Hi.
  - split; [done|]. exists []. simpl. split; [done|]. split; [lia | done].
Qed.

Lemma tick_pellets_pass (w : World) :
  pellets (tick w).1 = pellets (pelletCollisions (movement w)).
Proof.
  pose proof (playerCollisions_frame (pelletCollisions (movement w)))
    as (_ & _ & _ & _ & Ep3).
  unfold tick.
  destruct (playerCollisions (pelletCollisions (movement w))) as [w3 eaten].
  simpl in *. by rewrite pellets_removeEaten.
Qed.


(** C6: in every state of a run the pool holds [PELLET_COUNT] pellets, a
    tick leaves as many as it found, and every pellet, relocated or not,
    lies on the map, given that [Math.random] returns values in [0, 1).
    The pool after a tick is the pool before it in which, one after the
    other, the pellets eaten have been replaced, each at its index, by a
    pellet at the position made of the next two numbers drawn; it is the
    pool that the loop over the players and the pellets leaves, which the
    collisions between players do not touch.  The body of that loop,
    [pelletStep], relocates what is consumed: when the pellet at [i] is
    within the radius of the player it puts such a pellet at [i] and
    leaves every other one alone, and otherwise it changes nothing. *)
Theorem pellet_pool_invariant (rs : nat -> R) (w : World) :
  (forall n, 0 <= rs n < 1) -> reachable rs w ->
  length (pellets w) = Constants.PELLET_COUNT /\
  length (pellets (tick w).1) = length (pellets w) /\
  Forall on_map (pellets w) /\
  Forall on_map (pellets (tick w).1) /\
  pellets (tick w).1 = pellets (pelletCollisions (movement w)) /\
  (exists ixs,
      pellets (tick w).1 = relocations rs (random_count w) ixs (pellets w) /\
      Forall (fun i => (i < Constants.PELLET_COUNT)%nat) ixs /\
      random_count (pelletCollisions (movement w)) =
        (random_count w + 2 * length ixs)%nat) /\
  (forall (v : World) (k i : nat) (player : Player.t) (q : Pellet.t),
      random_source v = rs ->
      heap v !! k = Some player -> pellets v !! i = Some q ->
      if (Constants.dist (Player.x player) (Player.y player)
            (Pellet.x q) (Pellet.y q) <? Player.radius player)%num
      then
        pellets (pelletStep k v i) =
          <[i := relocated rs (random_count v)]> (pellets v) /\
        random_count (pelletStep k v i) = S (S (random_count v)) /\
        on_map (relocated rs (random_count v))
      else pelletStep k v i = v).
Proof.
  intros Hrs Hw.
  destruct (reachable_pellets rs w Hw) as (H1 & H2 & H3).
  destruct (tick_pellets w) as (T1 & T2 & T3).
  split; [done|]. split; [done|]. split; [by apply H3|].
  split; [apply T3; [by rewrite H2 | by apply H3]|].
  split; [apply tick_pellets_pass|]. split.
  - destruct (movement_frame w) as (_ & Ep & _ & _ & _ & _ & _ & Erm & Ecm).
    destruct (pelletCollisions_relocations (movement w))
      as (ixs & E1 & E2 & E3).
    exists ixs. rewrite tick_pellets_pass, E1, E2, Erm, Ecm, Ep, H2.
    split; [done|]. split; [|done]. by rewrite Ep, H1 in E3.
  - intros v k i player q Ev Hp Hq.
    destruct (Constants.dist (Player.x player) (Player.y player)
                (Pellet.x q) (Pellet.y q) <? Player.radius player)%num eqn:Hd.
    + destruct (pelletStep_eats k v i player q Hp Hq Hd) as (E1 & E2 & _).
      rewrite <- Ev. split; [done|]. split; [done|].
      apply on_map_random; rewrite Ev; apply Hrs.
    + by apply (pelletStep_misses k v i player q).
Qed.

(** *** Growth by consumption *)








(** *** Fields of a message that the handler reads *)

Lemma join_reads_name (c : nat) (m1 m2 : gmap string jsval) (w : World) :
  m1 !! "name"%string = m2 !! "name"%string -> join c m1 w = join c m2 w.
Proof. intros E. unfold join. by rewrite E. Qed.

Lemma input_reads_dx_dy (k : nat) (m1 m2 : gmap string jsval) (w : World) :
  m1 !! "dx"%string = m2 !! "dx"%string ->
  m1 !! "dy"%string = m2 !! "dy"%string ->
  input k m1 w = input k m2 w.
Proof. intros E1 E2. unfold input. by rewrite E1, E2. Qed.

Lemma onMessage_reads (c : nat) (m1 m2 : gmap string jsval) (w : World) :
  m1 !! "type"%string = m2 !! "type"%string ->
  m1 !! "name"%string = m2 !! "name"%string ->
  m1 !! "dx"%string = m2 !! "dx"%string ->
  m1 !! "dy"%string = m2 !! "dy"%string ->
  onMessage c (PObject m1) w = onMessage c (PObject m2) w.
Proof.
  intros Et En Ex Ey. unfold onMessage.
  rewrite Et, (join_reads_name c m1 m2) by done.
  destruct (m2 !! "type"%string) as [[| | |ty|]|]; try done.
  destruct (String.eqb ty "join"); [done|].
  destruct (String.eqb ty "input"); [|done].
  destruct (sockets w !! c); [|done].
  by rewrite (input_reads_dx_dy _ m1 m2).
Qed.

Lemma onMessage_same (c : nat) (d1 d2 : payload) (w : World) :
  same_but_client_fields d1 d2 -> onMessage c d1 w = onMessage c d2 w.
Proof.
  destruct d1 as [| | |m1], d2 as [| | |m2]; simpl; try done.
  intros H. apply onMessage_reads; apply H; unfold client_fields;
    by apply (bool_decide_eq_false_1 _).
Qed.

Lemma step_same (e1 e2 : event) (w : World) :
  same_intent e1 e2 -> step e1 w = step e2 w.
Proof.
  destruct 1 as [c d1 d2 H|e]; [|done]. simpl. by rewrite (onMessage_same c d1 d2).
Qed.

(** C8: a message handled with other [x], [y], [radius] or [score] fields
    gives the same state and the same reply, and so do two runs whose
    messages differ in those fields only; the input branch reads [dx] and
    [dy] and nothing else of the message. *)
Theorem client_fields_have_no_effect
    (c : nat) (d1 d2 : payload) (es1 es2 : list event) (w : World) :
  same_but_client_fields d1 d2 -> Forall2 same_intent es1 es2 ->
  onMessage c d1 w = onMessage c d2 w /\
  run es1 w = run es2 w /\
  (forall k m1 m2,
      m1 !! "dx"%string = m2 !! "dx"%string ->
      m1 !! "dy"%string = m2 !! "dy"%string ->
      input k m1 w = input k m2 w).
Proof.
  intros Hd Hes. split; [by apply onMessage_same|].
  split; [|intros; by apply input_reads_dx_dy].
  revert w. induction Hes as [|e1 e2 es1 es2 He Hes IH]; intros w; simpl; [done|].
  rewrite (step_same e1 e2) by done.
  destruct (step e2 w); [apply IH | done].
Qed.

(** *** Well-formedness along a run *)

Lemma wf_Map_delete (k : nat) (w : World) :
  wf w -> wf (set_players (Map_delete k (players w)) w).
Proof.
  intros [H1 H2 H3 H4]. split; simpl; try done.
  - intros j Hj. apply elem_of_Map_delete in Hj as [_ Hj]. by apply H2.
  - unfold Map_delete. by apply NoDup_filter.
Qed.

Lemma wf_removeEaten (eaten : list nat) (w : World) :
  wf w -> wf (removeEaten eaten w).
Proof.
  intros Hw. unfold removeEaten. apply (foldl_invariant wf); [done|].
  intros a x _ Ha. by apply wf_Map_delete.
Qed.

Lemma wf_tick (w : World) : wf w -> wf (tick w).1.
Proof.
  intros Hw.
  pose proof (wf_playerCollisions _ (wf_pelletCollisions _ (wf_movement _ Hw)))
    as [Hw3 _].
  unfold tick.
  destruct (playerCollisions (pelletCollisions (movement w))) as [w3 eaten].
  simpl in *. by apply wf_removeEaten.
Qed.

Lemma wf_log (l : logline) (w : World) : wf w -> wf (log l w).
Proof. intros [H1 H2 H3 H4]. by split. Qed.

Lemma wf_set_sockets (s : gmap nat nat) (w : World) :
  wf w -> wf (set_sockets s w).
Proof. intros [H1 H2 H3 H4]. by split. Qed.

Lemma wf_onClose (c : nat) (w : World) : wf w -> wf (onClose c w).
Proof.
  intros Hw. unfold onClose. destruct (sockets w !! c) as [k|]; [|done].
  apply wf_set_sockets. destruct (heap w !! k) as [p|]; [|done].
  apply (wf_Map_delete _ (log _ w)). by apply wf_log.
Qed.

Lemma wf_input (k : nat) (msg : gmap string jsval) (w : World) :
  wf w -> wf (input k msg w).
Proof.
  intros Hw. unfold input.
  destruct (msg !! "dx"%string) as [[| |dx| |]|]; try done.
  destruct (msg !! "dy"%string) as [[| |dy| |]|]; try done.
  destruct (_ >? _)%num; by apply wf_update.
Qed.

Lemma nickname_of_well_formed (v : option jsval) :
  v = None \/ (exists s, v = Some (JStr s)) -> is_Some (nickname_of v).
Proof.
  intros [-> | [s ->]]; unfold nickname_of; simpl; [done|].
  by destruct (negb _).
Qed.

(** What a join does to a well-formed state. *)
Lemma join_spec (c : nat) (msg : gmap string jsval) (w : World) (nick : string) :
  nickname_of (msg !! "name"%string) = Some nick -> wf w ->
  exists w' m p,
    join c msg w = Some (w', m) /\
    players w' = players w ++ [nextPlayerId w] /\
    heap w' = <[nextPlayerId w := p]> (heap w) /\
    Player.id p = nextPlayerId w /\ Player.name p = nick /\
    Player.radius p = Constants.INITIAL_RADIUS /\
    nextPlayerId w' = S (nextPlayerId w) /\
    sockets w' !! c = Some (nextPlayerId w) /\
    InitMsg.id m = nextPlayerId w /\
    wf w'.
Proof.
  intros Hn Hw. unfold join. rewrite Hn. simpl.
  assert (nextPlayerId w ∉ players w) as Hfresh.
  { intros Hin. apply (wf_live _ Hw), (wf_fresh _ Hw) in Hin. lia. }
  rewrite Map_set_fresh by done.
  eexists _, _, _. split; [done|]. simpl.
  split; [done|]. split; [done|]. split; [done|]. split; [done|].
  split; [done|]. split; [done|]. split; [by rewrite lookup_insert_eq|].
  split; [done|].
  destruct Hw as [H1 H2 H3 H4]. split; simpl.
  - unfold ids_ok. simpl. intros k p. rewrite lookup_insert_Some.
    intros [[<- <-]|[_ Hk]]; [done | by apply H1].
  - intros k Hk. rewrite lookup_insert_is_Some.
    apply elem_of_app in Hk as [Hk|Hk]; [right|left].
    + split; [|by apply H2]. intros <-. done.
    + by apply list_elem_of_singleton in Hk.
  - apply NoDup_app. split; [done|]. split; [|apply NoDup_singleton].
    intros x Hx Hx'. apply list_elem_of_singleton in Hx' as ->. done.
  - intros k. rewrite lookup_insert_is_Some.
    intros [<-|[_ Hk]]; [lia|]. apply H4 in Hk. lia.
Qed.

Lemma wf_step (e : event) (w w' : World) : step e w = Some w' -> wf w -> wf w'.
Proof.
  destruct e as [|c data|c|]; simpl.
  - intros [= <-] [H1 H2 H3 H4]. by split.
  - destruct data as [| | |msg]; simpl; try by intros [= <-].
    + intros [= <-]. apply wf_log.
    + destruct (msg !! "type"%string) as [[| | |ty|]|]; simpl;
        try by intros [= <-].
      destruct (String.eqb ty "join").
      * destruct (nickname_of (msg !! "name"%string)) as [nick|] eqn:En.
        -- intros E Hw.
           destruct (join_spec c msg w nick En Hw)
             as (w1 & m & p & Ej & _ & _ & _ & _ & _ & _ & _ & _ & Hw1).
           rewrite Ej in E. simpl in E. by injection E as <-.
        -- unfold join. by rewrite En.
      * destruct (String.eqb ty "input"); simpl; [|by intros [= <-]].
        destruct (sockets w !! c) as [k|]; simpl; [|by intros [= <-]].
        intros [= <-]. apply wf_input.
  - intros [= <-]. apply wf_onClose.
  - intros [= <-]. apply wf_tick.
Qed.

Lemma wf_init_world (rs : nat -> R) :
  wf (init_world rs) /\ players (init_world rs) = [] /\
  nextPlayerId (init_world rs) = 1%nat.
Proof.
  unfold init_world, initPellets.
  apply (foldl_invariant (fun w =>
           wf w /\ players w = [] /\ nextPlayerId w = 1%nat)).
  - split; [|done]. split; simpl; try done.
    + intros k Hk. by apply elem_of_nil in Hk.
    + apply NoDup_nil_2.
    + intros k [p Hk]. by rewrite lookup_empty in Hk.
  - intros w i _ (Hw & Hp & Hn). simpl. split; [|done].
    destruct Hw as [H1 H2 H3 H4]. by split.
Qed.

Lemma run_wf (es : list event) (w w' : World) :
  run es w = Some w' -> wf w -> wf w'.
Proof.
  revert w. induction es as [|e es IH]; intros w; simpl.
  - by intros [= <-].
  - destruct (step e w) as [w1|] eqn:E; [|done].
    intros Hr Hw. apply (IH w1); [done|]. by apply (wf_step e w).
Qed.

Lemma reachable_wf (rs : nat -> R) (w : World) : reachable rs w -> wf w.
Proof.
  intros [es Hes]. apply (run_wf es _ _ Hes). apply wf_init_world.
Qed.

Lemma run_app (es1 es2 : list event) (w w1 : World) :
  run es1 w = Some w1 -> run (es1 ++ es2) w = run es2 w1.
Proof.
  revert w. induction es1 as [|e es1 IH]; intros w; simpl.
  - by intros [= <-].
  - destruct (step e w) as [w'|]; [apply IH | done].
Qed.

Lemma reachable_step (rs : nat -> R) (e : event) (w w' : World) :
  reachable rs w -> step e w = Some w' -> reachable rs w'.
Proof.
  intros [es Hes] He. exists (es ++ [e]).
  rewrite (run_app _ _ _ _ Hes). simpl. by rewrite He.
Qed.

(** *** The heading stored for an input *)

Lemma hypot_pos (a b : R) : a <> 0 \/ b <> 0 -> 0 < sqrt (a * a + b * b).
Proof. intros H. apply sqrt_lt_R0. nra. Qed.

Lemma unit_length (a b : R) :
  a <> 0 \/ b <> 0 ->
  let mag := sqrt (a * a + b * b) in
  (a / mag) * (a / mag) + (b / mag) * (b / mag) = 1.
Proof.
  intros H mag. pose proof (hypot_pos a b H) as Hm. fold mag in Hm.
  assert (mag * mag = a * a + b * b) as E by (apply sqrt_sqrt; nra).
  field_simplify_eq; [|lra]. nra.
Qed.

Lemma input_finite (k : nat) (msg : gmap string jsval) (w : World) (a b : R) :
  msg !! "dx"%string = Some (JNum (Fin a)) ->
  msg !! "dy"%string = Some (JNum (Fin b)) ->
  a <> 0 \/ b <> 0 ->
  input k msg w =
    update k (Player.set_dir (Fin (a / sqrt (a * a + b * b)))
                             (Fin (b / sqrt (a * a + b * b)))) w.
Proof.
  intros Ex Ey H. unfold input. rewrite Ex, Ey.
  pose proof (hypot_pos a b H) as Hm.
  unfold num_gtb. simpl Math.hypot. rewrite ltb_Fin_true by done.
  rewrite !div_Fin by lra. done.
Qed.

Lemma input_zero (k : nat) (msg : gmap string jsval) (w : World) :
  msg !! "dx"%string = Some (JNum (Fin 0)) ->
  msg !! "dy"%string = Some (JNum (Fin 0)) ->
  input k msg w = update k (Player.set_dir (Fin 0) (Fin 0)) w.
Proof.
  intros Ex Ey. unfold input. rewrite Ex, Ey.
  unfold num_gtb. simpl Math.hypot. rewrite ltb_Fin_false; [done|].
  replace (0 * 0 + 0 * 0) with 0 by lra. rewrite sqrt_0. lra.
Qed.

Lemma input_not_finite (k : nat) (msg : gmap string jsval) (w : World)
    (dx dy : num) :
  msg !! "dx"%string = Some (JNum dx) ->
  msg !! "dy"%string = Some (JNum dy) ->
  isFinite dx && isFinite dy = false ->
  input k msg w =
    if is_infinite dx || is_infinite dy
    then update k (Player.set_dir (if isFinite dx then Fin 0 else NaN)
                                  (if isFinite dy then Fin 0 else NaN)) w
    else update k (Player.set_dir (Fin 0) (Fin 0)) w.
Proof.
  intros Ex Ey H. unfold input. rewrite Ex, Ey.
  destruct dx, dy; simpl in H |- *; done.
Qed.

Lemma onMessage_input (c k : nat) (msg : gmap string jsval) (w : World) :
  sockets w !! c = Some k ->
  msg !! "type"%string = Some (JStr "input") ->
  onMessage c (PObject msg) w = Some (input k msg w, None).
Proof.
  intros Hc Ht. unfold onMessage. rewrite Ht. simpl. by rewrite Hc.
Qed.

(** *** Joining *)

Lemma joins_reach_any_count (rs : nat -> R) (n : nat) :
  exists w, reachable rs w /\ length (players w) = n.
Proof.
  induction n as [|n [w [Hw Hn]]].
  - exists (init_world rs). split; [by exists []|].
    destruct (wf_init_world rs) as (_ & -> & _). done.
  - pose (msg := ({[ "type"%string := JStr "join" ]} : gmap string jsval)).
    destruct (join_spec 0 msg w "Player")
      as (w' & m & p & Ej & Ep & _); [done | by eapply reachable_wf |].
    exists w'. split.
    + apply (reachable_step rs (Message 0 (PObject msg)) w); [done|].
      simpl. unfold msg. rewrite lookup_singleton_eq. simpl.
      fold msg. by rewrite Ej.
    + rewrite Ep, length_app, Hn. simpl. lia.
Qed.

(** C10: in any state of a run, a join whose name is absent or a string is
    answered by a new object, added to the Map under a new id, however many
    players the Map holds; [MAX_PLAYERS] is read nowhere, and runs reach
    every number of players, those above it included. *)
Theorem join_always_adds_a_player
    (rs : nat -> R) (c : nat) (msg : gmap string jsval) (w : World) :
  reachable rs w ->
  msg !! "type"%string = Some (JStr "join") ->
  msg !! "name"%string = None \/ (exists s, msg !! "name"%string = Some (JStr s)) ->
  (exists w' m p,
      onMessage c (PObject msg) w = Some (w', Some m) /\
      players w' = players w ++ [nextPlayerId w] /\
      heap w' !! nextPlayerId w = Some p /\
      Player.id p = nextPlayerId w /\
      InitMsg.id m = nextPlayerId w /\
      length (players w') = S (length (players w))) /\
  (forall n, exists w', reachable rs w' /\ length (players w') = n) /\
  (exists w', reachable rs w' /\
              (length (players w') > Constants.MAX_PLAYERS)%nat).
Proof.
  intros Hw Ht Hn. split; [|split].
  - destruct (nickname_of_well_formed _ Hn) as [nick Enick].
    destruct (join_spec c msg w nick Enick (reachable_wf _ _ Hw))
      as (w' & m & p & Ej & Ep & Eh & Eid & _ & _ & _ & _ & Em & _).
    exists w', m, p. unfold onMessage. rewrite Ht. simpl. rewrite Ej.
    split; [done|]. split; [done|]. split; [by rewrite Eh, lookup_insert_eq|].
    split; [done|]. split; [done|]. rewrite Ep, length_app. simpl. lia.
  - apply joins_reach_any_count.
  - destruct (joins_reach_any_count rs (S Constants.MAX_PLAYERS)) as [w' [H1 H2]].
    exists w'. split; [done|]. rewrite H2. lia.
Qed.

(** *** Passes that change nothing *)

Lemma foldl_fixed {A B : Type} (f : A -> B -> A) (a : A) (l : list B) :
  (forall x, x ∈ l -> f a x = a) -> foldl f a l = a.
Proof.
  induction l as [|x l IH]; intros H; simpl; [done|].
  rewrite H by left. apply IH. intros y Hy. apply H. by right.
Qed.

Lemma update_fixed (k : nat) (f : Player.t -> Player.t) (w : World) :
  (forall p, heap w !! k = Some p -> f p = p) -> update k f w = w.
Proof.
  intros H. unfold update. rewrite alter_id by done. by destruct w.
Qed.

Lemma movement_idle (w : World) :
  (forall k p, k ∈ players w -> heap w !! k = Some p -> movePlayer p = p) ->
  movement w = w.
Proof.
  intros H. unfold movement. apply foldl_fixed.
  intros k Hk. apply update_fixed. intros p. by apply H.
Qed.

Lemma clamp_inside (v r W : R) :
  r <= v <= W - r ->
  (let x := Fin v in
   let x := if (x <? Fin r)%num then Fin r else x in
   if (x >? Fin W - Fin r)%num then (Fin W - Fin r)%num else x) = Fin v.
Proof.
  intros H. cbv zeta. rewrite ltb_Fin_false by lra.
  unfold num_gtb. simpl num_sub. rewrite ltb_Fin_false by lra. done.
Qed.

Lemma speed_of_newcomer : Rmax 2 (50 / 10) = 5.
Proof. unfold Rmax. destruct (Rle_dec 2 (50 / 10)); lra. Qed.

Lemma movePlayer_idle (p : Player.t) (r a b : R) :
  Player.radius p = Fin r -> 0 < r ->
  Player.dirX p = Fin 0 -> Player.dirY p = Fin 0 ->
  Player.x p = Fin a -> Player.y p = Fin b ->
  r <= a <= 2000 - r -> r <= b <= 2000 - r ->
  movePlayer p = p.
Proof.
  intros Hr Hr0 Hdx Hdy Hx Hy Ha Hb.
  unfold movePlayer. cbv zeta.
  rewrite Hr, speed_finite, Hdx, Hdy, Hx, Hy by lra.
  simpl num_mul. simpl num_add.
  unfold Constants.MAP_WIDTH, Constants.MAP_HEIGHT.
  pose proof (clamp_inside (a + 0 * Rmax 2 (50 / r)) r 2000) as Ea.
  pose proof (clamp_inside (b + 0 * Rmax 2 (50 / r)) r 2000) as Eb.
  cbv zeta in Ea, Eb. rewrite Ea, Eb by lra.
  destruct p. simpl in *. subst. unfold Player.set_pos. simpl.
  f_equal; f_equal; lra.
Qed.

Lemma movePlayer_x_NaN (p : Player.t) :
  Player.dirX p = NaN -> Player.x (movePlayer p) = NaN.
Proof.
  intros H. unfold movePlayer. cbv zeta. cbn [Player.x Player.set_pos].
  rewrite H. cbn [num_mul]. rewrite add_NaN_r, ltb_NaN_l.
  unfold num_gtb. rewrite ltb_NaN_r. reflexivity.
Qed.

Lemma movePlayer_y_finite (p : Player.t) (r b d : R) :
  Player.radius p = Fin r -> 0 < r ->
  Player.y p = Fin b -> Player.dirY p = Fin d ->
  r <= b + d * Rmax 2 (50 / r) <= 2000 - r ->
  Player.y (movePlayer p) = Fin (b + d * Rmax 2 (50 / r)).
Proof.
  intros Hr Hr0 Hy Hd Hb. unfold movePlayer. cbv zeta.
  cbn [Player.y Player.set_pos].
  rewrite Hr, speed_finite, Hy, Hd by lra. cbn [num_mul num_add].
  unfold Constants.MAP_HEIGHT.
  pose proof (clamp_inside (b + d * Rmax 2 (50 / r)) r 2000) as E.
  cbv zeta in E. apply E. lra.
Qed.

Lemma pelletCollisions_miss (w : World) :
  (forall k p q,
      k ∈ players w -> heap w !! k = Some p -> q ∈ pellets w ->
      (Constants.dist (Player.x p) (Player.y p) (Pellet.x q) (Pellet.y q)
         <? Player.radius p)%num = false) ->
  pelletCollisions w = w.
Proof.
  intros H. unfold pelletCollisions. apply foldl_fixed.
  intros k Hk. apply foldl_fixed. intros i _.
  unfold pelletStep.
  destruct (heap w !! k) as [p|] eqn:Ep; [|done].
  destruct (pellets w !! i) as [q|] eqn:Eq; [|done].
  rewrite (H k p q); try done. by eapply list_elem_of_lookup_2.
Qed.

(** *** Steps of the player-vs-player pass *)

Lemma collideStep_self (a : nat) (st : World * list nat) :
  collideStep a st a = st.
Proof.
  destruct st as [w eaten]. unfold collideStep.
  by rewrite bool_decide_eq_true_2.
Qed.

Lemma collideStep_smaller (a b : nat) (w : World) (eaten : list nat)
    (A B : Player.t) :
  heap w !! a = Some A -> heap w !! b = Some B ->
  (Player.radius A <? Player.radius B)%num = true ->
  collideStep a (w, eaten) b = (w, eaten).
Proof.
  intros HA HB H. unfold collideStep. rewrite HA, HB, H.
  by destruct (bool_decide (a = b)).
Qed.

Lemma collideStep_eat (a b : nat) (w : World) (eaten : list nat)
    (A B : Player.t) :
  a <> b -> heap w !! a = Some A -> heap w !! b = Some B ->
  (Player.radius A <? Player.radius B)%num = false ->
  (Constants.dist (Player.x A) (Player.y A) (Player.x B) (Player.y B)
     <? Player.radius A * Fin (9 / 10))%num = true ->
  Player.id B ∉ eaten ->
  collideStep a (w, eaten) b =
    (handlePlayerDeath b (update a (eatPlayer B) w), eaten ++ [Player.id B]).
Proof.
  intros Hab HA HB Hr Hd He. unfold collideStep.
  rewrite bool_decide_eq_false_2 by done.
  rewrite HA, HB, Hr, Hd. by rewrite bool_decide_eq_false_2.
Qed.

(** The state after [playerA] at [a] has eaten [playerB] at [b]. *)
Lemma after_eat (a b : nat) (w : World) (A B : Player.t) :
  a <> b -> heap w !! a = Some A -> heap w !! b = Some B ->
  Player.id B = b -> b ∈ players w ->
  let w' := handlePlayerDeath b (update a (eatPlayer B) w) in
  heap w' !! a = Some (eatPlayer B A) /\
  heap w' !! b =
    Some (Player.respawn (getRandomSpawn w).1.1 (getRandomSpawn w).1.2 B) /\
  (forall k, k <> a -> k <> b -> heap w' !! k = heap w !! k) /\
  players w' = players w.
Proof.
  intros Hab HA HB Hid Hb.
  assert (heap (update a (eatPlayer B) w) !! b = Some B) as HB'.
  { simpl. by rewrite lookup_alter_ne. }
  destruct (handlePlayerDeath_spec b _ B HB') as (Hh & Hp & _).
  cbv zeta. rewrite Hh, Hp, Hid. simpl.
  split; [by rewrite lookup_alter_ne, lookup_alter_eq, HA|].
  split; [by rewrite lookup_alter_eq, lookup_alter_ne, HB|].
  split; [|by apply Map_set_elem].
  intros k Hka Hkb. by rewrite !lookup_alter_ne.
Qed.

Lemma collideStep_grows (a : nat) (st : World * list nat) (b k : nat) :
  k ∈ st.2 -> k ∈ (collideStep a st b).2.
Proof.
  intros Hk.
  destruct (collideStep_cases a st b)
    as [->|(A & B & _ & _ & _ & _ & _ & _ & ->)]; [done|].
  simpl. apply elem_of_app. by left.
Qed.

Lemma inner_loop_grows (a : nat) (l : list nat) (st : World * list nat)
    (k : nat) :
  k ∈ st.2 -> k ∈ (foldl (collideStep a) st l).2.
Proof.
  intros Hk. apply (foldl_invariant (fun st => k ∈ st.2)); [done|].
  intros st' b _ Hst'. by apply collideStep_grows.
Qed.

(** Two players alone in the Map, of one radius, close enough: the first
    key eats the second, and that is all. *)
Lemma two_equal_players (w : World) (a b : nat) (A B : Player.t) (r : R) :
  players w = [a; b] -> a <> b ->
  heap w !! a = Some A -> heap w !! b = Some B -> Player.id B = b ->
  Player.radius A = Fin r -> Player.radius B = Fin r -> 10 <= r ->
  (Constants.dist (Player.x A) (Player.y A) (Player.x B) (Player.y B)
     <? Player.radius A * Fin (9 / 10))%num = true ->
  (playerCollisions w).2 = [b].
Proof.
  intros Hpl Hab HA HB Hid HrA HrB Hr Hd.
  unfold playerCollisions. rewrite Hpl. cbn [foldl fst]. rewrite Hpl.
  cbn [foldl]. rewrite collideStep_self.
  rewrite (collideStep_eat a b w [] A B); try done; cycle 1.
  { rewrite HrA, HrB. apply ltb_Fin_false. lra. }
  { apply not_elem_of_nil. }
  destruct (after_eat a b w A B) as (HA' & HB' & _ & Hpl'); try done.
  { rewrite Hpl. right. left. }
  cbv zeta in HA', HB', Hpl'. cbn [fst]. rewrite Hpl', Hpl. cbn [foldl].
  rewrite (collideStep_smaller b a _ _ _ _ HB' HA'); cycle 1.
  { unfold eatPlayer, Player.set_area, Player.respawn.
    cbn [Player.radius]. rewrite HrA, HrB. cbn [num_mul num_add].
    rewrite sqrt_Fin by nra. unfold Constants.INITIAL_RADIUS.
    apply ltb_Fin_true. apply lt_sqrt; nra. }
  rewrite collideStep_self. simpl. by rewrite Hid.
Qed.

(** *** A player alone with a pellet *)

Lemma foldl_step {A B : Type} (f : A -> B -> A) (a : A) (x : B) (l : list B) :
  foldl f a (x :: l) = foldl f (f a x) l.
Proof. reflexivity. Qed.

(** A tick of a state with a single player that stands still on the first
    pellet, out of reach of the others once it has eaten. *)
Lemma lone_tick (w : World) (p : Player.t) (q0 : Pellet.t) (n : nat) :
  players w = [1%nat] -> heap w = {[1%nat := p]} -> movePlayer p = p ->
  length (pellets w) = S n ->
  pellets w !! 0%nat = Some q0 ->
  (Constants.dist (Player.x p) (Player.y p) (Pellet.x q0) (Pellet.y q0)
     <? Player.radius p)%num = true ->
  (forall i q, (0 < i)%nat -> pellets w !! i = Some q ->
     (Constants.dist (Player.x (eatPellet p)) (Player.y (eatPellet p))
        (Pellet.x q) (Pellet.y q) <? Player.radius (eatPellet p))%num = false) ->
  (tick w).1 = pelletStep 1 w 0 /\
  heap (pelletStep 1 w 0) = {[1%nat := eatPellet p]} /\
  eatenInTick w = [].
Proof.
  intros Hpl Hh Hm Hlen Hq Hd Hfar.
  assert (heap w !! 1%nat = Some p) as Hp.
  { rewrite Hh. apply lookup_singleton_eq. }
  assert (movement w = w) as Em.
  { apply movement_idle. intros k p' _. rewrite Hh.
    by intros [_ <-]%lookup_singleton_Some. }
  destruct (pelletStep_eats 1 w 0 p q0 Hp Hq Hd) as (E1 & E2 & E3 & E4 & E5).
  assert (pelletCollisions w = pelletStep 1 w 0) as Ep.
  { unfold pelletCollisions. rewrite Hpl. cbn [foldl]. rewrite Hlen.
    cbn [seq]. rewrite foldl_step.
    apply foldl_fixed. intros i Hi. apply elem_of_seq in Hi.
    destruct (lookup_lt_is_Some_2 (pellets w) i ltac:(lia)) as [q Hqi].
    apply (pelletStep_misses 1 _ i (eatPellet p) q).
    - rewrite E3, Hh. apply lookup_insert_eq.
    - by rewrite E1, list_lookup_insert_ne by lia.
    - apply (Hfar i); [lia | done]. }
  assert (playerCollisions (pelletStep 1 w 0) = (pelletStep 1 w 0, [])) as Ec.
  { unfold playerCollisions. rewrite E4, Hpl. cbn [foldl fst].
    rewrite E4, Hpl. cbn [foldl]. apply collideStep_self. }
  split; [|split].
  - unfold tick. rewrite Em, Ep, Ec. reflexivity.
  - rewrite E3, Hh. apply insert_singleton_eq.
  - unfold eatenInTick. rewrite Em, Ep, Ec. reflexivity.
Qed.

(** *** An input with an infinite component *)

Lemma movePlayer_y_NaN (p : Player.t) :
  Player.dirY p = NaN -> Player.y (movePlayer p) = NaN.
Proof.
  intros H. unfold movePlayer. cbv zeta. cbn [Player.y Player.set_pos].
  rewrite H. cbn [num_mul]. rewrite add_NaN_r, ltb_NaN_l.
  unfold num_gtb. rewrite ltb_NaN_r. reflexivity.
Qed.

(** C2 fails on the code.  The handler tests that [dx] and [dy] are of
    type number and nothing else: an input one of whose components is not a
    number is dropped and leaves the state as it is, but an input with a
    component that is +Infinity or -Infinity (the JSON text 1e999 parses to
    +Infinity) is not.  Its length is +Infinity, and the divisions store NaN
    for every component that is not finite and 0 for every finite one: the
    player's heading is then neither the one it had, nor of length 1, nor
    the zero vector, and the next movement pass leaves the player with a NaN
    coordinate. *)
Theorem input_with_an_infinite_component_is_stored
    (c k : nat) (p : Player.t) (msg : gmap string jsval) (w : World)
    (dx dy : num) :
  sockets w !! c = Some k -> heap w !! k = Some p ->
  msg !! "type"%string = Some (JStr "input") ->
  msg !! "dx"%string = Some (JNum dx) -> msg !! "dy"%string = Some (JNum dy) ->
  is_infinite dx || is_infinite dy = true ->
  let p' := Player.set_dir (if isFinite dx then Fin 0 else NaN)
                           (if isFinite dy then Fin 0 else NaN) p in
  onMessage c (PObject msg) w =
    Some (update k (Player.set_dir (if isFinite dx then Fin 0 else NaN)
                                   (if isFinite dy then Fin 0 else NaN)) w,
          None) /\
  heap (update k (Player.set_dir (if isFinite dx then Fin 0 else NaN)
                                 (if isFinite dy then Fin 0 else NaN)) w)
    !! k = Some p' /\
  (Player.dirX p' = NaN \/ Player.dirY p' = NaN) /\
  lost (movePlayer p') /\
  (forall msg' : gmap string jsval,
      msg' !! "type"%string = Some (JStr "input") ->
      (forall n, msg' !! "dx"%string <> Some (JNum n)) \/
      (forall n, msg' !! "dy"%string <> Some (JNum n)) ->
      onMessage c (PObject msg') w = Some (w, None)).
Proof.
  intros Hc Hp Ht Ex Ey Hinf p'.
  assert (Player.dirX p' = NaN \/ Player.dirY p' = NaN) as Hnan.
  { unfold p'. cbn [Player.set_dir Player.dirX Player.dirY].
    destruct dx, dy; simpl in Hinf |- *; auto; done. }
  split; [|split; [|split; [done|split]]].
  - rewrite (onMessage_input c k msg w Hc Ht).
    rewrite (input_not_finite k msg w dx dy Ex Ey), Hinf; [done|].
    by destruct dx, dy.
  - unfold update. cbn [heap set_heap]. by rewrite lookup_alter_eq, Hp.
  - destruct Hnan as [H|H]; [left; by apply movePlayer_x_NaN|].
    right. by apply movePlayer_y_NaN.
  - intros msg' Ht' H. rewrite (onMessage_input c k msg' w Hc Ht').
    unfold input. destruct H as [H|H].
    + destruct (msg' !! "dx"%string) as [[| |n| |]|]; try done.
      by destruct (H n).
    + destruct (msg' !! "dx"%string) as [[| |n| |]|]; try done.
      destruct (msg' !! "dy"%string) as [[| |n'| |]|]; try done.
      by destruct (H n').
Qed.

(** *** Eliminations of one tick *)

Lemma tick_deaths (w : World) :
  exists ds : list death,
    NoDup (eatenInTick w) /\
    (fun d : death => d.1.2) <$> ds = eatenInTick w /\
    console (tick w).1 = console w ++ (death_line <$> ds) /\
    ledger (tick w).1 =
      ledger w ++ (if highscoreCollection w then death_request <$> ds else []).
Proof.
  destruct (before_collisions_frame w) as (Ec & El & Eh & _).
  destruct (playerCollisions_deaths (pelletCollisions (movement w)))
    as (Hnd & ds & Hc & Hl & He).
  exists ds. unfold eatenInTick, tick.
  destruct (playerCollisions (pelletCollisions (movement w))) as [w3 eaten].
  destruct (removeEaten_frame eaten w3) as (Rc & Rl & _).
  simpl in *. rewrite Rc, Rl, Hc, Hl, Eh, Ec, El. done.
Qed.

(** C4, as the code has it.  In every tick no id is pushed to
    [eatenPlayers] twice, and each id pushed comes with one line of the
    console and, when the collection is there, one request to it.  When
    the Map holds two players only, of one radius (the initial radius at
    least) and within the overlap distance of each other when the
    player-vs-player pass starts, the pass eliminates the second key and
    nobody else. *)
Theorem at_most_one_elimination_per_victim (w : World) :
  (exists ds : list death,
      NoDup (eatenInTick w) /\
      (fun d : death => d.1.2) <$> ds = eatenInTick w /\
      console (tick w).1 = console w ++ (death_line <$> ds) /\
      ledger (tick w).1 =
        ledger w ++
          (if highscoreCollection w then death_request <$> ds else [])) /\
  (forall (a b : nat) (A B : Player.t) (r : R),
      wf w ->
      let w2 := pelletCollisions (movement w) in
      players w2 = [a; b] -> a <> b ->
      heap w2 !! a = Some A -> heap w2 !! b = Some B ->
      Player.radius A = Fin r -> Player.radius B = Fin r -> 10 <= r ->
      (Constants.dist (Player.x A) (Player.y A) (Player.x B) (Player.y B)
         <? Player.radius A * Fin (9 / 10))%num = true ->
      eatenInTick w = [b]).
Proof.
  split; [apply tick_deaths|].
  intros a b A B r Hw w2 Hpl Hab HA HB HrA HrB Hr Hd.
  unfold eatenInTick. fold w2.
  apply (two_equal_players w2 a b A B r); try done.
  apply (wf_ids w2); [|done].
  apply wf_pelletCollisions. by apply wf_movement.
Qed.

(** *** Runs in which [Math.random] returns 0 *)

Lemma init_zeros_pellets :
  Forall (fun q => q = corner) (pellets (init_world zeros)) /\
  sockets (init_world zeros) = ∅ /\ heap (init_world zeros) = ∅.
Proof.
  unfold init_world, initPellets.
  apply (foldl_invariant (fun w =>
           (Forall (fun q => q = corner) (pellets w) /\
            sockets w = ∅ /\ heap w = ∅) /\ random_source w = zeros));
    [done|].
  intros w i _ [(Hf & Hs & Hh) Hrs]. simpl. rewrite Hrs.
  split; [|done]. split; [|done].
  apply Forall_app. split; [done|]. by apply Forall_singleton.
Qed.

Lemma nursery_0 : nursery 0 (init_world zeros).
Proof.
  destruct (wf_init_world zeros) as (_ & Hp & Hn).
  destruct (init_zeros_pellets) as (Hf & Hs & Hh).
  destruct (init_world_pellets zeros) as (_ & Hr & _).
  split; try done.
  - by exists [].
  - intros k. rewrite Hh, lookup_empty.
    rewrite bool_decide_eq_false_2; [done | lia].
  - intros c Hc. lia.
Qed.

Lemma nursery_join (n : nat) (w : World) :
  nursery n w ->
  exists w' m,
    onMessage (S n) (PObject join_Ann) w = Some (w', Some m) /\
    nursery (S n) w'.
Proof.
  intros [Hre Hpl Hh Hs Hpe Hrs Hn].
  pose proof (reachable_wf _ _ Hre) as Hw.
  assert (nextPlayerId w ∉ players w) as Hfresh.
  { intros Hin. apply (wf_live _ Hw), (wf_fresh _ Hw) in Hin. lia. }
  assert (exists w' m,
    join (S n) join_Ann w = Some (w', m) /\
    players w' = players w ++ [S n] /\
    heap w' = <[S n := spawned (S n)]> (heap w) /\
    sockets w' = <[S n := S n]> (sockets w) /\
    pellets w' = pellets w /\ random_source w' = zeros /\
    nextPlayerId w' = S (S n)) as (w' & m & Ej & Epl & Eh & Es & Epe & Er & En).
  { unfold join.
    change (nickname_of (join_Ann !! "name"%string)) with (Some "Ann"%string).
    simpl. rewrite Map_set_fresh by done. rewrite Hrs, Hn.
    eexists _, _. split; [reflexivity|]. simpl. done. }
  assert (onMessage (S n) (PObject join_Ann) w = Some (w', Some m)) as Eo.
  { unfold onMessage.
    change (join_Ann !! "type"%string) with (Some (JStr "join")).
    cbn [String.eqb Ascii.eqb Bool.eqb]. by rewrite Ej. }
  exists w', m. split; [done|]. split.
  - apply (reachable_step zeros (Message (S n) (PObject join_Ann)) w);
      [done|]. unfold step. by rewrite Eo.
  - rewrite Epl, Hpl. by rewrite seq_S.
  - intros k. rewrite Eh. destruct (decide (k = S n)) as [->|Hne].
    + rewrite lookup_insert_eq. rewrite bool_decide_eq_true_2; [done | lia].
    + rewrite lookup_insert_ne by done. rewrite Hh.
      destruct (decide (1 <= k <= n)%nat).
      * rewrite !bool_decide_eq_true_2; [done | lia | done].
      * rewrite !bool_decide_eq_false_2; [done | lia | done].
  - intros c Hc. rewrite Es. destruct (decide (c = S n)) as [->|Hne].
    + by rewrite lookup_insert_eq.
    + rewrite lookup_insert_ne by done. apply Hs. lia.
  - by rewrite Epe.
  - done.
  - done.
Qed.

Lemma nursery_lookup (n : nat) (w : World) (k : nat) (p : Player.t) :
  nursery n w -> heap w !! k = Some p -> p = spawned k /\ (1 <= k <= n)%nat.
Proof.
  intros Hw. rewrite (nursery_heap _ _ Hw).
  destruct (bool_decide (1 <= k <= n)%nat) eqn:E; [|done].
  apply bool_decide_eq_true in E. by intros [= <-].
Qed.

Lemma nursery_lookup_Some (n : nat) (w : World) (k : nat) :
  nursery n w -> (1 <= k <= n)%nat -> heap w !! k = Some (spawned k).
Proof.
  intros Hw Hk. rewrite (nursery_heap _ _ Hw).
  by rewrite bool_decide_eq_true_2.
Qed.

Lemma spawned_idle (k : nat) : movePlayer (spawned k) = spawned k.
Proof.
  apply (movePlayer_idle _ 10 (50 + 0 * (2000 + - (2 * 50)))
           (50 + 0 * (2000 + - (2 * 50)))); try done; lra.
Qed.

Lemma corner_far_from_spawn (k : nat) (r : R) :
  r <= 50 ->
  (Constants.dist (Player.x (spawned k)) (Player.y (spawned k))
     (Pellet.x corner) (Pellet.y corner) <? Fin r)%num = false.
Proof.
  intros Hr. unfold Constants.dist. simpl. apply ltb_Fin_false.
  etrans; [apply Hr|]. apply le_sqrt; lra.
Qed.

Lemma nursery_idle (n : nat) (w : World) :
  nursery n w -> pelletCollisions (movement w) = w.
Proof.
  intros Hw. rewrite movement_idle.
  - apply pelletCollisions_miss. intros k p q _ Hp Hq.
    apply (nursery_lookup _ _ _ _ Hw) in Hp as [-> _].
    pose proof (nursery_pellets _ _ Hw) as Hf.
    rewrite Forall_forall in Hf. rewrite (Hf q Hq).
    apply corner_far_from_spawn. lra.
  - intros k p _ Hp.
    apply (nursery_lookup _ _ _ _ Hw) in Hp as [-> _]. apply spawned_idle.
Qed.

Lemma spawned_overlap (a b : nat) (r : R) :
  0 < r ->
  (Constants.dist (Player.x (spawned a)) (Player.y (spawned a))
     (Player.x (spawned b)) (Player.y (spawned b))
     <? Fin r * Fin (9 / 10))%num = true.
Proof.
  intros Hr. unfold Constants.dist. simpl. apply ltb_Fin_true.
  match goal with |- sqrt ?e < _ => replace e with 0 by lra end.
  rewrite sqrt_0. lra.
Qed.

(** Two joins, then a tick: the second player is eaten. *)
Lemma twins_eaten (w : World) : nursery 2 w -> eatenInTick w = [2%nat].
Proof.
  intros Hw. unfold eatenInTick. rewrite (nursery_idle 2 w Hw).
  apply (two_equal_players w 1 2 (spawned 1) (spawned 2) 10
           (nursery_players _ _ Hw) ltac:(lia)
           (nursery_lookup_Some 2 w 1 Hw ltac:(lia))
           (nursery_lookup_Some 2 w 2 Hw ltac:(lia))
           eq_refl eq_refl eq_refl ltac:(lra)
           (spawned_overlap 1 2 10 ltac:(lra))).
Qed.

(** *** The runs [joins], [drifting] and [sinking] *)

Lemma joins_S (n : nat) :
  joins (S n) = joins n ++ [Message (S n) (PObject join_Ann)].
Proof. unfold joins. by rewrite seq_S, fmap_app. Qed.

Lemma run_joins (n : nat) :
  exists w, run (joins n) (init_world zeros) = Some w /\ nursery n w.
Proof.
  induction n as [|n (w & Hr & Hw)].
  - exists (init_world zeros). split; [done | apply nursery_0].
  - destruct (nursery_join n w Hw) as (w' & m & Eo & Hw').
    exists w'. split; [|done].
    rewrite joins_S, (run_app _ _ _ _ Hr). cbn [run]. unfold step.
    by rewrite Eo.
Qed.

Lemma run_reachable (es : list event) (w : World) :
  run es (init_world zeros) = Some w -> reachable zeros w.
Proof. intros H. by exists es. Qed.

(** The run [drifting]: the join, then the infinite input. *)
Lemma drifting_run :
  exists w,
    nursery 1 w /\
    run (joins 1) (init_world zeros) = Some w /\
    onMessage 1 (PObject infinite_input) w =
      Some (update 1 (Player.set_dir NaN (Fin 0)) w, None) /\
    run drifting (init_world zeros) =
      Some (update 1 (Player.set_dir NaN (Fin 0)) w) /\
    heap (update 1 (Player.set_dir NaN (Fin 0)) w) !! 1%nat = Some drifter.
Proof.
  destruct (run_joins 1) as (w & Hr & Hw). exists w.
  assert (sockets w !! 1%nat = Some 1%nat) as Hs
    by (apply (nursery_sockets 1); [exact Hw | lia]).
  assert (onMessage 1 (PObject infinite_input) w =
          Some (update 1 (Player.set_dir NaN (Fin 0)) w, None)) as Eo.
  { rewrite (onMessage_input 1 1 infinite_input w Hs eq_refl).
    rewrite (input_not_finite 1 infinite_input w PInf (Fin 0));
      reflexivity. }
  split; [exact Hw|]. split; [exact Hr|]. split; [exact Eo|]. split.
  - unfold drifting. rewrite (run_app _ _ _ _ Hr). cbn [run].
    unfold step. rewrite Eo. reflexivity.
  - unfold update. cbn [heap set_heap]. rewrite lookup_alter_eq.
    rewrite (nursery_lookup_Some 1 w 1 Hw) by lia. reflexivity.
Qed.

Lemma sqrt_one : sqrt (0 * 0 + 1 * 1) = 1.
Proof. replace (0 * 0 + 1 * 1) with 1 by lra. apply sqrt_1. Qed.

Lemma drifter_lost : lost (movePlayer drifter).
Proof. left. by apply movePlayer_x_NaN. Qed.

Lemma sinker_x : Player.x sinker = NaN.
Proof.
  change (Player.x sinker) with (Player.x (movePlayer drifter)).
  by apply movePlayer_x_NaN.
Qed.

Lemma sinker_y : Player.y sinker = Fin 50.
Proof.
  change (Player.y sinker) with (Player.y (movePlayer drifter)).
  rewrite (movePlayer_y_finite drifter 10 (50 + 0 * (2000 + - (2 * 50))) 0);
    try reflexivity; try lra.
  f_equal. lra.
Qed.

Lemma sinker_moves_south : Player.y (movePlayer sinker) = Fin 55.
Proof.
  rewrite (movePlayer_y_finite sinker 10 50 (1 / sqrt (0 * 0 + 1 * 1))).
  - rewrite sqrt_one, speed_of_newcomer. f_equal. lra.
  - reflexivity.
  - lra.
  - apply sinker_y.
  - reflexivity.
  - rewrite sqrt_one, speed_of_newcomer. lra.
Qed.

(** The run [sinking]: after [drifting], a tick and the input that points
    south. *)
Lemma sinking_run :
  exists w,
    run sinking (init_world zeros) = Some w /\
    players w = [1%nat] /\ heap w !! 1%nat = Some sinker.
Proof.
  destruct drifting_run as (w1 & Hw1 & _ & _ & Hr & _).
  remember (update 1 (Player.set_dir NaN (Fin 0)) w1) as D eqn:ED.
  assert (players D = [1%nat]) as Hpl.
  { rewrite ED. exact (nursery_players 1 w1 Hw1). }
  assert (heap D !! 1%nat = Some drifter) as Hh.
  { rewrite ED. unfold update. cbn [heap set_heap]. rewrite lookup_alter_eq.
    rewrite (nursery_lookup_Some 1 w1 1 Hw1) by lia. reflexivity. }
  assert (sockets D !! 1%nat = Some 1%nat) as Hs.
  { rewrite ED. apply (nursery_sockets 1 w1 Hw1). lia. }
  clear ED Hw1 w1.
  pose proof (reachable_wf _ _ (run_reachable _ _ Hr)) as HwD.
  assert (1%nat ∈ players D) as Hin by (rewrite Hpl; left).
  destruct (tick_lost D 1 drifter HwD Hin Hh drifter_lost)
    as (_ & _ & HhT & HneT & HinT).
  pose proof (wf_nodup _ (wf_tick _ HwD)) as Hnd.
  pose proof (tick_sockets D) as HsT.
  assert (forall k, k ∈ players (tick D).1 -> k = 1%nat) as Hall.
  { intros k Hk. unfold tick in Hk.
    destruct (wf_playerCollisions _
                (wf_pelletCollisions _ (wf_movement _ HwD))) as [_ Ep].
    destruct (before_collisions_frame D) as (_ & _ & _ & Ep2 & _).
    cbv zeta in Ep2.
    destruct (playerCollisions (pelletCollisions (movement D)))
      as [w3 eaten].
    cbn [fst snd] in Hk, Ep. apply players_removeEaten in Hk as [_ Hk].
    rewrite Ep, Ep2, Hpl in Hk.
    apply list_elem_of_singleton in Hk. exact Hk. }
  remember (tick D).1 as T eqn:ET.
  assert (players T = [1%nat]) as HplT.
  { destruct (players T) as [|k [|k' l]].
    - apply elem_of_nil in HinT. destruct HinT.
    - f_equal. apply Hall. left.
    - exfalso. apply NoDup_cons in Hnd as [Hk _]. apply Hk.
      rewrite (Hall k) by left. rewrite (Hall k'); [left|]. right. left. }
  assert (onMessage 1 (PObject south_input) T =
          Some (update 1 (Player.set_dir (Fin (0 / sqrt (0 * 0 + 1 * 1)))
                                         (Fin (1 / sqrt (0 * 0 + 1 * 1)))) T,
                None)) as Eo.
  { rewrite (onMessage_input 1 1 south_input T); [|by rewrite HsT, Hs|reflexivity].
    rewrite (input_finite 1 south_input T 0 1);
      [reflexivity | reflexivity | reflexivity |]. right. lra. }
  exists (update 1 (Player.set_dir (Fin (0 / sqrt (0 * 0 + 1 * 1)))
                                   (Fin (1 / sqrt (0 * 0 + 1 * 1)))) T).
  split.
  { unfold sinking. rewrite (run_app _ _ _ _ Hr). cbn [run].
    unfold step at 1. cbn [fst]. rewrite <- ET. unfold step. rewrite Eo.
    reflexivity. }
  split; [exact HplT|].
  unfold update. cbn [heap set_heap]. rewrite lookup_alter_eq, HhT.
  reflexivity.
Qed.


(** ** The claims on concrete runs and states *)

(** Three players on one spot: the first key eats the other two. *)
Lemma triplets_eaten (w : World) (k : nat) :
  nursery 3 w -> k ∈ [2; 3]%nat -> k ∈ eatenInTick w.
Proof.
  intros Hw Hk.
  assert (heap w !! 1%nat = Some (spawned 1)) as H1
    by (apply (nursery_lookup_Some 3); [exact Hw | lia]).
  assert (heap w !! 2%nat = Some (spawned 2)) as H2
    by (apply (nursery_lookup_Some 3); [exact Hw | lia]).
  assert (heap w !! 3%nat = Some (spawned 3)) as H3
    by (apply (nursery_lookup_Some 3); [exact Hw | lia]).
  assert (players w = [1; 2; 3]%nat) as Hpl by exact (nursery_players 3 _ Hw).
  unfold eatenInTick. rewrite (nursery_idle 3 _ Hw).
  unfold playerCollisions. rewrite Hpl. cbn [foldl fst].
  rewrite Hpl. cbn [foldl]. rewrite collideStep_self.
  rewrite (collideStep_eat 1 2 w [] (spawned 1) (spawned 2));
    [ | lia | exact H1 | exact H2
      | apply ltb_Fin_false; lra
      | apply (spawned_overlap 1 2 10); lra
      | apply not_elem_of_nil ].
  destruct (after_eat 1 2 w (spawned 1) (spawned 2)) as (HA' & _ & Hk' & _);
    [lia | exact H1 | exact H2 | reflexivity | rewrite Hpl; right; left |].
  cbv zeta in HA', Hk'.
  assert (Player.radius (eatPlayer (spawned 2) (spawned 1)) =
          Fin (sqrt (10 * 10 + 10 * 10))) as Er.
  { unfold eatPlayer, Player.set_area, spawned.
    cbn [Player.radius num_mul num_add]. apply sqrt_Fin. lra. }
  assert (10 <= sqrt (10 * 10 + 10 * 10)) as Hsq by (apply le_sqrt; lra).
  rewrite (collideStep_eat 1 3 _ _ _ (spawned 3) ltac:(lia) HA');
    [ | rewrite Hk' by lia; exact H3
      | rewrite Er; apply ltb_Fin_false; exact Hsq
      | rewrite Er;
        apply (spawned_overlap 1 3 (sqrt (10 * 10 + 10 * 10))); lra
      | cbn [Player.id spawned app]; rewrite not_elem_of_cons;
        split; [lia | apply not_elem_of_nil] ].
  do 2 apply inner_loop_grows. exact Hk.
Qed.

(** Two joins on one spot and a tick: player 2 is eaten; it was in the Map
    and is no longer. *)
Lemma twins_loser_deleted :
  exists w,
    run (joins 2) (init_world zeros) = Some w /\
    2%nat ∈ players w /\ 2%nat ∈ eatenInTick w /\
    (2%nat ∉ players (tick w).1).
Proof.
  destruct (run_joins 2) as (w & Hr & Hw). exists w.
  assert (2%nat ∈ eatenInTick w) as H.
  { rewrite (twins_eaten _ Hw). apply list_elem_of_singleton. reflexivity. }
  split; [exact Hr|]. split; [|split; [exact H|]].
  - rewrite (nursery_players 2 _ Hw). right. left.
  - exact (eaten_player_deleted_from_Map w 2 H).
Defined.

Lemma twins_one_elimination :
  exists w,
    run (joins 2) (init_world zeros) = Some w /\
    NoDup (eatenInTick w) /\ eatenInTick w = [2%nat].
Proof.
  destruct (run_joins 2) as (w & Hr & Hw). exists w.
  destruct (at_most_one_elimination_per_victim w) as [[ds [Hnd _]] H2].
  split; [exact Hr|]. split; [exact Hnd|].
  apply (H2 1%nat 2%nat (spawned 1) (spawned 2) 10
            (reachable_wf _ _ (nursery_reachable 2 _ Hw)));
    rewrite ?(nursery_idle 2 _ Hw).
  - exact (nursery_players 2 _ Hw).
  - lia.
  - apply (nursery_lookup_Some 2); [exact Hw | lia].
  - apply (nursery_lookup_Some 2); [exact Hw | lia].
  - reflexivity.
  - reflexivity.
  - lra.
  - apply (spawned_overlap 1 2 10). lra.
Defined.

(** C4 as stated fails.  After three joins on one spot, players 2 and 3
    are live, of one radius and within the overlap distance of each
    other, and the tick eliminates both of them: player 1 eats them. *)
Lemma triplets_both_eliminated :
  exists w,
    run (joins 3) (init_world zeros) = Some w /\
    heap w !! 2%nat = Some (spawned 2) /\
    heap w !! 3%nat = Some (spawned 3) /\
    Player.radius (spawned 2) = Player.radius (spawned 3) /\
    (Constants.dist (Player.x (spawned 2)) (Player.y (spawned 2))
       (Player.x (spawned 3)) (Player.y (spawned 3))
       <? Player.radius (spawned 2) * Fin (9 / 10))%num = true /\
    2%nat ∈ eatenInTick w /\ 3%nat ∈ eatenInTick w.
Proof.
  destruct (run_joins 3) as (w & Hr & Hw). exists w.
  split; [exact Hr|].
  split; [apply (nursery_lookup_Some 3); [exact Hw | lia]|].
  split; [apply (nursery_lookup_Some 3); [exact Hw | lia]|].
  split; [reflexivity|].
  split; [apply (spawned_overlap 2 3 10); lra|].
  split; apply (triplets_eaten w _ Hw); [left | right; left].
Qed.

(** After the first join, the input whose [dx] is +Infinity is not
    dropped: the heading (0, 0) of the player becomes (NaN, 0), and the
    movement pass that follows leaves its x at NaN. *)
Lemma infinite_input_not_dropped :
  exists w w',
    run (joins 1) (init_world zeros) = Some w /\
    heap w !! 1%nat = Some (spawned 1) /\
    Player.dirX (spawned 1) = Fin 0 /\ Player.dirY (spawned 1) = Fin 0 /\
    onMessage 1 (PObject infinite_input) w = Some (w', None) /\
    heap w' !! 1%nat = Some (Player.set_dir NaN (Fin 0) (spawned 1)) /\
    lost (movePlayer (Player.set_dir NaN (Fin 0) (spawned 1))).
Proof.
  destruct (run_joins 1) as (w & Hr & Hw).
  assert (heap w !! 1%nat = Some (spawned 1)) as Hh
    by (apply (nursery_lookup_Some 1); [exact Hw | lia]).
  destruct (input_with_an_infinite_component_is_stored 1 1 (spawned 1)
              infinite_input w PInf (Fin 0))
    as (H1 & H2 & _ & H3 & _).
  - apply (nursery_sockets 1 w Hw). lia.
  - exact Hh.
  - reflexivity.
  - reflexivity.
  - reflexivity.
  - reflexivity.
  - exists w. eexists. split; [exact Hr|]. split; [exact Hh|].
    split; [reflexivity|]. split; [reflexivity|].
    split; [exact H1|]. split; [exact H2 | exact H3].
Defined.

(** C3 as stated fails: at the end of the run [sinking] the player's x is
    NaN, and the tick that follows moves it all the same, from y = 50 to
    y = 55. *)
Lemma sunk_player_still_moved :
  exists w,
    run sinking (init_world zeros) = Some w /\
    1%nat ∈ players w /\ heap w !! 1%nat = Some sinker /\
    Player.x sinker = NaN /\ Player.y sinker = Fin 50 /\
    Player.y <$> heap (tick w).1 !! 1%nat = Some (Fin 55).
Proof.
  destruct sinking_run as (w & Hr & Hpl & Hh). exists w.
  assert (1%nat ∈ players w) as Hin by (rewrite Hpl; left).
  split; [exact Hr|]. split; [exact Hin|]. split; [exact Hh|].
  split; [apply sinker_x|]. split; [apply sinker_y|].
  destruct (tick_lost w 1 sinker) as (_ & _ & -> & _).
  - exact (reachable_wf _ _ (run_reachable _ _ Hr)).
  - exact Hin.
  - exact Hh.
  - apply movePlayer_lost. left. apply sinker_x.
  - rewrite <- sinker_moves_south. reflexivity.
Qed.

Lemma sunk_player_out_of_collisions :
  exists w,
    run sinking (init_world zeros) = Some w /\
    1%nat ∈ players w /\
    lost (movePlayer sinker) /\
    heap (tick w).1 !! 1%nat = Some (movePlayer sinker) /\
    (1%nat ∉ eatenInTick w) /\
    1%nat ∈ players (tick w).1.
Proof.
  destruct sinking_run as (w & Hr & Hpl & Hh). exists w.
  assert (1%nat ∈ players w) as Hin by (rewrite Hpl; left).
  split; [exact Hr|]. split; [exact Hin|].
  destruct (NaN_player_moved_but_out_of_collisions w 1
              sinker (reachable_wf _ _ (run_reachable _ _ Hr)) Hin Hh
              (or_introl sinker_x))
    as (H1 & _ & H3 & H4 & H5).
  split; [exact H1|]. split; [exact H3|]. split; [exact H4 | exact H5].
Defined.

Lemma wf_alone (p : Player.t) : Player.id p = 1%nat -> wf (alone p).
Proof.
  intros Hid. split.
  - intros k q Hk. cbn [alone heap] in Hk.
    apply lookup_singleton_Some in Hk as [<- <-]. exact Hid.
  - intros k Hk. cbn [alone players heap] in Hk |- *.
    apply list_elem_of_singleton in Hk as ->.
    rewrite lookup_singleton_eq. by eexists.
  - apply NoDup_singleton.
  - intros k [q Hk]. cbn [alone heap nextPlayerId] in Hk |- *.
    apply lookup_singleton_Some in Hk as [<- _]. lia.
Qed.

Lemma giant_x : Player.x (movePlayer giant) = Fin 500.
Proof.
  unfold movePlayer, giant. cbv zeta.
  cbn [Player.x Player.y Player.radius Player.dirX Player.dirY Player.set_pos].
  rewrite speed_finite by lra. cbn [num_mul num_add].
  rewrite (ltb_Fin_true (1000 + 0 * Rmax 2 (50 / 1500)) 1500) by lra.
  unfold num_gtb, Constants.MAP_WIDTH. cbn [num_sub num_neg num_add].
  rewrite ltb_Fin_true by lra. f_equal. lra.
Qed.

(** C5 as stated fails.  At the end of the run [drifting] the player has a
    finite position and the heading (NaN, 0); the movement pass leaves it at
    x = NaN, and radius <= x is false.  And for a radius above half the map
    (1500) the pass leaves x = 500, below the radius. *)
Lemma movement_off_the_map :
  (exists w,
      run drifting (init_world zeros) = Some w /\
      heap w !! 1%nat = Some drifter /\
      isFinite (Player.x drifter) = true /\
      heap (movement w) !! 1%nat = Some (movePlayer drifter) /\
      Player.x (movePlayer drifter) = NaN /\
      (Player.radius (movePlayer drifter) <=? Player.x (movePlayer drifter))%num
        = false) /\
  heap (movement (alone giant)) !! 1%nat = Some (movePlayer giant) /\
  Player.x (movePlayer giant) = Fin 500 /\
  Player.radius (movePlayer giant) = Fin 1500 /\
  (Player.radius (movePlayer giant) <=? Player.x (movePlayer giant))%num
    = false.
Proof.
  split.
  - destruct drifting_run as (w & Hw & _ & _ & Hr & Hh).
    exists (update 1 (Player.set_dir NaN (Fin 0)) w).
    assert (Player.x (movePlayer drifter) = NaN) as Ex
      by (by apply movePlayer_x_NaN).
    split; [exact Hr|]. split; [exact Hh|]. split; [reflexivity|].
    split; [|split; [exact Ex | by rewrite Ex]].
    rewrite movement_lookup.
    + rewrite bool_decide_eq_true_2, Hh; [reflexivity|].
      change (1%nat ∈ players w). rewrite (nursery_players 1 w Hw). left.
    + change (NoDup (players w)). rewrite (nursery_players 1 w Hw).
      apply NoDup_singleton.
  - split.
    + rewrite movement_lookup by apply NoDup_singleton.
      rewrite bool_decide_eq_true_2 by left.
      cbn [alone heap]. rewrite lookup_singleton_eq. reflexivity.
    + split; [apply giant_x|]. split; [reflexivity|].
      rewrite giant_x.
      change (Player.radius (movePlayer giant)) with (Fin 1500).
      unfold num_leb. destruct (Rle_dec 1500 500); [lra | reflexivity].
Qed.

Lemma newcomer_stays_on_the_map :
  exists w,
    run (joins 1) (init_world zeros) = Some w /\
    1%nat ∈ players w /\ heap w !! 1%nat = Some (spawned 1) /\
    exists p',
      heap (movement w) !! 1%nat = Some p' /\ p' = movePlayer (spawned 1) /\
      (Player.radius p' <=? Player.x p')%num = true /\
      (Player.x p' <=? Constants.MAP_WIDTH - Player.radius p')%num = true /\
      (Player.radius p' <=? Player.y p')%num = true /\
      (Player.y p' <=? Constants.MAP_HEIGHT - Player.radius p')%num = true.
Proof.
  destruct (run_joins 1) as (w & Hr & Hw). exists w.
  assert (1%nat ∈ players w) as Hin
    by (rewrite (nursery_players 1 w Hw); left).
  assert (heap w !! 1%nat = Some (spawned 1)) as Hh
    by (apply (nursery_lookup_Some 1); [exact Hw | lia]).
  split; [exact Hr|]. split; [exact Hin|]. split; [exact Hh|].
  apply (position_within_bounds_after_movement w 1 (spawned 1) 10
           (reachable_wf _ _ (nursery_reachable 1 _ Hw)) Hin Hh eq_refl);
    try reflexivity; lra.
Defined.

Lemma cheating_input_same :
  same_but_client_fields (PObject cheating_input) (PObject plain_input).
Proof.
  intros f Hf. unfold cheating_input.
  rewrite !lookup_insert_ne; [done|..];
    intros <-; apply Hf; unfold client_fields;
    repeat (first [by left | right]).
Qed.

Lemma cheating_input_ignored :
  exists w,
    run (joins 1) (init_world zeros) = Some w /\
    onMessage 1 (PObject cheating_input) w =
      onMessage 1 (PObject plain_input) w /\
    run [Message 1 (PObject cheating_input); Tick] w =
      run [Message 1 (PObject plain_input); Tick] w.
Proof.
  destruct (run_joins 1) as (w & Hr & Hw). exists w.
  destruct (client_fields_have_no_effect 1
              (PObject cheating_input) (PObject plain_input)
              [Message 1 (PObject cheating_input); Tick]
              [Message 1 (PObject plain_input); Tick] w)
    as (H1 & H2 & _).
  - apply cheating_input_same.
  - constructor; [|constructor; [apply same_event | constructor]].
    apply same_message, cheating_input_same.
  - split; [exact Hr|]. split; [exact H1 | exact H2].
Defined.

Lemma first_join :
  exists w' m p,
    onMessage 1 (PObject join_Ann) (init_world zeros) = Some (w', Some m) /\
    players w' =
      players (init_world zeros) ++ [nextPlayerId (init_world zeros)] /\
    heap w' !! nextPlayerId (init_world zeros) = Some p /\
    Player.id p = nextPlayerId (init_world zeros) /\
    InitMsg.id m = nextPlayerId (init_world zeros) /\
    length (players w') = S (length (players (init_world zeros))).
Proof.
  destruct (join_always_adds_a_player zeros 1 join_Ann (init_world zeros))
    as [H _].
  - exists []. reflexivity.
  - reflexivity.
  - right. exists "Ann"%string. reflexivity.
  - exact H.
Defined.

(** *** The score in the init message *)

Lemma below_164 : 0 < / 2 ^ 45 <= 1.
Proof.
  assert (1 <= 2 ^ 45) as H by (apply pow_R1_Rle; lra).
  split.
  - apply Rinv_0_lt_compat. lra.
  - rewrite <- Rinv_1. apply Rinv_le_contravar; lra.
Qed.

Lemma floor_veteran : Math.floor (Fin (164 - / 2 ^ 45)) = Fin 163.
Proof.
  cbn [Math.floor]. do 2 f_equal. apply Zfloor_eq.
  pose proof below_164. lra.
Qed.

Lemma floor_100 : Math.floor (Fin (10 * 10)) = Fin 100.
Proof.
  cbn [Math.floor]. do 2 f_equal. apply Zfloor_eq. lra.
Qed.

(** A join answers with [init_entry] of the players of the Map; the
    periodic update is made of [update_entry] of the same players. *)
Lemma init_message_entries (c : nat) (msg : gmap string jsval) (w w' : World)
    (m : InitMsg.t) :
  join c msg w = Some (w', m) ->
  InitMsg.players m = init_entry <$> players_values w' /\
  UpdateMsg.players (stateUpdate w') = update_entry <$> players_values w'.
Proof.
  unfold join. destruct (nickname_of _) as [nick|]; [|done].
  simpl. by intros [= <- <-].
Qed.

(** C9 fails on the init message: a join while a player has the score
    164 - 2^-45 is answered with that score as it is, where the update
    broadcast from the same state says 163. *)
Theorem init_message_score_not_floored :
  exists w' m,
    onMessage 2 (PObject join_Ann) (alone veteran) = Some (w', Some m) /\
    Snapshot.score <$> InitMsg.players m =
      [Fin (164 - / 2 ^ 45); Fin (10 * 10)] /\
    Snapshot.score <$> UpdateMsg.players (stateUpdate w') =
      [Fin 163; Fin 100].
Proof.
  destruct (join_spec 2 join_Ann (alone veteran) "Ann" eq_refl
              (wf_alone veteran eq_refl))
    as (w' & m & p & Ej & Epl & Eh & Eid & _ & Er & _).
  exists w', m. split.
  { unfold onMessage.
    change (join_Ann !! "type"%string) with (Some (JStr "join")).
    cbn [String.eqb Ascii.eqb Bool.eqb]. by rewrite Ej. }
  pose proof Ej as Ej'. unfold join in Ej'.
  change (nickname_of (join_Ann !! "name"%string)) with (Some "Ann"%string)
    in Ej'.
  destruct (init_message_entries _ _ _ _ _ Ej) as [-> ->].
  assert (players_values w' = [veteran; p]) as ->.
  { unfold players_values. rewrite Epl, Eh. simpl.
    rewrite lookup_insert_ne by done. rewrite lookup_singleton_eq. simpl.
    by rewrite lookup_insert_eq. }
  simpl in Ej'. injection Ej' as Ew Em.
  assert (Player.score p = Fin (10 * 10)) as Es.
  { assert (heap w' !! 2%nat = Some p) as Hp.
    { rewrite Eh. apply lookup_insert_eq. }
    rewrite <- Ew in Hp. simpl in Hp. rewrite lookup_insert_eq in Hp.
    injection Hp as <-. done. }
  simpl. rewrite Es. split; [done|].
  change (Math.floor (Fin (164 - / 2 ^ 45)) :: [Math.floor (Fin (10 * 10))]
          = [Fin 163; Fin 100]).
  by rewrite floor_veteran, floor_100.
Qed.

(** ** More properties of the handlers *)

Lemma length_substring (n m : nat) (s : string) :
  (String.length (String.substring n m s) <= m)%nat.
Proof.
  revert n m. induction s as [|c s IH]; intros [|n] [|m]; simpl; try lia.
  - specialize (IH 0%nat m). lia.
  - apply (IH n 0%nat).
  - apply IH.
Qed.

Lemma substring_prefix (m : nat) (s : string) :
  exists t, s = (String.substring 0 m s ++ t)%string.
Proof.
  revert m. induction s as [|c s IH]; intros [|m]; simpl.
  - exists ""%string. reflexivity.
  - exists ""%string. reflexivity.
  - exists (String c s). reflexivity.
  - destruct (IH m) as [t Ht]. exists t.
    change (String c s = String c (String.substring 0 m s ++ t)%string).
    by f_equal.
Qed.

Lemma substring_short (m : nat) (s : string) :
  (String.length s <= m)%nat -> String.substring 0 m s = s.
Proof.
  revert m. induction s as [|c s IH]; intros [|m]; simpl; try done; try lia.
  intros H. rewrite IH; [done | lia].
Qed.

(** X1: the name of the player a join creates.  For a [name] field that is
    absent or the empty string it is Player; for another string it is the
    first 15 characters of it, so a prefix of it, of length 15 at most, and
    the string itself when it has no more. *)
Theorem join_gives_a_short_name
    (c : nat) (msg : gmap string jsval) (w : World) :
  msg !! "type"%string = Some (JStr "join") ->
  msg !! "name"%string = None \/ (exists s, msg !! "name"%string = Some (JStr s)) ->
  exists w' m p,
    onMessage c (PObject msg) w = Some (w', Some m) /\
    heap w' !! InitMsg.id m = Some p /\
    (String.length (Player.name p) <= 15)%nat /\
    (forall s, msg !! "name"%string = Some (JStr s) -> s <> ""%string ->
               Player.name p = String.substring 0 15 s /\
               (exists t, s = (Player.name p ++ t)%string) /\
               ((String.length s <= 15)%nat -> Player.name p = s)) /\
    (msg !! "name"%string = None \/ msg !! "name"%string = Some (JStr "") ->
     Player.name p = "Player"%string).
Proof.
  intros Ht Hn.
  assert (exists nick, nickname_of (msg !! "name"%string) = Some nick /\
            (String.length nick <= 15)%nat /\
            (forall s, msg !! "name"%string = Some (JStr s) -> s <> ""%string ->
                       nick = String.substring 0 15 s) /\
            (msg !! "name"%string = None \/
             msg !! "name"%string = Some (JStr "") -> nick = "Player"%string))
    as (nick & En & Hlen & Hs & Hd).
  { destruct Hn as [-> | [[|a s] ->]].
    - exists "Player"%string. split; [done|]. split; [simpl; lia|]. done.
    - exists "Player"%string. split; [done|]. split; [simpl; lia|].
      split; [|done]. by intros s [= <-].
    - exists (String.substring 0 15 (String a s)). split; [done|].
      split; [apply length_substring|]. split.
      + by intros s' [= <-] _.
      + by intros [? | ?]. }
  unfold onMessage. rewrite Ht. simpl. unfold join. rewrite En. simpl.
  eexists _, _, _. split; [done|]. simpl.
  split; [by rewrite lookup_insert_eq|]. simpl. split; [done|]. split; [|done].
  intros s E Hne. rewrite (Hs s E Hne). split; [done|]. split.
  - apply substring_prefix.
  - apply substring_short.
Qed.

Lemma join_Ann_named :
  exists w' m p,
    onMessage 1 (PObject join_Ann) (init_world zeros) = Some (w', Some m) /\
    heap w' !! InitMsg.id m = Some p /\ Player.name p = "Ann"%string.
Proof.
  destruct (join_gives_a_short_name 1 join_Ann (init_world zeros))
    as (w' & m & p & E & Hp & _ & Hs & _).
  - reflexivity.
  - right. exists "Ann"%string. reflexivity.
  - exists w', m, p. split; [exact E|]. split; [exact Hp|].
    destruct (Hs "Ann"%string) as (_ & _ & H).
    + reflexivity.
    + discriminate.
    + apply H. simpl. lia.
Defined.

(** X2: a join whose [name] is true, an array, an object or a number other
    than 0 and NaN makes the handler throw (the call of [substring] is a
    TypeError), and so does the message [null]; nothing catches it, and a
    run that holds such a message has no state after it. *)
Theorem join_with_a_name_that_is_no_string_throws
    (c : nat) (msg : gmap string jsval) (v : jsval) (w : World)
    (es es' : list event) :
  msg !! "type"%string = Some (JStr "join") ->
  msg !! "name"%string = Some v ->
  v = JBool true \/ v = JOther \/
  (exists n, v = JNum n /\ isNaN n = false /\ n <> Fin 0) ->
  onMessage c (PObject msg) w = None /\
  onMessage c PNull w = None /\
  (forall w0, run es w0 = Some w ->
              run (es ++ Message c (PObject msg) :: es') w0 = None).
Proof.
  intros Ht Hn Hv.
  assert (onMessage c (PObject msg) w = None) as E.
  { unfold onMessage. rewrite Ht. simpl. unfold join. rewrite Hn.
    destruct Hv as [-> | [-> | (n & -> & Hnan & Hz)]]; try done.
    destruct n as [| | |r]; try done.
    unfold nickname_of, truthy. destruct (Req_dec_T r 0) as [->|]; done. }
  split; [done|]. split; [done|].
  intros w0 Hr. rewrite (run_app _ _ _ _ Hr). cbn [run]. unfold step.
  by rewrite E.
Qed.

Lemma join_42_throws :
  onMessage 1 (PObject join_42) (init_world zeros) = None /\
  onMessage 1 PNull (init_world zeros) = None /\
  run ([] ++ [Message 1 (PObject join_42); Tick]) (init_world zeros) = None.
Proof.
  destruct (join_with_a_name_that_is_no_string_throws 1 join_42
              (JNum (Fin 42)) (init_world zeros) []
              [Tick]) as (H1 & H2 & H3).
  - reflexivity.
  - reflexivity.
  - right. right. exists (Fin 42). split; [reflexivity|].
    split; [reflexivity|]. intros H. injection H as H. lra.
  - split; [exact H1|]. split; [exact H2|]. apply H3. reflexivity.
Defined.

(** X3: a message that is a primitive or an array, a message whose [type]
    is neither join nor input, and an input on a connection that has not
    joined change nothing and get no reply. *)
Theorem other_messages_change_nothing (c : nat) (w : World) :
  onMessage c PPlain w = Some (w, None) /\
  (forall msg,
      msg !! "type"%string <> Some (JStr "join") ->
      msg !! "type"%string <> Some (JStr "input") ->
      onMessage c (PObject msg) w = Some (w, None)) /\
  (forall msg,
      msg !! "type"%string = Some (JStr "input") -> sockets w !! c = None ->
      onMessage c (PObject msg) w = Some (w, None)).
Proof.
  split; [done|]. split.
  - intros msg Hj Hi. unfold onMessage.
    destruct (msg !! "type"%string) as [[| | |ty|]|]; try done.
    destruct (String.eqb_spec ty "join") as [->|]; [done|].
    by destruct (String.eqb_spec ty "input") as [->|].
  - intros msg Hi Hc. unfold onMessage. rewrite Hi. simpl. by rewrite Hc.
Qed.

(** *** Closing *)

Lemma Map_delete_absent (k : nat) (l : list nat) :
  k ∉ l -> Map_delete k l = l.
Proof.
  intros H. unfold Map_delete. induction l as [|j l IH]; [done|].
  apply not_elem_of_cons in H as [Hne Hl].
  rewrite filter_cons_True by done. by rewrite IH.
Qed.

(** X4: closing a connection that holds a player takes that player's key,
    and no other, out of the Map, leaves every object and pellet as it is,
    and writes one line; closing a connection that never joined changes
    nothing. *)
Theorem close_removes_the_player (c k : nat) (p : Player.t) (w : World) :
  wf w -> sockets w !! c = Some k -> heap w !! k = Some p ->
  let w' := onClose c w in
  (k ∉ players w') /\
  (forall j, j <> k -> j ∈ players w' <-> j ∈ players w) /\
  heap w' = heap w /\ pellets w' = pellets w /\
  console w' = console w ++ [LogDisconnected (Player.name p) k] /\
  (forall c', sockets w !! c' = None -> onClose c' w = w).
Proof.
  intros Hw Hc Hp. cbv zeta.
  assert (Player.id p = k) as Hid by (by apply (wf_ids _ Hw)).
  assert (onClose c w =
          set_sockets (delete c (sockets w))
            (set_players (Map_delete k (players w))
               (log (LogDisconnected (Player.name p) k) w))) as E.
  { unfold onClose. by rewrite Hc, Hp, Hid. }
  rewrite E. simpl.
  split; [rewrite elem_of_Map_delete; tauto|].
  split; [intros j Hj; rewrite elem_of_Map_delete; tauto|].
  split; [done|]. split; [done|]. split; [done|].
  intros c' Hc'. unfold onClose. by rewrite Hc'.
Qed.

Lemma close_of_the_only_player :
  exists w,
    run (joins 1) (init_world zeros) = Some w /\
    (1%nat ∉ players (onClose 1 w)) /\
    heap (onClose 1 w) = heap w /\
    console (onClose 1 w) = console w ++ [LogDisconnected "Ann" 1].
Proof.
  destruct (run_joins 1) as (w & Hr & Hw). exists w.
  destruct (close_removes_the_player 1 1 (spawned 1) w)
    as (H1 & _ & H2 & _ & H3 & _).
  - exact (reachable_wf _ _ (nursery_reachable _ _ Hw)).
  - apply (nursery_sockets 1 w Hw). lia.
  - apply (nursery_lookup_Some 1 w 1 Hw). lia.
  - split; [exact Hr|]. split; [exact H1|]. split; [exact H2 | exact H3].
Defined.

(** ** Properties of every player object of a run *)

Lemma join_cases (c : nat) (msg : gmap string jsval) (w w' : World)
    (m : InitMsg.t) :
  join c msg w = Some (w', m) ->
  exists nick sx sy col,
    nickname_of (msg !! "name"%string) = Some nick /\
    (sx, sy) = (getRandomSpawn w).1 /\
    col = hsl (Math.floor (Fin (random_source w (S (S (random_count w))))
                           * Fin 360)) /\
    let p := Player.mk (nextPlayerId w) nick sx sy Constants.INITIAL_RADIUS
               (Fin 0) (Fin 0) col
               (Constants.INITIAL_RADIUS * Constants.INITIAL_RADIUS) in
    heap w' = <[nextPlayerId w := p]> (heap w) /\
    players w' = Map_set (nextPlayerId w) (players w) /\
    sockets w' = <[c := nextPlayerId w]> (sockets w) /\
    pellets w' = pellets w /\
    nextPlayerId w' = S (nextPlayerId w) /\
    console w' = console w ++ [LogJoined nick (nextPlayerId w)] /\
    ledger w' = ledger w /\
    highscoreCollection w' = highscoreCollection w /\
    random_source w' = random_source w /\
    InitMsg.id m = nextPlayerId w /\
    InitMsg.players m = init_entry <$> players_values w' /\
    InitMsg.pellets m = pellets w.
Proof.
  unfold join. destruct (nickname_of (msg !! "name"%string)) as [nick|]; [|done].
  simpl. intros [= <- <-]. eexists _, _, _, _. split; [done|].
  split; [done|]. split; [done|]. simpl. repeat (split; [done|]). done.
Qed.

Lemma heap_all_update (P : Player.t -> Prop) (k : nat)
    (f : Player.t -> Player.t) (w : World) :
  (forall p, heap w !! k = Some p -> P p -> P (f p)) ->
  heap_all P w -> heap_all P (update k f w).
Proof.
  intros Hf H j p. unfold update. cbn [heap set_heap].
  destruct (decide (j = k)) as [->|Hne].
  - rewrite lookup_alter_eq. destruct (heap w !! k) as [q|] eqn:E; [|done].
    intros [= <-]. apply Hf; [done|]. by apply (H k).
  - rewrite lookup_alter_ne by done. apply H.
Qed.

Section heap_invariant.

Variable P : Player.t -> Prop.
Hypothesis P_move : forall p, P p -> P (movePlayer p).
Hypothesis P_pellet : forall p, P p -> P (eatPellet p).
Hypothesis P_eat : forall a b, P a -> P b -> P (eatPlayer b a).
Hypothesis P_respawn : forall sx sy p, P p -> P (Player.respawn sx sy p).
Hypothesis P_dir : forall dx dy p, P p -> P (Player.set_dir dx dy p).
Hypothesis P_new :
  forall k nick sx sy col,
    P (Player.mk k nick sx sy Constants.INITIAL_RADIUS (Fin 0) (Fin 0) col
         (Constants.INITIAL_RADIUS * Constants.INITIAL_RADIUS)).

Lemma heap_all_movement (w : World) : heap_all P w -> heap_all P (movement w).
Proof.
  intros H. unfold movement. apply foldl_invariant; [done|].
  intros w' k _ H'. apply heap_all_update; auto.
Qed.

Lemma heap_all_pelletStep (k : nat) (w : World) (i : nat) :
  heap_all P w -> heap_all P (pelletStep k w i).
Proof.
  intros H. unfold pelletStep.
  destruct (heap w !! k) as [p|]; [|done].
  destruct (pellets w !! i) as [q|]; [|done].
  destruct (_ <? _)%num; [|done].
  apply (heap_all_update P k eatPellet w); auto.
Qed.

Lemma heap_all_pelletCollisions (w : World) :
  heap_all P w -> heap_all P (pelletCollisions w).
Proof.
  intros H. apply (pelletCollisions_invariant (heap_all P)); [|done].
  intros k w' i. apply heap_all_pelletStep.
Qed.

Lemma heap_all_handlePlayerDeath (b : nat) (w : World) :
  heap_all P w -> heap_all P (handlePlayerDeath b w).
Proof.
  intros H. destruct (heap w !! b) as [B|] eqn:EB.
  - destruct (handlePlayerDeath_spec b w B EB) as (Eh & _).
    intros k p. rewrite Eh. destruct (decide (k = b)) as [->|Hne].
    + rewrite lookup_alter_eq, EB. intros [= <-]. apply P_respawn. by apply (H b).
    + rewrite lookup_alter_ne by done. apply H.
  - unfold handlePlayerDeath. by rewrite EB.
Qed.

Lemma heap_all_collideStep (a : nat) (st : World * list nat) (b : nat) :
  heap_all P st.1 -> heap_all P (collideStep a st b).1.
Proof.
  intros H. destruct (collideStep_cases a st b)
    as [-> | (A & B & _ & EA & EB & _ & _ & _ & ->)]; [done|].
  cbn [fst]. apply heap_all_handlePlayerDeath, heap_all_update; [|done].
  intros p _ Hp. apply P_eat; [done|]. by apply (H b).
Qed.

Lemma heap_all_playerCollisions (w : World) :
  heap_all P w -> heap_all P (playerCollisions w).1.
Proof.
  intros H.
  apply (playerCollisions_invariant0 (fun st => heap_all P st.1)); [|done].
  intros a st b. apply heap_all_collideStep.
Qed.

Lemma heap_all_tick (w : World) : heap_all P w -> heap_all P (tick w).1.
Proof.
  intros H. unfold tick.
  pose proof (heap_all_playerCollisions _
                (heap_all_pelletCollisions _ (heap_all_movement _ H))) as H3.
  destruct (playerCollisions (pelletCollisions (movement w))) as [w3 eaten].
  cbn [fst] in *. intros k p. rewrite heap_removeEaten. apply H3.
Qed.

Lemma heap_all_input (k : nat) (msg : gmap string jsval) (w : World) :
  heap_all P w -> heap_all P (input k msg w).
Proof.
  intros H. unfold input.
  destruct (msg !! "dx"%string) as [[| |dx| |]|]; try done.
  destruct (msg !! "dy"%string) as [[| |dy| |]|]; try done.
  destruct (_ >? _)%num; apply heap_all_update; auto.
Qed.

Lemma heap_all_onClose (c : nat) (w : World) :
  heap_all P w -> heap_all P (onClose c w).
Proof.
  intros H. unfold onClose. destruct (sockets w !! c) as [k|]; [|done].
  by destruct (heap w !! k) as [p|].
Qed.

Lemma heap_all_step (e : event) (w w' : World) :
  step e w = Some w' -> heap_all P w -> heap_all P w'.
Proof.
  intros He H. destruct e as [|c data|c|]; simpl in He.
  - by injection He as <-.
  - destruct (onMessage c data w) as [[w1 r]|] eqn:E; [|done].
    injection He as <-. unfold onMessage in E.
    destruct data as [| | |msg];
      [by injection E as <- <- | done | by injection E as <- <- |].
    destruct (msg !! "type"%string) as [[| | |ty|]|];
      try by injection E as <- <-.
    destruct (String.eqb ty "join").
    + destruct (join c msg w) as [[w2 m]|] eqn:Ej; [|done].
      injection E as <- <-.
      destruct (join_cases _ _ _ _ _ Ej)
        as (nick & sx & sy & col & _ & _ & _ & Eh & _).
      intros k p. rewrite Eh, lookup_insert_Some.
      intros [[_ <-]|[_ Hk]]; [apply P_new | by apply (H k)].
    + destruct (String.eqb ty "input"); [|by injection E as <- <-].
      destruct (sockets w !! c) as [k|]; injection E as <- <-; [|done].
      by apply heap_all_input.
  - injection He as <-. by apply heap_all_onClose.
  - injection He as <-. by apply heap_all_tick.
Qed.

Lemma heap_all_run (es : list event) (w w' : World) :
  run es w = Some w' -> heap_all P w -> heap_all P w'.
Proof.
  revert w. induction es as [|e es IH]; intros w; simpl.
  - by intros [= <-].
  - destruct (step e w) as [w1|] eqn:E; [|done].
    intros Hr H. apply (IH w1 Hr). by apply (heap_all_step e w).
Qed.

End heap_invariant.

Lemma heap_init_world (rs : nat -> R) : heap (init_world rs) = ∅.
Proof.
  unfold init_world, initPellets.
  apply (foldl_invariant (fun w => heap w = ∅)); [done|].
  by intros w x _ H.
Qed.

Lemma heap_all_reachable (P : Player.t -> Prop) (rs : nat -> R) (w : World) :
  (forall p, P p -> P (movePlayer p)) ->
  (forall p, P p -> P (eatPellet p)) ->
  (forall a b, P a -> P b -> P (eatPlayer b a)) ->
  (forall sx sy p, P p -> P (Player.respawn sx sy p)) ->
  (forall dx dy p, P p -> P (Player.set_dir dx dy p)) ->
  (forall k nick sx sy col,
      P (Player.mk k nick sx sy Constants.INITIAL_RADIUS (Fin 0) (Fin 0) col
           (Constants.INITIAL_RADIUS * Constants.INITIAL_RADIUS))) ->
  reachable rs w -> heap_all P w.
Proof.
  intros H1 H2 H3 H4 H5 H6 [es Hr].
  apply (heap_all_run P H1 H2 H3 H4 H5 H6 es _ _ Hr).
  intros k p. by rewrite heap_init_world.
Qed.

Lemma sqrt_square_sum (r s : R) :
  0 <= s -> 10 <= r -> 10 <= sqrt (r * r + s) /\
  sqrt (r * r + s) * sqrt (r * r + s) = r * r + s.
Proof.
  intros Hs Hr. split.
  - rewrite <- (sqrt_square 10) by lra. apply sqrt_le_1_alt. nra.
  - apply sqrt_sqrt. nra.
Qed.

Lemma healthy_eatPellet (p : Player.t) : healthy p -> healthy (eatPellet p).
Proof.
  intros (r & Hr & Er & Es). unfold eatPellet. rewrite Er.
  cbn [num_mul num_add Constants.PELLET_RADIUS Player.set_area].
  exists (sqrt (r * r + 4 * 4)).
  destruct (sqrt_square_sum r (4 * 4)) as [H1 H2]; [lra | lra |].
  split; [done|]. unfold Player.set_area. cbn [Player.radius Player.score].
  split.
  - unfold Math.sqrt. destruct (Rlt_dec (r * r + 4 * 4) 0); [nra | done].
  - by rewrite H2.
Qed.

Lemma healthy_eatPlayer (a b : Player.t) :
  healthy a -> healthy b -> healthy (eatPlayer b a).
Proof.
  intros (r & Hr & Er & Es) (s & Hs & Fr & Fs). unfold eatPlayer.
  rewrite Er, Fr. cbn [num_mul num_add Player.set_area].
  exists (sqrt (r * r + s * s)).
  destruct (sqrt_square_sum r (s * s)) as [H1 H2]; [nra | lra |].
  split; [done|]. unfold Player.set_area. cbn [Player.radius Player.score].
  split.
  - unfold Math.sqrt. destruct (Rlt_dec (r * r + s * s) 0); [nra | done].
  - by rewrite H2.
Qed.

(** X5: in every state of a run, whatever the clients sent, the score of
    every player object is a finite number, 100 at least, and its radius is
    the square root of its score, so 10 at least. *)
Theorem radius_is_the_root_of_the_score
    (rs : nat -> R) (w : World) (k : nat) (p : Player.t) :
  reachable rs w -> heap w !! k = Some p ->
  exists r s,
    Player.radius p = Fin r /\ Player.score p = Fin s /\
    10 <= r /\ 100 <= s /\
    Player.radius p = Math.sqrt (Player.score p).
Proof.
  intros Hw Hp.
  assert (heap_all healthy w) as Hh.
  { apply (heap_all_reachable healthy rs); [| | | | | |done].
    - by intros q (r & ? & ? & ?); exists r.
    - apply healthy_eatPellet.
    - apply healthy_eatPlayer.
    - intros sx sy q _. exists 10. split; [lra|]. by split.
    - by intros dx dy q (r & ? & ? & ?); exists r.
    - intros j nick sx sy col. exists 10. split; [lra|]. by split. }
  destruct (Hh k p Hp) as (r & Hr & Er & Es). exists r, (r * r).
  split; [done|]. split; [done|]. split; [done|]. split; [nra|].
  rewrite Er, Es. unfold Math.sqrt.
  destruct (Rlt_dec (r * r) 0); [nra|]. by rewrite sqrt_square by lra.
Qed.

Lemma newcomer_score_is_100 :
  exists w r s,
    run (joins 1) (init_world zeros) = Some w /\
    Player.radius (spawned 1) = Fin r /\ Player.score (spawned 1) = Fin s /\
    10 <= r /\ 100 <= s.
Proof.
  destruct (run_joins 1) as (w & Hr & Hw).
  destruct (radius_is_the_root_of_the_score zeros w 1 (spawned 1))
    as (r & s & H1 & H2 & H3 & H4 & _).
  - exact (nursery_reachable _ _ Hw).
  - apply (nursery_lookup_Some 1 w 1 Hw). lia.
  - exists w, r, s. split; [exact Hr|]. split; [exact H1|].
    split; [exact H2|]. split; [exact H3 | exact H4].
Defined.

(** ** What happens to one object over a tick and over a run *)

Lemma healthy_movePlayer (p : Player.t) : healthy p -> healthy (movePlayer p).
Proof. by intros (r & ? & ? & ?); exists r. Qed.

Lemma healthy_respawn (sx sy : num) (p : Player.t) :
  healthy (Player.respawn sx sy p).
Proof. exists 10. split; [lra|]. by split. Qed.

Lemma healthy_set_dir (dx dy : num) (p : Player.t) :
  healthy p -> healthy (Player.set_dir dx dy p).
Proof. by intros (r & ? & ? & ?); exists r. Qed.

Lemma healthy_reachable (rs : nat -> R) (w : World) :
  reachable rs w -> heap_all healthy w.
Proof.
  apply heap_all_reachable.
  - apply healthy_movePlayer.
  - apply healthy_eatPellet.
  - apply healthy_eatPlayer.
  - intros sx sy p _. apply healthy_respawn.
  - apply healthy_set_dir.
  - intros k nick sx sy col. exists 10. split; [lra|]. by split.
Qed.

Lemma healthy_step (e : event) (w w' : World) :
  step e w = Some w' -> heap_all healthy w -> heap_all healthy w'.
Proof.
  apply heap_all_step.
  - apply healthy_movePlayer.
  - apply healthy_eatPellet.
  - apply healthy_eatPlayer.
  - intros sx sy p _. apply healthy_respawn.
  - apply healthy_set_dir.
  - intros k nick sx sy col. exists 10. split; [lra|]. by split.
Qed.

Lemma track_update (T : nat -> Player.t -> Player.t -> Prop) (k : nat)
    (f : Player.t -> Player.t) (w0 w : World) :
  (forall p q, heap w !! k = Some q -> T k p q -> T k p (f q)) ->
  track T w0 w -> track T w0 (update k f w).
Proof.
  intros Hf H j p Hp. destruct (H j p Hp) as (q & Hq & HT).
  unfold update. cbn [heap set_heap]. destruct (decide (j = k)) as [->|Hne].
  - exists (f q). rewrite lookup_alter_eq, Hq. split; [done|]. by apply Hf.
  - exists q. by rewrite lookup_alter_ne.
Qed.

Section two_states.

(** [Live] relates an object to what it has become while it has not been
    eaten, [Dead] once it has been eaten in the tick; [rs0] is what
    [Math.random] returns. *)
Variable rs0 : nat -> R.
Variables Live Dead : Player.t -> Player.t -> Prop.
Hypothesis Live_move : forall p q, Live p q -> Live p (movePlayer q).
Hypothesis Live_pellet : forall p q, healthy q -> Live p q -> Live p (eatPellet q).
Hypothesis Live_eat :
  forall p q b, healthy q -> healthy b -> Live p q -> Live p (eatPlayer b q).
Hypothesis Dead_eat :
  forall p q b, healthy q -> healthy b -> Dead p q -> Dead p (eatPlayer b q).
Hypothesis Live_Dead :
  forall p q w1,
    random_source w1 = rs0 -> Live p q ->
    Dead p (Player.respawn (getRandomSpawn w1).1.1 (getRandomSpawn w1).1.2 q).

Lemma track_movement (w0 w : World) :
  track (fun _ => Live) w0 w -> track (fun _ => Live) w0 (movement w).
Proof.
  intros H. unfold movement. apply foldl_invariant; [done|].
  intros w' k _ H'. apply track_update; [|done]. intros p q _. apply Live_move.
Qed.

Lemma track_pelletStep (w0 : World) (k : nat) (w : World) (i : nat) :
  heap_all healthy w -> track (fun _ => Live) w0 w ->
  track (fun _ => Live) w0 (pelletStep k w i).
Proof.
  intros Hh H. unfold pelletStep.
  destruct (heap w !! k) as [p|] eqn:Ep; [|done].
  destruct (pellets w !! i) as [q|]; [|done].
  destruct (_ <? _)%num; [|done].
  apply (track_update (fun _ => Live) k eatPellet w0 w); [|done].
  intros p0 q0 Hq0. apply Live_pellet. by apply (Hh k).
Qed.

Lemma track_pelletCollisions (w0 w : World) :
  heap_all healthy w -> track (fun _ => Live) w0 w ->
  heap_all healthy (pelletCollisions w) /\
  track (fun _ => Live) w0 (pelletCollisions w).
Proof.
  intros Hh H.
  apply (pelletCollisions_invariant
           (fun w' => heap_all healthy w' /\ track (fun _ => Live) w0 w'));
    [|done].
  intros k w' i [H1 H2]. split.
  - apply heap_all_pelletStep; [apply healthy_eatPellet | done].
  - by apply track_pelletStep.
Qed.

Lemma track_collideStep (w0 : World) (a : nat) (st : World * list nat)
    (b : nat) :
  ids_ok st.1 -> heap_all healthy st.1 -> random_source st.1 = rs0 ->
  track (fun k => if bool_decide (k ∈ st.2) then Dead else Live) w0 st.1 ->
  track (fun k => if bool_decide (k ∈ (collideStep a st b).2) then Dead else Live)
        w0 (collideStep a st b).1.
Proof.
  intros Hid Hh Hrs H. destruct (collideStep_cases a st b)
    as [-> | (A & B & Hab & EA & EB & _ & _ & Hnew & ->)]; [done|].
  assert (Player.id B = b) as Eid by (by apply Hid). rewrite Eid in *.
  cbn [fst snd]. intros k p Hp. destruct (H k p Hp) as (q & Hq & HT).
  destruct (handlePlayerDeath_spec b (update a (eatPlayer B) st.1) B)
    as (Eh & _).
  { unfold update. cbn [heap set_heap]. by rewrite lookup_alter_ne. }
  set (f := Player.respawn _ _) in Eh. rewrite Eh.
  unfold update. cbn [heap set_heap].
  destruct (decide (k = b)) as [->|Hkb].
  - rewrite lookup_alter_eq, lookup_alter_ne, Hq by done. eexists. split; [done|].
    rewrite bool_decide_eq_true_2 by (apply elem_of_app; right; by left).
    rewrite bool_decide_eq_false_2 in HT by done. unfold f. by apply Live_Dead.
  - rewrite lookup_alter_ne by done.
    assert (bool_decide (k ∈ st.2 ++ [b]) = bool_decide (k ∈ st.2)) as ->.
    { apply bool_decide_ext. rewrite elem_of_app, list_elem_of_singleton. tauto. }
    destruct (decide (k = a)) as [->|Hka].
    + rewrite lookup_alter_eq, Hq. eexists. split; [done|].
      assert (healthy q) by (by apply (Hh a)).
      assert (healthy B) by (by apply (Hh b)).
      destruct (bool_decide (a ∈ st.2)); auto.
    + rewrite lookup_alter_ne by done. by exists q.
Qed.

Lemma track_playerCollisions (w0 w : World) :
  ids_ok w -> heap_all healthy w -> random_source w = rs0 ->
  track (fun _ => Live) w0 w ->
  track (fun k => if bool_decide (k ∈ (playerCollisions w).2) then Dead else Live)
        w0 (playerCollisions w).1.
Proof.
  intros Hid Hh Hrs H.
  enough (ids_ok (playerCollisions w).1 /\
          heap_all healthy (playerCollisions w).1 /\
          random_source (playerCollisions w).1 = rs0 /\
          track (fun k => if bool_decide (k ∈ (playerCollisions w).2)
                          then Dead else Live) w0 (playerCollisions w).1)
    as (_ & _ & _ & H3); [exact H3|].
  pose (P := fun st : World * list nat =>
              ids_ok st.1 /\ heap_all healthy st.1 /\
              random_source st.1 = rs0 /\
              track (fun k => if bool_decide (k ∈ st.2) then Dead else Live)
                    w0 st.1).
  apply (playerCollisions_invariant0 P w); unfold P.
  - intros a st b (H1 & H2 & H3 & H4). split; [by apply ids_ok_collideStep|].
    split; [|split; [|by apply track_collideStep]].
    + apply heap_all_collideStep; [apply healthy_eatPlayer | | done].
      intros sx sy p _. apply healthy_respawn.
    + destruct (collideStep_frame st.1 a st b) as (_ & _ & _ & E & _);
        [done|]. by rewrite E.
  - split; [done|]. split; [done|]. split; [done|]. intros k p Hp.
    destruct (H k p Hp) as (q & Hq & HR). by exists q.
Qed.

Lemma track_tick (w0 w : World) :
  wf w -> heap_all healthy w -> random_source w = rs0 ->
  track (fun _ => Live) w0 w ->
  track (fun k => if bool_decide (k ∈ eatenInTick w) then Dead else Live)
        w0 (tick w).1.
Proof.
  intros Hw Hh Hrs H. unfold eatenInTick, tick.
  destruct (track_pelletCollisions w0 (movement w)) as [Hh2 H2].
  { apply heap_all_movement; [apply healthy_movePlayer | done]. }
  { by apply track_movement. }
  destruct (before_collisions_frame w) as (_ & _ & _ & _ & _ & Ers & _).
  cbv zeta in Ers.
  pose proof (track_playerCollisions w0 _
                (wf_ids _ (wf_pelletCollisions _ (wf_movement _ Hw))) Hh2
                ltac:(by rewrite Ers) H2)
    as H3.
  destruct (playerCollisions (pelletCollisions (movement w))) as [w3 eaten].
  cbn [fst snd] in *. intros k p Hp. rewrite heap_removeEaten. by apply H3.
Qed.

End two_states.

Section one_relation.

Variable Live : Player.t -> Player.t -> Prop.
Hypothesis Live_move : forall p q, Live p q -> Live p (movePlayer q).
Hypothesis Live_pellet : forall p q, healthy q -> Live p q -> Live p (eatPellet q).
Hypothesis Live_eat :
  forall p q b, healthy q -> healthy b -> Live p q -> Live p (eatPlayer b q).
Hypothesis Live_respawn : forall p q sx sy, Live p q -> Live p (Player.respawn sx sy q).
Hypothesis Live_dir : forall p q dx dy, Live p q -> Live p (Player.set_dir dx dy q).

Lemma track_input (w0 : World) (k : nat) (msg : gmap string jsval) (w : World) :
  track (fun _ => Live) w0 w -> track (fun _ => Live) w0 (input k msg w).
Proof.
  intros H. unfold input.
  destruct (msg !! "dx"%string) as [[| |dx| |]|]; try done.
  destruct (msg !! "dy"%string) as [[| |dy| |]|]; try done.
  destruct (_ >? _)%num; apply track_update; auto.
Qed.

Lemma track_step (w0 : World) (e : event) (w w' : World) :
  wf w -> heap_all healthy w -> track (fun _ => Live) w0 w ->
  step e w = Some w' -> track (fun _ => Live) w0 w'.
Proof.
  intros Hw Hh H He. destruct e as [|c data|c|]; simpl in He.
  - by injection He as <-.
  - destruct (onMessage c data w) as [[w1 r]|] eqn:E; [|done].
    injection He as <-. unfold onMessage in E.
    destruct data as [| | |msg];
      [by injection E as <- <- | done | by injection E as <- <- |].
    destruct (msg !! "type"%string) as [[| | |ty|]|];
      try by injection E as <- <-.
    destruct (String.eqb ty "join").
    + destruct (join c msg w) as [[w2 m]|] eqn:Ej; [|done].
      injection E as <- <-.
      destruct (join_cases _ _ _ _ _ Ej)
        as (nick & sx & sy & col & _ & _ & _ & Eh & _).
      intros k p Hp. destruct (H k p Hp) as (q & Hq & HR). exists q.
      split; [|done]. rewrite Eh, lookup_insert_ne; [done|].
      intros <-. pose proof (wf_fresh _ Hw (nextPlayerId w)) as Hf.
      rewrite Hq in Hf. specialize (Hf (mk_is_Some _ _ eq_refl)). lia.
    + destruct (String.eqb ty "input"); [|by injection E as <- <-].
      destruct (sockets w !! c) as [k|]; injection E as <- <-; [|done].
      by apply track_input.
  - injection He as <-. unfold onClose.
    destruct (sockets w !! c) as [k|]; [|done].
    by destruct (heap w !! k) as [p|].
  - injection He as <-. intros k p Hp.
    destruct (track_tick (random_source w) Live Live Live_move Live_pellet Live_eat Live_eat
                (fun p q w1 _ => Live_respawn p q _ _)
                w0 w Hw Hh eq_refl H k p Hp) as (q & Hq & HR).
    exists q. split; [done|]. by destruct (bool_decide _).
Qed.

Lemma track_run (w0 : World) (es : list event) (w w' : World) :
  wf w -> heap_all healthy w -> track (fun _ => Live) w0 w ->
  run es w = Some w' -> track (fun _ => Live) w0 w'.
Proof.
  revert w. induction es as [|e es IH]; intros w Hw Hh H; simpl.
  - by intros [= <-].
  - destruct (step e w) as [w1|] eqn:E; [|done]. apply IH.
    + by apply (wf_step e w).
    + by apply (healthy_step e w).
    + by apply (track_step w0 e w).
Qed.

End one_relation.

Lemma le_sqrt_sum (r s : R) : 0 <= r -> 0 <= s -> r <= sqrt (r * r + s).
Proof.
  intros Hr Hs. rewrite <- (sqrt_square r) at 1 by done.
  apply sqrt_le_1_alt. lra.
Qed.

Lemma radius_eatPellet (q : Player.t) (r : R) :
  0 <= r -> Player.radius q = Fin r ->
  exists r', Player.radius (eatPellet q) = Fin r' /\ r <= r'.
Proof.
  intros Hr E. exists (sqrt (r * r + 4 * 4)). split; [|apply le_sqrt_sum; lra].
  unfold eatPellet, Player.set_area. rewrite E.
  cbn [Player.radius num_mul num_add Constants.PELLET_RADIUS].
  unfold Math.sqrt. destruct (Rlt_dec (r * r + 4 * 4) 0); [nra | done].
Qed.

Lemma radius_eatPlayer (q b : Player.t) (r s : R) :
  0 <= r -> Player.radius q = Fin r -> Player.radius b = Fin s ->
  exists r', Player.radius (eatPlayer b q) = Fin r' /\ r <= r'.
Proof.
  intros Hr E F. exists (sqrt (r * r + s * s)).
  split; [|apply le_sqrt_sum; nra].
  unfold eatPlayer, Player.set_area. rewrite E, F.
  cbn [Player.radius num_mul num_add].
  unfold Math.sqrt. destruct (Rlt_dec (r * r + s * s) 0); [nra | done].
Qed.

Lemma getRandomSpawn_area (w : World) :
  random_ok (random_source w) ->
  spawn_area (getRandomSpawn w).1.1 (getRandomSpawn w).1.2.
Proof.
  intros H. unfold getRandomSpawn, random.
  cbn [fst snd random_source random_count Constants.MAP_WIDTH
       Constants.MAP_HEIGHT num_mul num_sub num_add num_neg].
  eexists _, _. split; [done|]. split; [done|].
  pose proof (H (random_count w)). pose proof (H (S (random_count w))).
  split; lra.
Qed.

Lemma step_random_source (e : event) (w w' : World) :
  step e w = Some w' -> random_source w' = random_source w.
Proof.
  intros He. destruct e as [|c data|c|]; simpl in He.
  - by injection He as <-.
  - destruct (onMessage c data w) as [[w1 r]|] eqn:E; [|done].
    injection He as <-. unfold onMessage in E.
    destruct data as [| | |msg];
      [by injection E as <- <- | done | by injection E as <- <- |].
    destruct (msg !! "type"%string) as [[| | |ty|]|];
      try by injection E as <- <-.
    destruct (String.eqb ty "join").
    + destruct (join c msg w) as [[w2 m]|] eqn:Ej; [|done].
      injection E as <- <-.
      by destruct (join_cases _ _ _ _ _ Ej)
        as (nick & sx & sy & col & _ & _ & _ & _ & _ & _ & _ & _ & _ & _ & _
            & E & _).
    + destruct (String.eqb ty "input"); [|by injection E as <- <-].
      destruct (sockets w !! c) as [j|]; injection E as <- <-; [|done].
      by destruct (input_frame j msg w) as (_ & _ & _ & _ & _ & _ & _ & -> & _).
  - injection He as <-. apply onClose_pellets.
  - injection He as <-.
    destruct (before_collisions_frame w) as (_ & _ & _ & _ & _ & E & _).
    pose proof (playerCollisions_frame (pelletCollisions (movement w)))
      as (_ & _ & _ & E3 & _).
    unfold tick.
    destruct (playerCollisions (pelletCollisions (movement w))) as [w3 eaten].
    destruct (removeEaten_frame eaten w3) as (_ & _ & _ & _ & _ & E4).
    simpl in *. by rewrite E4, E3, E.
Qed.

Lemma reachable_random_source (rs : nat -> R) (w : World) :
  reachable rs w -> random_source w = rs.
Proof.
  intros [es Hr].
  assert (random_source (init_world rs) = rs) as E0.
  { unfold init_world, initPellets.
    apply (foldl_invariant (fun w => random_source w = rs)); [done|].
    by intros w0 x _ H. }
  revert Hr E0. generalize (init_world rs). clear.
  induction es as [|e es IH]; intros w0; simpl.
  - by intros [= <-].
  - destruct (step e w0) as [w1|] eqn:E; [|done]. intros Hr E0.
    apply (IH w1 Hr). by rewrite (step_random_source _ _ _ E).
Qed.

(** X6: a player that the tick does not eat comes out of it no smaller
    than it went in and with a score that is no lower, and with the
    heading, id, name and colour it had: within a tick a score goes down
    only by being eaten, and a heading changes only by being eaten. *)
Theorem survivor_of_a_tick_does_not_shrink
    (rs : nat -> R) (w : World) (k : nat) (p : Player.t) :
  reachable rs w -> heap w !! k = Some p -> k ∉ eatenInTick w ->
  exists p' r r' s s',
    heap (tick w).1 !! k = Some p' /\
    Player.radius p = Fin r /\ Player.radius p' = Fin r' /\ r <= r' /\
    Player.score p = Fin s /\ Player.score p' = Fin s' /\ s <= s' /\
    Player.dirX p' = Player.dirX p /\ Player.dirY p' = Player.dirY p /\
    Player.id p' = Player.id p /\ Player.name p' = Player.name p /\
    Player.color p' = Player.color p.
Proof.
  intros Hr Hp Hk.
  pose (Live := fun p q : Player.t =>
    (exists r r', 0 <= r /\ Player.radius p = Fin r /\
                  Player.radius q = Fin r' /\ r <= r') /\
    Player.dirX q = Player.dirX p /\ Player.dirY q = Player.dirY p /\
    Player.id q = Player.id p /\ Player.name q = Player.name p /\
    Player.color q = Player.color p).
  pose proof (healthy_reachable _ _ Hr) as Hh.
  assert (forall a q, Live a q -> Live a (movePlayer q)) as Hmove.
  { intros a q. unfold Live. by destruct 1. }
  assert (forall a q, healthy q -> Live a q -> Live a (eatPellet q)) as Hpellet.
  { intros a q (s & Hs & Es & _) ((r & r' & H0 & E1 & E2 & Hle) & HR).
    split; [|done]. rewrite E2 in Es. injection Es as ->.
    destruct (radius_eatPellet q s) as (r'' & E3 & Hle'); [lra | done |].
    exists r, r''. repeat split; try done. lra. }
  assert (forall a q b, healthy q -> healthy b -> Live a q ->
                        Live a (eatPlayer b q)) as Heat.
  { intros a q b (s & Hs & Es & _) (t & Ht & Et & _)
           ((r & r' & H0 & E1 & E2 & Hle) & HR).
    split; [|done]. rewrite E2 in Es. injection Es as ->.
    destruct (radius_eatPlayer q b s t) as (r'' & E3 & Hle');
      [lra | done | done |].
    exists r, r''. repeat split; try done. lra. }
  assert (track (fun _ => Live) w w) as Hrefl.
  { intros j q Hq. exists q. split; [done|].
    destruct (Hh j q Hq) as (s & Hs & Es & _).
    split; [|done]. exists s, s. repeat split; try done; lra. }
  destruct (track_tick (random_source w) Live (fun _ _ => True)
              Hmove Hpellet Heat
              (fun _ _ _ _ _ _ => I) (fun _ _ _ _ _ => I)
              w w (reachable_wf _ _ Hr) Hh eq_refl Hrefl k p Hp)
    as (p' & Hp' & HR).
  rewrite bool_decide_eq_false_2 in HR by done.
  destruct HR as ((r & r' & H0 & E1 & E2 & Hle) & HR).
  destruct (Hh k p Hp) as (s & Hs & Es & Ess). rewrite E1 in Es.
  injection Es as <-.
  assert (heap_all healthy (tick w).1) as Hh'.
  { by apply (healthy_step Tick w). }
  destruct (Hh' k p' Hp') as (s' & Hs' & Es' & Ess'). rewrite E2 in Es'.
  injection Es' as <-.
  exists p', r, r', (r * r), (r' * r').
  repeat split; try done; try tauto. nra.
Qed.

Lemma twins_winner_grows :
  exists w p' r r',
    run (joins 2) (init_world zeros) = Some w /\
    heap (tick w).1 !! 1%nat = Some p' /\
    Player.radius (spawned 1) = Fin r /\ Player.radius p' = Fin r' /\
    r <= r' /\
    Player.dirX p' = Fin 0 /\ Player.name p' = "Ann"%string.
Proof.
  destruct (run_joins 2) as (w & Hr & Hw).
  destruct (survivor_of_a_tick_does_not_shrink zeros w 1 (spawned 1))
    as (p' & r & r' & s & s' & H1 & H2 & H3 & H4 & _ & _ & _ & H6 & _ & _
        & H7 & _).
  - exact (nursery_reachable _ _ Hw).
  - apply (nursery_lookup_Some 2 w 1 Hw). lia.
  - rewrite (twins_eaten _ Hw). intros H.
    apply list_elem_of_singleton in H. discriminate H.
  - exists w, p', r, r'. split; [exact Hr|]. split; [exact H1|].
    split; [exact H2|]. split; [exact H3|]. split; [exact H4|].
    split; [exact H6 | exact H7].
Defined.

(** X7: a player that the tick eats is still allocated after it, under
    the id, name and colour it had.  It stands still, both components of
    its heading being 0 until its connection sends an input, at a position
    that [getRandomSpawn] drew: 50 at least from every edge of the map when
    [Math.random] returns numbers from 0 up to 1. *)
Theorem eaten_player_is_reset
    (rs : nat -> R) (w : World) (k : nat) (p : Player.t) :
  random_ok rs ->
  reachable rs w -> heap w !! k = Some p -> k ∈ eatenInTick w ->
  exists p' x y,
    heap (tick w).1 !! k = Some p' /\
    Player.x p' = Fin x /\ Player.y p' = Fin y /\
    50 <= x < 1950 /\ 50 <= y < 1950 /\
    Player.dirX p' = Fin 0 /\ Player.dirY p' = Fin 0 /\
    Player.id p' = Player.id p /\ Player.name p' = Player.name p /\
    Player.color p' = Player.color p.
Proof.
  intros Hrs Hr Hp Hk.
  pose (Live := fun p q : Player.t =>
    Player.id q = Player.id p /\ Player.name q = Player.name p /\
    Player.color q = Player.color p).
  pose (Dead := fun p q : Player.t =>
    spawn_area (Player.x q) (Player.y q) /\
    Player.dirX q = Fin 0 /\ Player.dirY q = Fin 0 /\ Live p q).
  assert (track (fun _ => Live) w w) as Hrefl.
  { intros j q Hq. by exists q. }
  destruct (track_tick (random_source w) Live Dead) with (w0 := w) (w := w)
    (k := k) (p := p) as (p' & Hp' & HR);
    [by destruct 1 | by destruct 2 | by destruct 3
    | by intros a q b _ _ (? & ? & ? & ?) |
    | by apply (reachable_wf rs) | by apply (healthy_reachable rs)
    | done | done | done |].
  - intros a q w1 E (H1 & H2 & H3). split; [|done].
    apply getRandomSpawn_area. rewrite E.
    by rewrite (reachable_random_source rs w Hr).
  - rewrite bool_decide_eq_true_2 in HR by done.
    destruct HR as ((x & y & Ex & Ey & Hx & Hy) & H2 & H3 & H4 & H5 & H6).
    by exists p', x, y.
Qed.

Lemma twins_loser_is_reset :
  exists w p',
    run (joins 2) (init_world zeros) = Some w /\
    heap (tick w).1 !! 2%nat = Some p' /\
    Player.dirX p' = Fin 0 /\ Player.dirY p' = Fin 0 /\
    Player.id p' = 2%nat /\ Player.name p' = "Ann"%string.
Proof.
  destruct (run_joins 2) as (w & Hr & Hw).
  destruct (eaten_player_is_reset zeros w 2 (spawned 2))
    as (p' & x & y & H1 & _ & _ & _ & _ & H2 & H3 & H4 & H5 & _).
  - intros n. unfold zeros. lra.
  - exact (nursery_reachable _ _ Hw).
  - apply (nursery_lookup_Some 2 w 2 Hw). lia.
  - rewrite (twins_eaten _ Hw). apply list_elem_of_singleton. reflexivity.
  - exists w, p'. split; [exact Hr|]. split; [exact H1|].
    split; [exact H2|]. split; [exact H3|]. split; [exact H4 | exact H5].
Defined.

(** X8: a player object stays allocated for the rest of the run and keeps
    its id, name and colour, whatever is sent and however often it is
    eaten. *)
Theorem player_keeps_id_name_and_colour
    (rs : nat -> R) (es : list event) (w w' : World) (k : nat) (p : Player.t) :
  reachable rs w -> run es w = Some w' -> heap w !! k = Some p ->
  exists p',
    heap w' !! k = Some p' /\ Player.id p' = k /\
    Player.name p' = Player.name p /\ Player.color p' = Player.color p.
Proof.
  intros Hr He Hp.
  pose (Live := fun p q : Player.t =>
    Player.id q = Player.id p /\ Player.name q = Player.name p /\
    Player.color q = Player.color p).
  assert (track (fun _ => Live) w w) as Hrefl.
  { intros j q Hq. by exists q. }
  destruct (track_run Live) with (w0 := w) (es := es) (w := w) (w' := w')
    (k := k) (p := p) as (p' & Hp' & H1 & H2 & H3);
    [by destruct 1 | by destruct 2 | by destruct 3 | by destruct 1
    | by destruct 1
    | by apply (reachable_wf rs) | by apply (healthy_reachable rs)
    | done | done | done |].
  exists p'. split; [done|]. split; [|done]. rewrite H1.
  by apply (wf_ids _ (reachable_wf _ _ Hr)).
Qed.

Lemma eaten_twin_is_still_Ann :
  exists w w' p',
    run (joins 2) (init_world zeros) = Some w /\
    run [Tick; Tick] w = Some w' /\
    heap w' !! 2%nat = Some p' /\ Player.id p' = 2%nat /\
    Player.name p' = "Ann"%string.
Proof.
  destruct (run_joins 2) as (w & Hr & Hw).
  destruct (player_keeps_id_name_and_colour zeros [Tick; Tick] w
              (tick (tick w).1).1 2 (spawned 2))
    as (p' & H1 & H2 & H3 & _).
  - exact (nursery_reachable _ _ Hw).
  - reflexivity.
  - apply (nursery_lookup_Some 2 w 2 Hw). lia.
  - exists w, (tick (tick w).1).1, p'. split; [exact Hr|].
    split; [reflexivity|]. split; [exact H1|]. split; [exact H2 | exact H3].
Defined.

(** ** The keys of the Map *)

Lemma players_removeEaten_filter (eaten : list nat) (w : World) :
  players (removeEaten eaten w) = filter (fun k => k ∉ eaten) (players w).
Proof.
  unfold removeEaten. revert w.
  induction eaten as [|id eaten IH]; intros w; cbn [foldl].
  - symmetry. induction (players w) as [|k l IHl]; [done|].
    rewrite filter_cons_True by apply not_elem_of_nil. by rewrite IHl.
  - rewrite IH. cbn [players set_players]. unfold Map_delete.
    rewrite list_filter_filter. apply list_filter_iff. intros k.
    rewrite not_elem_of_cons. tauto.
Qed.

Lemma eaten_are_keys (w : World) :
  wf w -> forall k, k ∈ (playerCollisions w).2 -> k ∈ players w.
Proof.
  intros Hw.
  pose (P := fun st : World * list nat =>
              wf st.1 /\ forall k, k ∈ st.2 -> k ∈ players w).
  enough (P (playerCollisions w) /\
          players (playerCollisions w).1 = players w) as [[_ H] _]; [done|].
  apply (playerCollisions_invariant P w); unfold P.
  - intros a st b Ha Hb Hpl [H1 H2].
    destruct (wf_collideStep a st b) as [Hwf Epl]; [by rewrite Hpl | done |].
    split; [split; [done|] | by rewrite Epl].
    destruct (collideStep_cases a st b)
      as [-> | (A & B & _ & _ & EB & _ & _ & _ & ->)]; [done|].
    cbn [snd]. intros k. rewrite elem_of_app, list_elem_of_singleton.
    intros [Hk | ->]; [by apply H2|]. by rewrite (wf_ids _ H1 b B EB).
  - split; [done|]. intros k Hk. by apply elem_of_nil in Hk.
Qed.

Lemma tick_players (w : World) :
  wf w ->
  players (tick w).1 = filter (fun k => k ∉ eatenInTick w) (players w).
Proof.
  intros Hw. destruct (before_collisions_frame w) as (_ & _ & _ & Epl & _).
  destruct (wf_playerCollisions (pelletCollisions (movement w)))
    as [_ Epl3]; [by apply wf_pelletCollisions, wf_movement|].
  unfold tick, eatenInTick.
  destruct (playerCollisions (pelletCollisions (movement w))) as [w3 eaten].
  cbn [fst snd] in *. by rewrite players_removeEaten_filter, Epl3, Epl.
Qed.

Lemma tick_nextPlayerId (w : World) : nextPlayerId (tick w).1 = nextPlayerId w.
Proof.
  destruct (before_collisions_frame w) as (_ & _ & _ & _ & _ & _ & _ & En).
  pose proof (playerCollisions_frame (pelletCollisions (movement w)))
    as (_ & En3 & _).
  unfold tick.
  destruct (playerCollisions (pelletCollisions (movement w))) as [w3 eaten].
  destruct (removeEaten_frame eaten w3) as (_ & _ & _ & _ & En4 & _).
  simpl in *. by rewrite En4, En3, En.
Qed.

(** X9: what a tick does to the Map: the keys it leaves are those of the
    players it has not eaten, in the order they had; every player it has
    eaten was a key; it changes neither the player a connection holds nor
    the next id. *)
Theorem tick_keeps_the_players_not_eaten (w : World) :
  wf w ->
  players (tick w).1 = filter (fun k => k ∉ eatenInTick w) (players w) /\
  (forall k, k ∈ eatenInTick w -> k ∈ players w) /\
  sockets (tick w).1 = sockets w /\
  nextPlayerId (tick w).1 = nextPlayerId w.
Proof.
  intros Hw. split; [by apply tick_players|]. split.
  - intros k Hk. destruct (before_collisions_frame w) as (_ & _ & _ & <- & _).
    apply eaten_are_keys; [|done]. by apply wf_pelletCollisions, wf_movement.
  - split; [apply tick_sockets | apply tick_nextPlayerId].
Qed.

Lemma twins_tick_leaves_the_first :
  exists w,
    run (joins 2) (init_world zeros) = Some w /\
    players w = [1; 2]%nat /\ players (tick w).1 = [1%nat].
Proof.
  destruct (run_joins 2) as (w & Hr & Hw). exists w.
  destruct (tick_keeps_the_players_not_eaten w) as (H & _).
  - exact (reachable_wf _ _ (nursery_reachable _ _ Hw)).
  - split; [exact Hr|]. split; [exact (nursery_players _ _ Hw)|].
    rewrite H, (twins_eaten _ Hw), (nursery_players _ _ Hw). reflexivity.
Defined.

Lemma step_players (e : event) (w w' : World) (k : nat) :
  wf w -> step e w = Some w' -> k ∈ players w' ->
  k ∈ players w \/ k = nextPlayerId w.
Proof.
  intros Hw He Hk. destruct e as [|c data|c|]; simpl in He.
  - injection He as <-. by left.
  - destruct (onMessage c data w) as [[w1 r]|] eqn:E; [|done].
    injection He as <-. unfold onMessage in E.
    destruct data as [| | |msg];
      [injection E as <- <-; by left | done
      | injection E as <- <-; by left |].
    destruct (msg !! "type"%string) as [[| | |ty|]|];
      try (injection E as <- <-; by left).
    destruct (String.eqb ty "join").
    + destruct (join c msg w) as [[w2 m]|] eqn:Ej; [|done].
      injection E as <- <-.
      destruct (join_cases _ _ _ _ _ Ej)
        as (nick & sx & sy & col & _ & _ & _ & _ & Epl & _).
      rewrite Epl in Hk. unfold Map_set in Hk.
      destruct (bool_decide _); [by left|].
      apply elem_of_app in Hk as [Hk|Hk]; [by left|].
      right. by apply list_elem_of_singleton in Hk.
    + destruct (String.eqb ty "input"); [|injection E as <- <-; by left].
      destruct (sockets w !! c) as [j|]; injection E as <- <-; [|by left].
      left. destruct (input_frame j msg w) as (<- & _). done.
  - injection He as <-. left. revert Hk. unfold onClose.
    destruct (sockets w !! c) as [j|]; [|done].
    destruct (heap w !! j) as [p|]; [|done].
    cbn [players set_sockets set_players]. rewrite elem_of_Map_delete. tauto.
  - injection He as <-. left. rewrite tick_players in Hk by done.
    by apply list_elem_of_filter in Hk as [_ Hk].
Qed.

Lemma step_nextPlayerId (e : event) (w w' : World) :
  step e w = Some w' -> (nextPlayerId w <= nextPlayerId w')%nat.
Proof.
  intros He. destruct e as [|c data|c|]; simpl in He.
  - by injection He as <-.
  - destruct (onMessage c data w) as [[w1 r]|] eqn:E; [|done].
    injection He as <-. unfold onMessage in E.
    destruct data as [| | |msg];
      [by injection E as <- <- | done | by injection E as <- <- |].
    destruct (msg !! "type"%string) as [[| | |ty|]|];
      try by injection E as <- <-.
    destruct (String.eqb ty "join").
    + destruct (join c msg w) as [[w2 m]|] eqn:Ej; [|done].
      injection E as <- <-.
      destruct (join_cases _ _ _ _ _ Ej)
        as (nick & sx & sy & col & _ & _ & _ & _ & _ & _ & _ & En & _).
      rewrite En. lia.
    + destruct (String.eqb ty "input"); [|by injection E as <- <-].
      destruct (sockets w !! c) as [j|]; injection E as <- <-; [|done].
      destruct (input_frame j msg w) as (_ & _ & _ & -> & _). done.
  - injection He as <-. unfold onClose.
    destruct (sockets w !! c) as [j|]; [|done].
    by destruct (heap w !! j) as [p|].
  - injection He as <-. by rewrite tick_nextPlayerId.
Qed.

Lemma run_players (es : list event) (w w' : World) (k : nat) :
  wf w -> run es w = Some w' -> k ∈ players w' ->
  (nextPlayerId w <= nextPlayerId w')%nat /\
  (k ∈ players w \/ (nextPlayerId w <= k < nextPlayerId w')%nat).
Proof.
  revert w. induction es as [|e es IH]; intros w Hw; simpl.
  - intros [= <-] Hk. split; [lia | by left].
  - destruct (step e w) as [w1|] eqn:E; [|done]. intros Hr Hk.
    pose proof (step_nextPlayerId _ _ _ E) as Hn.
    destruct (IH w1 (wf_step _ _ _ E Hw) Hr Hk) as [Hn1 [H|H]].
    + split; [lia|].
      destruct (step_players e w w1 k Hw E H) as [H'| ->]; [by left|].
      right. split; [lia|]. 
      pose proof (wf_fresh _ (wf_step _ _ _ E Hw) (nextPlayerId w)
                    (wf_live _ (wf_step _ _ _ E Hw) _ H)). lia.
    + split; [lia|]. right. lia.
Qed.

(** X10: a key enters the Map only through a join, under an id that no
    player has had before.  So a key that has left the Map, because its
    connection closed or because its player was eaten, is in the Map of no
    later state of the run. *)
Theorem key_enters_the_Map_by_a_join_only
    (rs : nat -> R) (es : list event) (w w' : World) (k : nat) :
  reachable rs w -> run es w = Some w' ->
  (k ∈ players w' ->
   k ∈ players w \/ (nextPlayerId w <= k < nextPlayerId w')%nat) /\
  ((k < nextPlayerId w)%nat -> k ∉ players w -> k ∉ players w').
Proof.
  intros Hw Hr. pose proof (reachable_wf _ _ Hw) as Hwf. split.
  - intros Hk. by destruct (run_players es w w' k Hwf Hr Hk).
  - intros Hlt Hn Hk. destruct (run_players es w w' k Hwf Hr Hk) as [_ [H|H]];
      [done | lia].
Qed.

Lemma eaten_twin_never_returns :
  exists w w',
    run (joins 2) (init_world zeros) = Some w /\
    run [Tick; Tick] w = Some w' /\
    (2%nat ∉ players w').
Proof.
  destruct (run_joins 2) as (w & Hr & Hw).
  exists w, (tick (tick w).1).1. split; [exact Hr|]. split; [reflexivity|].
  pose proof (reachable_wf _ _ (nursery_reachable _ _ Hw)) as Hwf.
  destruct (key_enters_the_Map_by_a_join_only zeros [Tick] (tick w).1
              (tick (tick w).1).1 2) as [_ H].
  - apply (reachable_step zeros Tick w); [|reflexivity].
    exact (nursery_reachable _ _ Hw).
  - reflexivity.
  - apply H.
    + rewrite tick_nextPlayerId, (nursery_next _ _ Hw). lia.
    + rewrite (tick_players w Hwf), (twins_eaten _ Hw),
        (nursery_players _ _ Hw).
      intros H2. apply list_elem_of_singleton in H2. discriminate H2.
Defined.

(** ** The messages the server sends *)

Lemma omap_lookup_ids (w : World) (l : list nat) :
  ids_ok w -> (forall k, k ∈ l -> is_Some (heap w !! k)) ->
  Player.id <$> omap (fun k => heap w !! k) l = l.
Proof.
  intros Hid. induction l as [|k l IH]; intros Hl; [done|].
  destruct (Hl k) as [p Hp]; [by left|].
  cbn [omap list_omap]. rewrite Hp. cbn [fmap list_fmap].
  rewrite (Hid k p Hp). f_equal. apply IH. intros j Hj. apply Hl. by right.
Qed.

Lemma players_values_ids (w : World) :
  wf w -> Player.id <$> players_values w = players w.
Proof.
  intros Hw. apply omap_lookup_ids; [apply (wf_ids _ Hw) | apply (wf_live _ Hw)].
Qed.

Lemma players_values_elem (w : World) (p : Player.t) :
  p ∈ players_values w ->
  exists k, k ∈ players w /\ heap w !! k = Some p.
Proof.
  unfold players_values. rewrite list_elem_of_omap. by intros (k & Hk & Hp); exists k.
Qed.

Lemma tick_message (w : World) : (tick w).2 = stateUpdate (tick w).1.
Proof.
  unfold tick.
  by destruct (playerCollisions (pelletCollisions (movement w))) as [w3 eaten].
Qed.

Lemma floor_square (r : R) :
  10 <= r -> exists z, Math.floor (Fin (r * r)) = Fin (IZR z) /\ (100 <= z)%Z.
Proof.
  intros Hr. exists (Zfloor (r * r)). split; [done|].
  apply Zfloor_lub. change (IZR 100) with 100. nra.
Qed.

(** X11: the update a tick broadcasts lists the players of the Map as the
    tick leaves it, each key once and in the order of the Map, with the
    fields of its object and its score rounded down, a whole number of 100
    at least; a player the tick has eaten is not in it.  The pellets of the
    message are those of the state. *)
Theorem update_message_lists_the_Map (rs : nat -> R) (w : World) :
  reachable rs w ->
  let w' := (tick w).1 in
  let m := (tick w).2 in
  Snapshot.id <$> UpdateMsg.players m = players w' /\
  NoDup (Snapshot.id <$> UpdateMsg.players m) /\
  UpdateMsg.pellets m = pellets w' /\
  (forall e, e ∈ UpdateMsg.players m ->
     exists p z, heap w' !! Snapshot.id e = Some p /\
       Snapshot.name e = Player.name p /\
       Snapshot.x e = Player.x p /\ Snapshot.y e = Player.y p /\
       Snapshot.radius e = Player.radius p /\
       Snapshot.color e = Player.color p /\
       Snapshot.score e = Math.floor (Player.score p) /\
       Snapshot.score e = Fin (IZR z) /\ (100 <= z)%Z) /\
  (forall k, k ∈ eatenInTick w -> k ∉ Snapshot.id <$> UpdateMsg.players m).
Proof.
  intros Hr w' m.
  pose proof (reachable_wf _ _ Hr) as Hw.
  assert (reachable rs w') as Hr' by (by apply (reachable_step rs Tick w)).
  pose proof (reachable_wf _ _ Hr') as Hw'.
  assert (Snapshot.id <$> UpdateMsg.players m = players w') as Eids.
  { unfold m. rewrite tick_message. cbn [stateUpdate UpdateMsg.players].
    rewrite <- list_fmap_compose. by apply players_values_ids. }
  split; [done|]. split; [rewrite Eids; apply (wf_nodup _ Hw')|].
  split; [unfold m; by rewrite tick_message|]. split.
  - intros e. unfold m. rewrite tick_message.
    cbn [stateUpdate UpdateMsg.players]. rewrite list_elem_of_fmap.
    intros (p & -> & Hp).
    destruct (players_values_elem _ _ Hp) as (k & _ & Hk).
    destruct (healthy_reachable rs w' Hr' k p Hk) as (r & Hr10 & _ & Es).
    destruct (floor_square r Hr10) as (z & Ez & Hz).
    exists p, z. cbn [update_entry Snapshot.id Snapshot.name Snapshot.x
      Snapshot.y Snapshot.radius Snapshot.color Snapshot.score].
    rewrite (wf_ids _ Hw' k p Hk). split; [done|].
    repeat (split; [done|]). rewrite Es. by split.
  - intros k Hk. rewrite Eids. unfold w'. rewrite (tick_players w Hw).
    rewrite list_elem_of_filter. tauto.
Qed.

Lemma twins_update_message :
  exists w,
    run (joins 2) (init_world zeros) = Some w /\
    Snapshot.id <$> UpdateMsg.players (tick w).2 = [1%nat] /\
    UpdateMsg.pellets (tick w).2 = pellets (tick w).1.
Proof.
  destruct (run_joins 2) as (w & Hr & Hw). exists w.
  destruct (update_message_lists_the_Map zeros w) as (H1 & _ & H2 & _).
  - exact (nursery_reachable _ _ Hw).
  - split; [exact Hr|]. split; [|exact H2].
    rewrite H1, (tick_players w (reachable_wf _ _ (nursery_reachable _ _ Hw))),
      (twins_eaten _ Hw), (nursery_players _ _ Hw).
    reflexivity.
Defined.




(** ** A second join on one connection *)

(** X13: a connection that holds a player and joins again gets a new
    player and lets go of the first, which stays in the Map: closing the
    connection then removes the second player only, and an input on it
    leaves the first as it is. *)
Theorem second_join_leaves_the_first_player
    (rs : nat -> R) (c k : nat) (msg inp : gmap string jsval) (w : World) :
  reachable rs w ->
  sockets w !! c = Some k -> k ∈ players w ->
  msg !! "type"%string = Some (JStr "join") ->
  msg !! "name"%string = None \/ (exists s, msg !! "name"%string = Some (JStr s)) ->
  inp !! "type"%string = Some (JStr "input") ->
  exists w' m w'',
    onMessage c (PObject msg) w = Some (w', Some m) /\
    InitMsg.id m <> k /\
    sockets w' !! c = Some (InitMsg.id m) /\
    k ∈ players w' /\
    k ∈ players (onClose c w') /\ (InitMsg.id m ∉ players (onClose c w')) /\
    onMessage c (PObject inp) w' = Some (w'', None) /\
    heap w'' !! k = heap w !! k.
Proof.
  intros Hr Hc Hk Ht Hn Hi. pose proof (reachable_wf _ _ Hr) as Hw.
  destruct (nickname_of_well_formed _ Hn) as [nick Enick].
  destruct (join_spec c msg w nick Enick Hw)
    as (w' & m & p & Ej & Epl & Eh & Eid & _ & _ & _ & Es & Em & Hw').
  assert (nextPlayerId w <> k) as Hne.
  { intros <-. apply (wf_live _ Hw), (wf_fresh _ Hw) in Hk. lia. }
  assert (onClose c w' =
          set_sockets (delete c (sockets w'))
            (set_players (Map_delete (nextPlayerId w) (players w'))
               (log (LogDisconnected (Player.name p) (nextPlayerId w)) w')))
    as Ec.
  { unfold onClose. by rewrite Es, Eh, lookup_insert_eq, Eid. }
  exists w', m, (input (nextPlayerId w) inp w').
  split; [unfold onMessage; rewrite Ht; simpl; by rewrite Ej|].
  rewrite Em. split; [done|]. split; [done|].
  split; [rewrite Epl, elem_of_app; by left|].
  rewrite Ec. cbn [players set_sockets set_players].
  rewrite !elem_of_Map_delete, Epl, elem_of_app.
  split; [split; [congruence | by left]|]. split; [tauto|].
  split; [by apply onMessage_input|].
  assert (heap (input (nextPlayerId w) inp w') !! k = heap w' !! k) as ->.
  { unfold input.
    destruct (inp !! "dx"%string) as [[| |dx| |]|]; try done.
    destruct (inp !! "dy"%string) as [[| |dy| |]|]; try done.
    destruct (_ >? _)%num; unfold update; cbn [heap set_heap];
      by rewrite lookup_alter_ne. }
  by rewrite Eh, lookup_insert_ne.
Qed.

Lemma second_join_of_Ann :
  exists w w' m,
    run (joins 1) (init_world zeros) = Some w /\
    onMessage 1 (PObject join_Ann) w = Some (w', Some m) /\
    1%nat ∈ players (onClose 1 w') /\
    (InitMsg.id m ∉ players (onClose 1 w')).
Proof.
  destruct (run_joins 1) as (w & Hr & Hw).
  destruct (second_join_leaves_the_first_player zeros 1 1 join_Ann
              plain_input w)
    as (w' & m & w'' & H1 & _ & _ & _ & H2 & H3 & _).
  - exact (nursery_reachable _ _ Hw).
  - apply (nursery_sockets 1 w Hw). lia.
  - rewrite (nursery_players _ _ Hw). left.
  - reflexivity.
  - right. exists "Ann"%string. reflexivity.
  - reflexivity.
  - exists w, w', m. split; [exact Hr|]. split; [exact H1|].
    split; [exact H2 | exact H3].
Defined.

(** ** Distance and speed *)

(** X14: [Constants.dist] does not depend on the order of the two points,
    whatever the four numbers are, and is never below 0; for finite numbers
    it is 0 for one and the same point only. *)
Theorem dist_is_symmetric (x1 y1 x2 y2 : num) :
  Constants.dist x1 y1 x2 y2 = Constants.dist x2 y2 x1 y1 /\
  (Constants.dist x1 y1 x2 y2 <? Fin 0)%num = false /\
  (forall a b c d,
      x1 = Fin a -> y1 = Fin b -> x2 = Fin c -> y2 = Fin d ->
      (Constants.dist x1 y1 x2 y2 = Fin 0 <-> a = c /\ b = d)).
Proof.
  unfold Constants.dist, num_sub. split; [|split].
  - destruct x1 as [| | |a], x2 as [| | |c], y1 as [| | |b], y2 as [| | |d];
      try reflexivity.
    cbn [num_neg num_add Math.hypot]. do 2 f_equal. ring.
  - destruct x1 as [| | |a], x2 as [| | |c], y1 as [| | |b], y2 as [| | |d];
      try reflexivity.
    cbn [num_neg num_add Math.hypot]. apply ltb_Fin_false, sqrt_pos.
  - intros a b c d -> -> -> ->. cbn [num_neg num_add Math.hypot]. split.
    + intros [= H]. apply sqrt_eq_0 in H;
        [|apply Rplus_le_le_0_compat; apply Rle_0_sqr].
      destruct (Rplus_sqr_eq_0 (a + - c) (b + - d)) as [H1 H2]; [exact H|].
      split; lra.
    + intros [-> ->]. do 2 f_equal.
      replace ((c + - c) * (c + - c) + (d + - d) * (d + - d)) with 0 by ring.
      apply sqrt_0.
Qed.

Lemma speed_bounds (r : R) : 10 <= r -> 2 <= Rmax 2 (50 / r) <= 5.
Proof.
  intros Hr. split; [apply Rmax_l|]. apply Rmax_lub; [lra|].
  assert (0 < / r) by (apply Rinv_0_lt_compat; lra).
  assert (r * / r = 1) by (apply Rinv_r; lra). unfold Rdiv. nra.
Qed.

Lemma clamp_step (v d r W : R) :
  r <= v <= W - r ->
  exists a,
    (let x := (Fin v + Fin d)%num in
     let x := if (x <? Fin r)%num then Fin r else x in
     if (x >? Fin W - Fin r)%num then (Fin W - Fin r)%num else x) = Fin a /\
    r <= a <= W - r /\ (a - v) * (a - v) <= d * d.
Proof.
  intros Hv. cbv zeta. unfold num_gtb. simpl.
  destruct (Rlt_dec (v + d) r).
  - destruct (Rlt_dec (W + - r) r); [lra|]. exists r.
    split; [done|]. split; [lra | nra].
  - destruct (Rlt_dec (W + - r) (v + d)).
    + exists (W + - r). split; [done|]. split; [lra | nra].
    + exists (v + d). split; [done|]. split; [lra | nra].
Qed.

(** X15: a player that is between the walls, with a radius of 10 at least
    and a heading no longer than 1, is between the walls after the movement
    pass and has moved by no more than its speed, which is
    max(2, 50 / radius) and so 5 at most, whatever its connection sent. *)
Theorem no_step_longer_than_the_speed
    (p : Player.t) (r x y dx dy : R) :
  Player.radius p = Fin r -> 10 <= r ->
  Player.x p = Fin x -> Player.y p = Fin y ->
  r <= x <= 2000 - r -> r <= y <= 2000 - r ->
  Player.dirX p = Fin dx -> Player.dirY p = Fin dy ->
  dx * dx + dy * dy <= 1 ->
  exists x' y',
    movePlayer p = Player.set_pos (Fin x') (Fin y') p /\
    r <= x' <= 2000 - r /\ r <= y' <= 2000 - r /\
    (x' - x) * (x' - x) + (y' - y) * (y' - y)
      <= Rmax 2 (50 / r) * Rmax 2 (50 / r) /\
    (x' - x) * (x' - x) + (y' - y) * (y' - y) <= 5 * 5.
Proof.
  intros Hr Hr10 Hx Hy Hxb Hyb Hdx Hdy Hlen.
  pose proof (speed_bounds r Hr10) as Hs.
  unfold movePlayer. cbv zeta. rewrite Hr, speed_finite, Hx, Hy, Hdx, Hdy by lra.
  cbn [num_mul].
  destruct (clamp_step x (dx * Rmax 2 (50 / r)) r 2000 Hxb)
    as (x' & Ex & Hx' & Hdx').
  destruct (clamp_step y (dy * Rmax 2 (50 / r)) r 2000 Hyb)
    as (y' & Ey & Hy' & Hdy').
  cbv zeta in Ex, Ey. unfold Constants.MAP_WIDTH, Constants.MAP_HEIGHT.
  exists x', y'. rewrite Ex, Ey. split; [done|]. split; [done|].
  split; [done|].
  assert ((x' - x) * (x' - x) + (y' - y) * (y' - y)
          <= Rmax 2 (50 / r) * Rmax 2 (50 / r)) as H.
  { set (s := Rmax 2 (50 / r)) in *.
    assert (dx * s * (dx * s) + dy * s * (dy * s)
            = (dx * dx + dy * dy) * (s * s)) as E by ring.
    assert ((dx * dx + dy * dy) * (s * s) <= 1 * (s * s)) as H2.
    { apply Rmult_le_compat_r; [nra | done]. }
    lra. }
  split; [done|]. nra.
Qed.

Lemma newcomer_steps_by_5 :
  exists x' y',
    movePlayer (Player.set_dir (Fin 1) (Fin 0) (spawned 1)) =
      Player.set_pos (Fin x') (Fin y')
        (Player.set_dir (Fin 1) (Fin 0) (spawned 1)) /\
    (x' - (50 + 0 * (2000 + - (2 * 50)))) * (x' - (50 + 0 * (2000 + - (2 * 50))))
    + (y' - (50 + 0 * (2000 + - (2 * 50)))) * (y' - (50 + 0 * (2000 + - (2 * 50))))
      <= 5 * 5.
Proof.
  destruct (no_step_longer_than_the_speed
              (Player.set_dir (Fin 1) (Fin 0) (spawned 1)) 10
              (50 + 0 * (2000 + - (2 * 50))) (50 + 0 * (2000 + - (2 * 50)))
              1 0)
    as (x' & y' & H1 & _ & _ & _ & H2).
  - reflexivity.
  - lra.
  - reflexivity.
  - reflexivity.
  - lra.
  - lra.
  - reflexivity.
  - reflexivity.
  - lra.
  - exists x', y'. split; [exact H1 | exact H2].
Defined.

(** ** Requests to the high-score collection *)








(** ** The client's copy of the players *)

Lemma updatePlayer_insert (m : gmap nat Cell.t) (p : Cell.t) :
  (forall q, m !! Cell.id p = Some q -> Cell.id q = Cell.id p) ->
  updatePlayer m p = <[Cell.id p := p]> m.
Proof.
  intros Hid. unfold updatePlayer. apply map_eq. intros k.
  destruct (m !! Cell.id p) as [q|] eqn:Eq.
  - destruct (decide (k = Cell.id p)) as [->|Hne].
    + rewrite !lookup_alter_eq, Eq, lookup_insert_eq. cbn [fmap option_fmap option_map].
      rewrite (Hid q eq_refl). by destruct p.
    + by rewrite !lookup_alter_ne, lookup_insert_ne.
  - destruct (decide (k = Cell.id p)) as [->|Hne].
    + rewrite lookup_alter_eq, lookup_insert_eq. by destruct p.
    + by rewrite lookup_alter_ne.
Qed.

Lemma foldl_insert_lookup (m : gmap nat Cell.t) (ps : list Cell.t) :
  NoDup (Cell.id <$> ps) ->
  (forall p, p ∈ ps ->
     foldl (fun m p => <[Cell.id p := p]> m) m ps !! Cell.id p = Some p) /\
  (forall k, k ∉ Cell.id <$> ps ->
     foldl (fun m p => <[Cell.id p := p]> m) m ps !! k = m !! k).
Proof.
  revert m. induction ps as [|a ps IH]; intros m Hnd.
  - split; [by intros p Hp; apply elem_of_nil in Hp | done].
  - rewrite fmap_cons in Hnd. apply NoDup_cons in Hnd as [Ha Hnd].
    destruct (IH (<[Cell.id a := a]> m) Hnd) as [IH1 IH2]. cbn [foldl]. split.
    + intros p Hp. apply elem_of_cons in Hp as [->|Hp]; [|by apply IH1].
      rewrite IH2 by done. apply lookup_insert_eq.
    + intros k Hk. rewrite fmap_cons in Hk.
      apply not_elem_of_cons in Hk as [Hne Hk].
      rewrite IH2 by done. by rewrite lookup_insert_ne.
Qed.

Lemma foldl_insert_ids (m : gmap nat Cell.t) (ps : list Cell.t) :
  (forall k q, m !! k = Some q -> Cell.id q = k) ->
  forall k q,
    foldl (fun m p => <[Cell.id p := p]> m) m ps !! k = Some q -> Cell.id q = k.
Proof.
  revert m. induction ps as [|a ps IH]; intros m Hm; [done|]. cbn [foldl].
  apply IH. intros k q. rewrite lookup_insert_Some.
  intros [[<- <-]|[_ Hq]]; [done | by apply Hm].
Qed.

Lemma foldl_updatePlayer (m : gmap nat Cell.t) (ps : list Cell.t) :
  (forall k q, m !! k = Some q -> Cell.id q = k) ->
  foldl updatePlayer m ps = foldl (fun m p => <[Cell.id p := p]> m) m ps.
Proof.
  revert m. induction ps as [|a ps IH]; intros m Hm; [done|]. cbn [foldl].
  rewrite updatePlayer_insert by (intros q; apply Hm).
  apply IH. intros k q. rewrite lookup_insert_Some.
  intros [[<- <-]|[_ Hq]]; [done | by apply Hm].
Qed.

Lemma onUpdate_players (ps : list Cell.t) (qs : list (wire * wire))
    (cl : Client.t) :
  cells_ok cl -> NoDup (Cell.id <$> ps) ->
  (forall p, p ∈ ps ->
     Client.players (onUpdate ps qs cl) !! Cell.id p = Some p) /\
  (forall k, k ∉ Cell.id <$> ps ->
     Client.players (onUpdate ps qs cl) !! k = None) /\
  cells_ok (onUpdate ps qs cl).
Proof.
  intros Hok Hnd. unfold onUpdate, updateLeaderboard.
  cbn [Client.players Client.playerId Client.pellets].
  rewrite foldl_updatePlayer by done.
  destruct (foldl_insert_lookup (Client.players cl) ps Hnd) as [H1 H2].
  split; [|split].
  - intros p Hp. apply map_lookup_filter_Some. split; [by apply H1|].
    cbn [fst]. apply list_elem_of_fmap. by exists p.
  - intros k Hk. apply map_lookup_filter_None. right. intros q _. done.
  - intros k q Hq. cbn [Client.players] in Hq.
    apply map_lookup_filter_Some in Hq as [Hq _]. revert Hq.
    by apply foldl_insert_ids.
Qed.

(** X17: after an update whose entries have distinct ids, the client's
    players are those of the message and no others, each with the fields
    the message gives; a player that is not in the message is forgotten.
    The pellets are those of the message and [playerId] stays. *)
Theorem update_replaces_the_players
    (ps : list Cell.t) (qs : list (wire * wire)) (cl : Client.t) :
  cells_ok cl -> NoDup (Cell.id <$> ps) ->
  let cl' := onUpdate ps qs cl in
  (forall p, p ∈ ps -> Client.players cl' !! Cell.id p = Some p) /\
  (forall k, k ∉ Cell.id <$> ps -> Client.players cl' !! k = None) /\
  Client.pellets cl' = qs /\
  Client.playerId cl' = Client.playerId cl /\
  cells_ok cl'.
Proof.
  intros Hok Hnd cl'.
  destruct (onUpdate_players ps qs cl Hok Hnd) as (H1 & H2 & H3).
  by repeat split.
Qed.

(** ** The leaderboard *)

Lemma Object_values_elem (m : gmap nat Cell.t) (p : Cell.t) :
  p ∈ Object_values m <-> exists k, m !! k = Some p.
Proof.
  unfold Object_values. rewrite list_elem_of_omap. split.
  - intros (k & _ & Hk). by exists k.
  - intros (k & Hk). exists k. split; [|done].
    rewrite merge_sort_Permutation, elem_of_elements, elem_of_dom. by eexists.
Qed.

Lemma length_omap_total {A B : Type} (f : A -> option B) (l : list A) :
  (forall a, a ∈ l -> is_Some (f a)) -> length (omap f l) = length l.
Proof.
  induction l as [|a l IH]; intros H; [done|]. cbn [omap list_omap].
  destruct (H a) as [b ->]; [by left|]. cbn [length]. f_equal. apply IH.
  intros a' Ha'. apply H. by right.
Qed.

Lemma length_Object_values (m : gmap nat Cell.t) :
  length (Object_values m) = size m.
Proof.
  unfold Object_values. rewrite length_omap_total.
  - rewrite merge_sort_Permutation. by rewrite <- size_dom.
  - intros k. rewrite merge_sort_Permutation, elem_of_elements.
    apply elem_of_dom.
Qed.

Lemma Array_insert_Permutation {A : Type} (cmp : A -> A -> num) (a : A)
    (l : list A) :
  Array_insert cmp a l ≡ₚ a :: l.
Proof.
  induction l as [|b l IH]; [done|]. cbn [Array_insert].
  destruct (_ >? _)%num; [|done]. rewrite IH. apply Permutation_swap.
Qed.

Lemma Array_sort_Permutation {A : Type} (cmp : A -> A -> num) (l : list A) :
  Array_sort cmp l ≡ₚ l.
Proof.
  induction l as [|a l IH]; [done|]. unfold Array_sort. cbn [foldr].
  rewrite Array_insert_Permutation. by f_equiv.
Qed.

Section sorting.

Context {A : Type} (cmp : A -> A -> num) (Rel : relation A).
Hypothesis Rel_trans : Transitive Rel.
Hypothesis cmp_above : forall a b, (cmp a b >? Fin 0)%num = true -> Rel b a.
Hypothesis cmp_not_above : forall a b, (cmp a b >? Fin 0)%num = false -> Rel a b.

Lemma Array_insert_sorted (a : A) (l : list A) :
  StronglySorted Rel l -> StronglySorted Rel (Array_insert cmp a l).
Proof.
  induction l as [|b l IH]; intros Hl; cbn [Array_insert].
  - by repeat constructor.
  - apply StronglySorted_inv in Hl as [Hl Hb].
    destruct (cmp a b >? Fin 0)%num eqn:E.
    + constructor; [by apply IH|].
      rewrite Array_insert_Permutation. constructor; [by apply cmp_above | done].
    + constructor; [by constructor|]. constructor; [by apply cmp_not_above|].
      eapply Forall_impl; [exact Hb|]. intros c Hc. cbv beta.
      etrans; [by apply cmp_not_above | done].
Qed.

Lemma Array_sort_sorted (l : list A) : StronglySorted Rel (Array_sort cmp l).
Proof.
  induction l as [|a l IH]; [constructor|]. unfold Array_sort. cbn [foldr].
  by apply Array_insert_sorted.
Qed.

End sorting.

Lemma by_score_above (a b : Cell.t) :
  (by_score a b >? Fin 0)%num = true ->
  (ToNumber (Cell.score a) <=? ToNumber (Cell.score b))%num = true.
Proof.
  unfold by_score, num_gtb, num_sub.
  destruct (Cell.score a) as [|r], (Cell.score b) as [|s]; simpl;
    repeat match goal with
    | |- context [Rlt_dec ?x ?y] => destruct (Rlt_dec x y)
    | |- context [Rle_dec ?x ?y] => destruct (Rle_dec x y)
    end; try done; lra.
Qed.

Lemma by_score_not_above (a b : Cell.t) :
  (by_score a b >? Fin 0)%num = false ->
  (ToNumber (Cell.score b) <=? ToNumber (Cell.score a))%num = true.
Proof.
  unfold by_score, num_gtb, num_sub.
  destruct (Cell.score a) as [|r], (Cell.score b) as [|s]; simpl;
    repeat match goal with
    | |- context [Rlt_dec ?x ?y] => destruct (Rlt_dec x y)
    | |- context [Rle_dec ?x ?y] => destruct (Rle_dec x y)
    end; try done; lra.
Qed.

Lemma leb_score_trans :
  Transitive (fun a b : Cell.t =>
    (ToNumber (Cell.score b) <=? ToNumber (Cell.score a))%num = true).
Proof.
  intros a b c.
  destruct (Cell.score a) as [|r], (Cell.score b) as [|s],
    (Cell.score c) as [|t]; simpl;
    repeat match goal with
    | |- context [Rle_dec ?x ?y] => destruct (Rle_dec x y)
    end; try done; lra.
Qed.

Lemma floor_leb (a b : wire) :
  (ToNumber b <=? ToNumber a)%num = true ->
  (Math.floor (ToNumber b) <=? Math.floor (ToNumber a))%num = true.
Proof.
  assert (forall x y, (Fin x <=? Fin y)%num = true ->
            (Math.floor (Fin x) <=? Math.floor (Fin y))%num = true) as H.
  { intros x y. simpl. destruct (Rle_dec x y) as [Hxy|]; [|done]. intros _.
    destruct (Rle_dec (IZR (Zfloor x)) (IZR (Zfloor y))) as [|Hn]; [done|].
    destruct Hn. by apply IZR_le, Zfloor_le. }
  destruct a, b; apply H.
Qed.

(** X18: the leaderboard after [updateLeaderboard] has one line for each
    of the client's players, up to ten; the scores shown do not go up from
    one line to the next; each line gives the name of a player and its
    score rounded down, in bold when it is the client's own; and a player
    that has no line has a score no higher than any that is shown. *)
Theorem leaderboard_shows_the_top_ten (cl : Client.t) :
  let row p :=
    Row.mk (Cell.name p) (Math.floor (ToNumber (Cell.score p)))
      (bool_decide (Client.playerId cl = Some (Cell.id p))) in
  let rows := Client.leaderboard (updateLeaderboard cl) in
  length rows = Nat.min (size (Client.players cl)) 10 /\
  StronglySorted
    (fun r1 r2 => (Row.score r2 <=? Row.score r1)%num = true) rows /\
  (forall r, r ∈ rows ->
     exists k p, Client.players cl !! k = Some p /\ r = row p) /\
  (forall k p, Client.players cl !! k = Some p ->
     row p ∈ rows \/
     forall r, r ∈ rows -> (Row.score (row p) <=? Row.score r)%num = true).
Proof.
  intros row rows.
  set (sorted := Array_sort by_score (Object_values (Client.players cl))).
  assert (rows = row <$> take (Nat.min (length sorted) 10) sorted) as Erows
    by done.
  assert (length sorted = size (Client.players cl)) as Elen.
  { unfold sorted. by rewrite Array_sort_Permutation, length_Object_values. }
  assert (StronglySorted (fun a b : Cell.t =>
            (ToNumber (Cell.score b) <=? ToNumber (Cell.score a))%num = true)
            sorted) as Hs.
  { apply Array_sort_sorted.
    - apply leb_score_trans.
    - apply by_score_above.
    - apply by_score_not_above. }
  assert (forall p, p ∈ sorted <-> exists k, Client.players cl !! k = Some p)
    as Hin.
  { intros p. unfold sorted.
    by rewrite Array_sort_Permutation, Object_values_elem. }
  rewrite <- (take_drop (Nat.min (length sorted) 10) sorted) in Hs.
  split; [|split; [|split]].
  - rewrite Erows, length_fmap, length_take, Elen. lia.
  - rewrite Erows.
    apply (StronglySorted_fmap row _ _ _ (fun a b H => floor_leb _ _ H)).
    by apply StronglySorted_app_1_l in Hs.
  - intros r. rewrite Erows, list_elem_of_fmap. intros (p & -> & Hp).
    assert (p ∈ sorted) as Hp'.
    { rewrite <- (take_drop (Nat.min (length sorted) 10) sorted).
      apply elem_of_app. by left. }
    apply Hin in Hp' as [k Hk]. by exists k, p.
  - intros k p Hp.
    assert (p ∈ sorted) as Hp' by (apply Hin; by exists k).
    rewrite <- (take_drop (Nat.min (length sorted) 10) sorted) in Hp'.
    apply elem_of_app in Hp' as [Ht|Hd].
    + left. rewrite Erows. apply list_elem_of_fmap. by exists p.
    + right. intros r. rewrite Erows, list_elem_of_fmap. intros (q & -> & Hq).
      cbn [Row.score]. apply floor_leb.
      by apply (StronglySorted_app_1_elem_of _ _ _ q p Hs).
Qed.

(** ** The client against the server *)



(** ** The input the client sends *)

Lemma sendDirection_fields (mx my cw ch : num) (msg : gmap string jsval) :
  sendDirection true mx my cw ch = Some msg ->
  let dx := (mx - cw / Fin 2)%num in
  let dy := (my - ch / Fin 2)%num in
  let dist := Math.hypot dx dy in
  let input :=
    if (dist >? Fin 0)%num then ((dx / dist)%num, (dy / dist)%num)
    else (Fin 0, Fin 0) in
  msg !! "type"%string = Some (JStr "input") /\
  msg !! "dx"%string = Some (JSON_value input.1) /\
  msg !! "dy"%string = Some (JSON_value input.2).
Proof.
  unfold sendDirection. intros [= <-]. cbv zeta. split; [|split].
  - apply lookup_insert_eq.
  - rewrite lookup_insert_ne by done. apply lookup_insert_eq.
  - rewrite !lookup_insert_ne by done. apply lookup_insert_eq.
Qed.

Lemma direction_cases (dx dy : num) :
  let dist := Math.hypot dx dy in
  let input :=
    if (dist >? Fin 0)%num then ((dx / dist)%num, (dy / dist)%num)
    else (Fin 0, Fin 0) in
  (exists a b, dx = Fin a /\ dy = Fin b /\ (a <> 0 \/ b <> 0) /\
     input = (Fin (a / sqrt (a * a + b * b)), Fin (b / sqrt (a * a + b * b))))
  \/ input = (Fin 0, Fin 0)
  \/ isFinite input.1 = false \/ isFinite input.2 = false.
Proof.
  cbv zeta. unfold num_gtb.
  destruct dx as [| | |a], dy as [| | |b]; simpl; auto.
  destruct (Rlt_dec 0 (sqrt (a * a + b * b))) as [Hpos|Hn]; [|auto].
  left. exists a, b. split; [done|]. split; [done|].
  assert (a <> 0 \/ b <> 0) as Hab.
  { destruct (Req_dec_T a 0) as [->|]; [|by left].
    destruct (Req_dec_T b 0) as [->|]; [|by right].
    replace (0 * 0 + 0 * 0) with 0 in Hpos by ring. rewrite sqrt_0 in Hpos. lra. }
  split; [done|].
  destruct (Req_dec_T (sqrt (a * a + b * b)) 0); [lra | done].
Qed.

Lemma unit_renormalised (a b : R) :
  a <> 0 \/ b <> 0 ->
  let m := sqrt (a * a + b * b) in
  (a / m <> 0 \/ b / m <> 0) /\
  a / m / sqrt (a / m * (a / m) + b / m * (b / m)) = a / m /\
  b / m / sqrt (a / m * (a / m) + b / m * (b / m)) = b / m.
Proof.
  intros H m. pose proof (hypot_pos a b H) as Hm. fold m in Hm.
  pose proof (unit_length a b H) as Hu. cbv zeta in Hu. fold m in Hu.
  rewrite Hu, sqrt_1. split; [|split; field; lra].
  assert (0 < / m) by (by apply Rinv_0_lt_compat).
  unfold Rdiv. destruct H as [H|H]; [left | right]; nra.
Qed.

Lemma input_null (k : nat) (msg : gmap string jsval) (w : World)
    (i1 i2 : num) :
  msg !! "dx"%string = Some (JSON_value i1) ->
  msg !! "dy"%string = Some (JSON_value i2) ->
  isFinite i1 = false \/ isFinite i2 = false ->
  input k msg w = w.
Proof.
  intros Ex Ey H. unfold input. rewrite Ex, Ey. unfold JSON_value.
  destruct i1, i2; simpl in *; destruct H; done.
Qed.

(** X20: the input [sendDirection] sends, whatever the mouse position and
    the size of the canvas are, leaves a connection's player with the
    heading it had, with no heading, or with a heading of length 1: no
    component that is not finite reaches the player, because
    [JSON.stringify] writes null for it and the server drops the message.
    When the mouse is off the centre of the canvas by finite amounts, the
    heading stored is the unit vector the client computed: in exact
    arithmetic the server's division by the length changes nothing. *)
Theorem client_input_is_stored_as_sent
    (c k : nat) (w : World) (p : Player.t) (mx my cw ch : num)
    (msg : gmap string jsval) :
  sockets w !! c = Some k -> heap w !! k = Some p ->
  sendDirection true mx my cw ch = Some msg ->
  exists w' p',
    onMessage c (PObject msg) w = Some (w', None) /\
    heap w' !! k = Some p' /\
    (p' = p \/ p' = Player.set_dir (Fin 0) (Fin 0) p \/
     exists hx hy,
       p' = Player.set_dir (Fin hx) (Fin hy) p /\ hx * hx + hy * hy = 1) /\
    (forall a b,
        (mx - cw / Fin 2)%num = Fin a -> (my - ch / Fin 2)%num = Fin b ->
        a <> 0 \/ b <> 0 ->
        p' = Player.set_dir (Fin (a / sqrt (a * a + b * b)))
                            (Fin (b / sqrt (a * a + b * b))) p).
Proof.
  intros Hc Hp Hs.
  destruct (sendDirection_fields _ _ _ _ _ Hs) as (Et & Ex & Ey).
  cbv zeta in Ex, Ey.
  rewrite (onMessage_input c k msg w Hc Et).
  assert (forall f, heap (update k f w) !! k = Some (f p)) as Hup.
  { intros f. unfold update. cbn [heap set_heap].
    by rewrite lookup_alter_eq, Hp. }
  destruct (direction_cases (mx - cw / Fin 2)%num (my - ch / Fin 2)%num)
    as [(a & b & Ea & Eb & Hab & Ei) | [Ei | Hinf]]; cbv zeta in *.
  - rewrite Ei in Ex, Ey. cbn [fst snd JSON_value isFinite] in Ex, Ey.
    destruct (unit_renormalised a b Hab) as (Hab' & E1 & E2).
    cbv zeta in Hab', E1, E2.
    rewrite (input_finite k msg w _ _ Ex Ey Hab'), E1, E2.
    eexists _, _. split; [done|]. split; [apply Hup|]. split.
    + right. right. eexists _, _. split; [done|]. by apply unit_length.
    + intros a' b' Ea' Eb' _. rewrite Ea in Ea'. rewrite Eb in Eb'.
      injection Ea' as <-. injection Eb' as <-. done.
  - rewrite Ei in Ex, Ey. cbn [fst snd JSON_value isFinite] in Ex, Ey.
    rewrite (input_zero k msg w Ex Ey).
    eexists _, _. split; [done|]. split; [apply Hup|]. split; [by auto|].
    intros a b Ea Eb Hab. exfalso. rewrite Ea, Eb in Ei.
    unfold num_gtb in Ei. cbn [Math.hypot] in Ei.
    pose proof (hypot_pos a b Hab) as Hm. rewrite ltb_Fin_true in Ei by done.
    rewrite !div_Fin in Ei by lra. injection Ei as E1 E2.
    assert (0 < / sqrt (a * a + b * b)) by (by apply Rinv_0_lt_compat).
    unfold Rdiv in E1, E2. destruct Hab; nra.
  - rewrite (input_null k msg w _ _ Ex Ey Hinf).
    exists w, p. split; [done|]. split; [done|]. split; [by left|].
    intros a b Ea Eb Hab. exfalso. rewrite Ea, Eb in Hinf.
    unfold num_gtb in Hinf. cbn [Math.hypot] in Hinf.
    pose proof (hypot_pos a b Hab) as Hm. rewrite ltb_Fin_true in Hinf by done.
    rewrite !div_Fin in Hinf by lra. by destruct Hinf.
Qed.

Lemma sent_from_the_corner :
  exists w w' p' msg,
    run (joins 1) (init_world zeros) = Some w /\
    sendDirection true (Fin 3) (Fin 4) (Fin 0) (Fin 0) = Some msg /\
    onMessage 1 (PObject msg) w = Some (w', None) /\
    heap w' !! 1%nat = Some p' /\
    (p' = spawned 1 \/ p' = Player.set_dir (Fin 0) (Fin 0) (spawned 1) \/
     exists hx hy,
       p' = Player.set_dir (Fin hx) (Fin hy) (spawned 1) /\
       hx * hx + hy * hy = 1).
Proof.
  destruct (run_joins 1) as (w & Hr & Hw).
  destruct (client_input_is_stored_as_sent 1 1 w (spawned 1)
              (Fin 3) (Fin 4) (Fin 0) (Fin 0) _
              (nursery_sockets 1 w Hw 1 ltac:(lia))
              (nursery_lookup_Some 1 w 1 Hw ltac:(lia)) eq_refl)
    as (w' & p' & H1 & H2 & H3 & _).
  exists w, w', p'. eexists. split; [exact Hr|]. split; [reflexivity|].
  split; [exact H1|]. split; [exact H2 | exact H3].
Defined.





Lemma first_update_of_a_new_client :
  Client.players
    (onUpdate [receive (update_entry (spawned 1))] [] new_client) !! 1%nat
    = Some (receive (update_entry (spawned 1))) /\
  Client.players
    (onUpdate [receive (update_entry (spawned 1))] [] new_client) !! 2%nat
    = None.
Proof.
  destruct (update_replaces_the_players
              [receive (update_entry (spawned 1))] [] new_client)
    as (H1 & H2 & _).
  - intros k q Hq. discriminate Hq.
  - apply NoDup_singleton.
  - split.
    + apply (H1 (receive (update_entry (spawned 1)))). left.
    + apply H2. intros Hin. apply list_elem_of_singleton in Hin.
      discriminate Hin.
Defined.

(** ** Consumption

    A run in which a pellet is eaten, and the growth of a player within a
    life; both rest on the invariants of the objects over a run above. *)

(** *** The run in which the first player spawns on a pellet *)

Lemma initPellets_exact (n a : nat) (w : World) :
  random_count w = (2 * a)%nat ->
  let w' :=
    foldl (fun w (_ : nat) =>
             let '(rx, w1) := random w in
             let '(ry, w2) := random w1 in
             set_pellets
               (pellets w2 ++ [Pellet.mk (rx * Constants.MAP_WIDTH)
                                         (ry * Constants.MAP_HEIGHT)]) w2)
          w (seq a n) in
  pellets w' =
    pellets w ++ ((fun i => relocated (random_source w) (2 * i)) <$> seq a n) /\
  random_count w' = (2 * (a + n))%nat /\
  sockets w' = sockets w /\ heap w' = heap w.
Proof.
  revert a w. induction n as [|n IH]; intros a w Hc; cbn [seq foldl].
  - cbv zeta. rewrite app_nil_r, Nat.add_0_r. done.
  - match goal with |- context [foldl _ ?w0 (seq (S a) n)] =>
      destruct (IH (S a) w0) as (IH1 & IH2 & IH3 & IH4) end.
    { simpl. lia. }
    cbv zeta in *. rewrite IH1, IH2, IH3, IH4. simpl.
    rewrite <- app_assoc. simpl. unfold relocated. rewrite Hc.
    split; [|split; [lia | done]].
    do 4 f_equal. 
Qed.

Lemma init_world_exact (rs : nat -> R) :
  pellets (init_world rs) = (fun i => relocated rs (2 * i)) <$> seq 0 100 /\
  random_count (init_world rs) = 200%nat /\
  sockets (init_world rs) = ∅ /\ heap (init_world rs) = ∅.
Proof.
  unfold init_world, initPellets.
  match goal with |- context [foldl _ ?w0 _] =>
    destruct (initPellets_exact Constants.PELLET_COUNT 0 w0 eq_refl)
      as (H1 & H2 & H3 & H4) end.
  cbv zeta in *. rewrite H1, H2, H3, H4. done.
Qed.

Lemma lucky_half (n : nat) :
  (n < 2)%nat \/ (200 <= n < 202)%nat -> lucky n = 1 / 2.
Proof.
  intros H. unfold lucky.
  destruct (Nat.ltb_spec n 2), (Nat.leb_spec 200 n), (Nat.ltb_spec n 202);
    simpl; try done; lia.
Qed.

Lemma lucky_zero (n : nat) :
  (2 <= n < 200)%nat \/ (202 <= n)%nat -> lucky n = 0.
Proof.
  intros H. unfold lucky.
  destruct (Nat.ltb_spec n 2), (Nat.leb_spec 200 n), (Nat.ltb_spec n 202);
    simpl; try done; lia.
Qed.

Lemma lucky_ok (n : nat) : 0 <= lucky n < 1.
Proof.
  unfold lucky. destruct (_ || _); lra.
Qed.

Lemma joins_1 : joins 1 = [Message 1 (PObject join_Ann)].
Proof. reflexivity. Qed.

Lemma lucky_join_aux (w0 : World) :
  players w0 = [] -> nextPlayerId w0 = 1%nat -> random_source w0 = lucky ->
  random_count w0 = 200%nat -> heap w0 = ∅ ->
  exists w' m,
    onMessage 1 (PObject join_Ann) w0 = Some (w', Some m) /\
    players w' = [1%nat] /\ heap w' = {[1%nat := centred]} /\
    sockets w' !! 1%nat = Some 1%nat /\
    pellets w' = pellets w0 /\
    random_count w' = 203%nat /\ random_source w' = lucky.
Proof.
  intros Hpl Hn Hrs Hc Hh.
  assert (exists w' m,
    join 1 join_Ann w0 = Some (w', m) /\
    players w' = [1%nat] /\ heap w' = {[1%nat := centred]} /\
    sockets w' !! 1%nat = Some 1%nat /\
    pellets w' = pellets w0 /\
    random_count w' = 203%nat /\ random_source w' = lucky)
    as (w' & m & Ej & H).
  { unfold join.
    change (nickname_of (join_Ann !! "name"%string)) with (Some "Ann"%string).
    simpl. rewrite Hpl, Hn, Hrs, Hc, Hh.
    rewrite (lucky_half 200), (lucky_half 201), (lucky_zero 202) by lia.
    eexists _, _. split; [reflexivity|]. simpl.
    split; [done|]. split; [done|]. split; [by rewrite lookup_insert_eq|].
    done. }
  exists w', m. split; [|done]. unfold onMessage.
  change (join_Ann !! "type"%string) with (Some (JStr "join")).
  cbn [String.eqb Ascii.eqb Bool.eqb]. by rewrite Ej.
Qed.

(** The state after the first join. *)
Lemma lucky_join :
  exists w,
    run (joins 1) (init_world lucky) = Some w /\
    reachable lucky w /\
    players w = [1%nat] /\ heap w = {[1%nat := centred]} /\
    sockets w !! 1%nat = Some 1%nat /\
    pellets w = (fun i => relocated lucky (2 * i)) <$> seq 0 100 /\
    random_count w = 203%nat /\ random_source w = lucky.
Proof.
  destruct (wf_init_world lucky) as (Hw & Hpl & Hn).
  destruct (init_world_exact lucky) as (Hpe & Hc & Hs & Hh).
  destruct (init_world_pellets lucky) as (_ & Hrs & _).
  destruct (lucky_join_aux (init_world lucky) Hpl Hn Hrs Hc Hh)
    as (w' & m & Eo & Epl & Eh & Es & Epe & Ec & Er).
  assert (run (joins 1) (init_world lucky) = Some w') as Hr.
  { rewrite joins_1. cbn [run]. unfold step. by rewrite Eo. }
  exists w'. split; [exact Hr|]. split; [by exists (joins 1)|].
  rewrite Epe, Hpe. by repeat split.
Qed.

Lemma centred_idle : movePlayer centred = centred.
Proof.
  apply (movePlayer_idle _ 10 (50 + 1 / 2 * (2000 + - (2 * 50)))
           (50 + 1 / 2 * (2000 + - (2 * 50)))); try reflexivity; lra.
Qed.

Lemma relocated_half (n : nat) :
  lucky n = 1 / 2 -> lucky (S n) = 1 / 2 ->
  relocated lucky n = Pellet.mk (Fin (1 / 2 * 2000)) (Fin (1 / 2 * 2000)).
Proof.
  intros E1 E2. unfold relocated. rewrite E1, E2. reflexivity.
Qed.

Lemma relocated_zero (n : nat) :
  lucky n = 0 -> lucky (S n) = 0 ->
  relocated lucky n = Pellet.mk (Fin (0 * 2000)) (Fin (0 * 2000)).
Proof.
  intros E1 E2. unfold relocated. rewrite E1, E2. reflexivity.
Qed.

Lemma centred_on_pellet (q : Pellet.t) :
  q = Pellet.mk (Fin (1 / 2 * 2000)) (Fin (1 / 2 * 2000)) ->
  (Constants.dist (Player.x centred) (Player.y centred)
     (Pellet.x q) (Pellet.y q) <? Player.radius centred)%num
  = true.
Proof.
  intros ->.
  apply ltb_Fin_true.
  match goal with |- sqrt ?e < _ => replace e with 0 by lra end.
  rewrite sqrt_0. lra.
Qed.

Lemma corner_out_of_reach (q : Pellet.t) :
  q = Pellet.mk (Fin (0 * 2000)) (Fin (0 * 2000)) ->
  (Constants.dist (Player.x (eatPellet centred)) (Player.y (eatPellet centred))
     (Pellet.x q) (Pellet.y q) <? Player.radius (eatPellet centred))%num
  = false.
Proof.
  intros ->. cbn [Pellet.x Pellet.y].
  assert (Player.radius (eatPellet centred) = Fin (sqrt (10 * 10 + 4 * 4))) as ->.
  { unfold eatPellet, Player.set_area, centred. cbn [Player.radius].
    unfold Constants.PELLET_RADIUS. cbn [num_mul num_add].
    apply sqrt_Fin. lra. }
  apply ltb_Fin_false.
  apply sqrt_le_1_alt. lra.
Qed.

(** The tick that follows: the player eats the pellet it stands on, and no
    other. *)
Lemma lucky_tick (w : World) :
  players w = [1%nat] -> heap w = {[1%nat := centred]} ->
  pellets w = (fun i => relocated lucky (2 * i)) <$> seq 0 100 ->
  pellets w !! 0%nat = Some (Pellet.mk (Fin (1 / 2 * 2000)) (Fin (1 / 2 * 2000))) /\
  (tick w).1 = pelletStep 1 w 0 /\
  heap (pelletStep 1 w 0) = {[1%nat := eatPellet centred]} /\
  eatenInTick w = [].
Proof.
  intros Hpl Hh Hpe.
  assert (pellets w !! 0%nat
          = Some (Pellet.mk (Fin (1 / 2 * 2000)) (Fin (1 / 2 * 2000)))) as Hq.
  { rewrite Hpe, list_lookup_fmap, lookup_seq_lt by lia.
    cbn [fmap option_fmap option_map].
    rewrite relocated_half; [reflexivity| |]; apply lucky_half; lia. }
  split; [exact Hq|].
  apply (lone_tick w centred (Pellet.mk (Fin (1 / 2 * 2000)) (Fin (1 / 2 * 2000)))
           99 Hpl Hh centred_idle); [|exact Hq| |].
  - by rewrite Hpe, length_fmap, length_seq.
  - by apply centred_on_pellet.
  - intros i q Hi. rewrite Hpe, list_lookup_fmap.
    destruct (decide (i < 100)%nat) as [Hlt|Hge].
    + rewrite lookup_seq_lt by lia. cbn [fmap option_fmap option_map].
      rewrite relocated_zero; [| apply lucky_zero; lia ..].
      intros [= <-]. by apply corner_out_of_reach.
    + by rewrite lookup_seq_ge by lia.
Qed.

(** A pellet that is really eaten: the first player is born on the first
    pellet and eats it in the next tick; the pellet goes to the position
    made of the two numbers drawn then, and the other 99 stay. *)
Lemma pellet_under_the_newcomer_is_relocated :
  exists w,
    run (joins 1) (init_world lucky) = Some w /\
    pellets w !! 0%nat
      = Some (Pellet.mk (Fin (1 / 2 * 2000)) (Fin (1 / 2 * 2000))) /\
    random_count w = 203%nat /\
    pellets (tick w).1 = <[0%nat := relocated lucky 203]> (pellets w) /\
    relocated lucky 203 = Pellet.mk (Fin (0 * 2000)) (Fin (0 * 2000)) /\
    on_map (relocated lucky 203) /\
    length (pellets (tick w).1) = 100%nat /\
    Forall on_map (pellets (tick w).1).
Proof.
  destruct lucky_join as (w & Hrun & Hw & Hpl & Hh & _ & Hpe & Hc & Hrs).
  destruct (lucky_tick w Hpl Hh Hpe) as (Hq & Et & _ & _).
  destruct (pellet_pool_invariant lucky w lucky_ok Hw)
    as (L1 & L2 & _ & F2 & _ & _ & Hstep).
  assert (heap w !! 1%nat = Some centred) as Hp.
  { rewrite Hh. apply lookup_singleton_eq. }
  pose proof (Hstep w 1%nat 0%nat centred _ Hrs Hp Hq) as Hs.
  rewrite (centred_on_pellet _ eq_refl), Hc in Hs.
  destruct Hs as (E1 & _ & E3).
  exists w. split; [exact Hrun|]. split; [exact Hq|]. split; [exact Hc|].
  split; [by rewrite Et|].
  split; [apply relocated_zero; apply lucky_zero; lia|].
  split; [exact E3|]. split; [by rewrite L2|exact F2].
Defined.

(** *** Growth within a life *)











